(** * prunner: pipeline runner, admission control and job bookkeeping

    A shallow embedding of [prunner.go], [taskctl/runner.go] and
    [taskctl/output_store.go].  Go structs become records (one module per
    struct, so that fields keep their Go names), [*pipelineJob] pointers
    become addresses into an explicit heap, Go maps become [gmap]s, slices
    become lists, and [error] values become [option goerror].

    The runner lock [mx] is held for the whole body of every exported
    operation, so each operation is modelled as one atomic state
    transformer.  Effects that leave the runner (the clock, the UUID
    generator, the graph constructor of the scheduler library, the order in
    which Go ranges over a map) are inputs, collected in [World]. *)

From Stdlib Require Import ZArith Lia Ascii String.
From Stdlib Require OrderedTypeEx.
From stdpp Require Import base option list gmap strings sorting.

Local Open Scope Z_scope.

(** ** Part I.  Definitions *)

(** *** Base types *)

(** [time.Time], as an instant on some integer scale. *)
Definition Time := Z.

(** [uuid.UUID]: sixteen bytes, read as one number. *)
Definition UUID := N.

(** A non-nil Go [error], reduced to what the program observes of it: the
    text returned by [Error()] and, for [executor.IsExitStatus], the exit
    status it carries if it is an exit-status error. *)
Record goerror := GoError {
  errText : string;
  errExitStatus : option Z
}.

Global Instance goerror_eq_dec : EqDecision goerror.
Proof. solve_decision. Defined.

(** [errors.New(s)] *)
Definition errorsNew (s : string) : goerror := GoError s None.

(** Conversion [int16(x)] of a Go [int]: keep the low sixteen bits, signed. *)
Definition int16 (x : Z) : Z := (x + 32768) `mod` 65536 - 32768.

(** *** Package [definition] *)

Module definition.

(** Modelled from the spec: the declaration of [definition.QueueStrategy]
    is not part of the sources at hand; the spec gives its two values. *)
Inductive QueueStrategy := QueueStrategyAppend | QueueStrategyReplace.

Global Instance QueueStrategy_eq_dec : EqDecision QueueStrategy.
Proof. solve_decision. Defined.

(** Modelled from the spec: the declaration of [definition.TaskDef] is not
    part of the sources at hand; these are the fields the code reads. *)
Record TaskDef := mkTaskDef {
  Script : list string;
  DependsOn : list string;
  AllowFailure : bool
}.

(** Modelled from the spec: the declaration of [definition.PipelineDef] is
    not part of the sources at hand; these are the fields the code reads.
    [QueueLimit] is a [*int]. *)
Record PipelineDef := mkPipelineDef {
  Concurrency : Z;
  QueueLimit : option Z;
  QueueStrategy_ : QueueStrategy;
  Tasks : gmap string TaskDef
}.

(** The zero value, which Go returns when a map has no entry. *)
Definition zeroPipelineDef : PipelineDef :=
  mkPipelineDef 0 None QueueStrategyAppend ∅.

End definition.

(** *** Jobs and their tasks *)

Module jobTask.
Record t := mk {
  TaskDef : definition.TaskDef;
  Name : string;
  Status : string;
  Start : option Time;
  End_ : option Time;
  Skipped : bool;
  ExitCode : Z;
  Errored : bool;
  Error : option goerror
}.

Definition withStatus (s : string) (jt : t) : t :=
  mk (TaskDef jt) (Name jt) s (Start jt) (End_ jt) (Skipped jt)
     (ExitCode jt) (Errored jt) (Error jt).
End jobTask.

Definition jobTasks := list jobTask.t.

Module pipelineJob.
Record t := mk {
  ID : UUID;
  Pipeline : string;
  Completed : bool;
  Canceled : bool;
  Created : Time;
  Start : option Time;
  End_ : option Time;
  User : string;
  Tasks : jobTasks;
  LastError : option goerror
}.

Definition withCanceled (b : bool) (j : t) : t :=
  mk (ID j) (Pipeline j) (Completed j) b (Created j) (Start j) (End_ j)
     (User j) (Tasks j) (LastError j).
Definition withCompleted (b : bool) (j : t) : t :=
  mk (ID j) (Pipeline j) b (Canceled j) (Created j) (Start j) (End_ j)
     (User j) (Tasks j) (LastError j).
Definition withStart (s : option Time) (j : t) : t :=
  mk (ID j) (Pipeline j) (Completed j) (Canceled j) (Created j) s (End_ j)
     (User j) (Tasks j) (LastError j).
Definition withEnd (e : option Time) (j : t) : t :=
  mk (ID j) (Pipeline j) (Completed j) (Canceled j) (Created j) (Start j) e
     (User j) (Tasks j) (LastError j).
Definition withTasks (ts : jobTasks) (j : t) : t :=
  mk (ID j) (Pipeline j) (Completed j) (Canceled j) (Created j) (Start j)
     (End_ j) (User j) ts (LastError j).
Definition withLastError (e : option goerror) (j : t) : t :=
  mk (ID j) (Pipeline j) (Completed j) (Canceled j) (Created j) (Start j)
     (End_ j) (User j) (Tasks j) e.

(** [func (j *pipelineJob) isRunning() bool] *)
Definition isRunning (j : t) : bool :=
  bool_decide (Start j ≠ None) && negb (Completed j) && negb (Canceled j).
End pipelineJob.

(** [scheduleAction] *)
Inductive scheduleAction :=
  | scheduleActionStart
  | scheduleActionQueue
  | scheduleActionReplace
  | scheduleActionNoQueue
  | scheduleActionQueueFull.

Global Instance scheduleAction_eq_dec : EqDecision scheduleAction.
Proof. solve_decision. Defined.

(** The errors [ScheduleAsync] returns: the formatted "pipeline ... is not
    defined" error, the two package-level values [errNoQueue] and
    [errQueueFull], and the wrapped failure of the UUID generator. *)
Inductive scheduleError :=
  | errNotDefined (pipeline : string)
  | errNoQueue
  | errQueueFull
  | errGeneratingUUID (cause : goerror).

(** [ScheduleOpts] *)
Record ScheduleOpts := mkScheduleOpts { User : string }.

(** *** Sorting, as [sort.Strings] and [sort.Slice] do it

    Go's sorts are not stable, but on a list without two elements that
    compare as equal every correct sort returns the same list, which is what
    [merge_sort] returns too. *)

Definition strLe (a b : string) : Prop := String.leb a b = true.

Global Instance strLe_dec a b : Decision (strLe a b).
Proof. unfold strLe. apply _. Defined.

(** [sort.Strings(queue)] *)
Definition sortStrings (l : list string) : list string := merge_sort strLe l.

(** [notAfter less a b]: [sort.Slice] may leave [a] before [b]. *)
Definition notAfter {A} (less : A → A → bool) (a b : A) : Prop :=
  less b a = false.

Global Instance notAfter_dec {A} (less : A → A → bool) a b :
  Decision (notAfter less a b).
Proof. unfold notAfter. apply _. Defined.

(** [sort.Slice(x, less)] *)
Definition sortSlice {A} (less : A → A → bool) (l : list A) : list A :=
  merge_sort (notAfter less) l.

(** *** [sortTasksByDependencies] *)

Module tmpNode.
Record t := mk {
  name : string;
  incoming : gset string;
  order : Z
}.
Definition withIncoming (inc : gset string) (n : t) : t :=
  mk (name n) inc (order n).
Definition withOrder (i : Z) (n : t) : t :=
  mk (name n) (incoming n) i.
End tmpNode.

(** The state of the traversal: [tmpNodes] and [queue]. *)
Definition tmpGraph : Type := gmap string tmpNode.t * list string.

(** Body of the loop [for _, n := range jt] that builds the temporary
    graph. *)
Definition addTmpNode (st : tmpGraph) (n : jobTask.t) : tmpGraph :=
  let inc : gset string :=
    list_to_set (definition.DependsOn (jobTask.TaskDef n)) in
  (<[jobTask.Name n := tmpNode.mk (jobTask.Name n) inc 0]> st.1,
   if decide (size inc = 0%nat) then st.2 ++ [jobTask.Name n] else st.2).

Definition buildTmpGraph (jt : jobTasks) : tmpGraph :=
  foldl addTmpNode (∅, []) jt.

(** Body of the loop [for _, m := range tmpNodes], at the node stored under
    key [k], after [n] was taken from the queue. *)
Definition releaseFrom (n : string) (st : tmpGraph) (k : string) : tmpGraph :=
  match st.1 !! k with
  | Some m =>
      if decide (n ∈ tmpNode.incoming m) then
        let inc := tmpNode.incoming m ∖ {[n]} in
        (<[k := tmpNode.withIncoming inc m]> st.1,
         if decide (size inc = 0%nat) then st.2 ++ [tmpNode.name m] else st.2)
      else st
  | None => st
  end.

(** The loop [for len(queue) > 0].  [rangeNodes i ks] is the order in which
    the [i]-th pass ranges over the keys [ks] of [tmpNodes]; Go leaves it
    unspecified.  The result is [tmpNodes] when the queue has run empty. *)
Fixpoint kahnLoop (rangeNodes : nat → list string → list string)
    (fuel : nat) (nodes : gmap string tmpNode.t) (queue : list string)
    (i : nat) : gmap string tmpNode.t :=
  match fuel with
  | O => nodes
  | S fuel' =>
      match queue with
      | [] => nodes
      | n :: queue' =>
          let nodes1 := alter (tmpNode.withOrder (Z.of_nat i)) n nodes in
          let st := foldl (releaseFrom n) (nodes1, queue')
                          (rangeNodes i (elements (dom nodes1))) in
          kahnLoop rangeNodes fuel' st.1 (sortStrings st.2) (S i)
      end
  end.

(** [tmpNodes[name].order] *)
Definition orderOf (nodes : gmap string tmpNode.t) (name : string) : Z :=
  default 0 (tmpNode.order <$> nodes !! name).

(** The [less] function handed to [sort.Slice]. *)
Definition taskLess (nodes : gmap string tmpNode.t) (a b : jobTask.t) : bool :=
  let ri := orderOf nodes (jobTask.Name a) in
  let rj := orderOf nodes (jobTask.Name b) in
  if decide (ri = rj) then String.ltb (jobTask.Name a) (jobTask.Name b)
  else bool_decide (ri < rj).

(** [tmpNodes] when the loop [for len(queue) > 0] is left.  Every pass of
    the loop takes one name off the queue; a name is put on the queue once
    when the graph is built and at most once when its last incoming edge
    goes, so twice the number of tasks bounds the passes. *)
Definition tmpNodesOf (rangeNodes : nat → list string → list string)
    (jt : jobTasks) : gmap string tmpNode.t :=
  let st := buildTmpGraph jt in
  kahnLoop rangeNodes (2 * length jt) st.1 (sortStrings st.2) 0.

Definition sortTasksByDependencies
    (rangeNodes : nat → list string → list string) (jt : jobTasks) : jobTasks :=
  sortSlice (taskLess (tmpNodesOf rangeNodes jt)) jt.

(** [toStatus], over the status constants of the scheduler library. *)
Definition StatusWaiting : Z := 0.
Definition StatusRunning : Z := 1.
Definition StatusSkipped : Z := 2.
Definition StatusDone : Z := 3.
Definition StatusError : Z := 4.
Definition StatusCanceled : Z := 5.

Definition toStatus (status : Z) : string :=
  if decide (status = StatusWaiting) then "waiting"
  else if decide (status = StatusRunning) then "running"
  else if decide (status = StatusSkipped) then "skipped"
  else if decide (status = StatusDone) then "done"
  else if decide (status = StatusError) then "error"
  else if decide (status = StatusCanceled) then "canceled"
  else "".

(** [buildJobTasks].  [rangeTasks] is the order in which Go ranges over the
    task map. *)
Definition newJobTask (kv : string * definition.TaskDef) : jobTask.t :=
  jobTask.mk kv.2 kv.1 (toStatus StatusWaiting) None None false 0 false None.

Definition buildJobTasks
    (rangeTasks : list (string * definition.TaskDef) →
                  list (string * definition.TaskDef))
    (rangeNodes : nat → list string → list string)
    (tasks : gmap string definition.TaskDef) : jobTasks :=
  sortTasksByDependencies rangeNodes
    (newJobTask <$> rangeTasks (map_to_list tasks)).

(** *** The world outside the runner *)

(** [scheduler.Stage], as [buildPipelineGraph] fills it in. *)
Module Stage.
Record t := mk {
  Name : string;
  Script : list string;
  DependsOn : list string;
  AllowFailure : bool;
  jobID : UUID
}.
End Stage.

Definition ExecutionGraph := list Stage.t.

Record World := mkWorld {
  (** [time.Now()], by the number of readings taken before *)
  timeNow : nat → Time;
  (** the error of [scheduler.NewExecutionGraph(stages...)], if any *)
  NewExecutionGraph : list Stage.t → option goerror;
  (** the order of [range] over a task map *)
  rangeTasks : list (string * definition.TaskDef) →
               list (string * definition.TaskDef);
  (** the order of [range] over [tmpNodes], by the pass of the loop *)
  rangeNodes : nat → list string → list string;
  (** the order of [range] over [r.jobsByID] *)
  rangeJobs : list (UUID * nat) → list (UUID * nat);
  (** the order of [range] over [data.WaitLists] *)
  rangeWaitLists : list (string * list UUID) → list (string * list UUID)
}.

(** [buildPipelineGraph] *)
Definition stageOfTask (id : UUID) (taskDef : jobTask.t) : Stage.t :=
  Stage.mk (jobTask.Name taskDef)
           (definition.Script (jobTask.TaskDef taskDef))
           (definition.DependsOn (jobTask.TaskDef taskDef))
           (definition.AllowFailure (jobTask.TaskDef taskDef))
           id.

Definition buildPipelineGraph (w : World) (id : UUID) (tasks : jobTasks)
    : ExecutionGraph + goerror :=
  let stages := stageOfTask id <$> tasks in
  match NewExecutionGraph w stages with
  | Some err => inr err
  | None => inl stages
  end.

(** *** The runner *)

(** Address of a [pipelineJob] on the heap. *)
Abbreviation ptr := nat (only parsing).

Module pipelineRunner.
(** [heap] holds the jobs the maps point to.  [persistRequests] is the
    one-slot channel (is the slot taken).  Three fields record effects:
    [persistSends] counts the sends attempted on [persistRequests],
    [spawned] lists, in launch order, the jobs for which [startJob]
    launched the activity that runs the graph and then calls
    [jobCompleted], and [clock] counts the readings of [time.Now]. *)
Record t := mk {
  defs : gmap string definition.PipelineDef;
  heap : list pipelineJob.t;
  jobsByID : gmap UUID ptr;
  jobsByPipeline : gmap string (list ptr);
  waitListByPipeline : gmap string (list ptr);
  persistRequests : bool;
  persistSends : nat;
  spawned : list ptr;
  clock : nat
}.

Definition withHeap (h : list pipelineJob.t) (r : t) : t :=
  mk (defs r) h (jobsByID r) (jobsByPipeline r) (waitListByPipeline r)
     (persistRequests r) (persistSends r) (spawned r) (clock r).
Definition withJobsByID (m : gmap UUID ptr) (r : t) : t :=
  mk (defs r) (heap r) m (jobsByPipeline r) (waitListByPipeline r)
     (persistRequests r) (persistSends r) (spawned r) (clock r).
Definition withJobsByPipeline (m : gmap string (list ptr)) (r : t) : t :=
  mk (defs r) (heap r) (jobsByID r) m (waitListByPipeline r)
     (persistRequests r) (persistSends r) (spawned r) (clock r).
Definition withWaitListByPipeline (m : gmap string (list ptr)) (r : t) : t :=
  mk (defs r) (heap r) (jobsByID r) (jobsByPipeline r) m
     (persistRequests r) (persistSends r) (spawned r) (clock r).
Definition withSpawned (s : list ptr) (r : t) : t :=
  mk (defs r) (heap r) (jobsByID r) (jobsByPipeline r)
     (waitListByPipeline r) (persistRequests r) (persistSends r) s (clock r).
End pipelineRunner.

Import pipelineRunner.

(** The runner [newPipelineRunner] returns when there is no store. *)
Definition newPipelineRunner (defs : gmap string definition.PipelineDef)
    : pipelineRunner.t :=
  pipelineRunner.mk defs [] ∅ ∅ ∅ false 0 [] 0.

(** [r.defs.Pipelines[pipeline]], a map read that cannot fail *)
Definition pipelineDefOf (r : pipelineRunner.t) (pipeline : string)
    : definition.PipelineDef :=
  default definition.zeroPipelineDef (defs r !! pipeline).

(** [r.jobsByPipeline[pipeline]] and [r.waitListByPipeline[pipeline]] *)
Definition jobsOf (r : pipelineRunner.t) (pipeline : string) : list ptr :=
  default [] (jobsByPipeline r !! pipeline).
Definition waitListOf (r : pipelineRunner.t) (pipeline : string) : list ptr :=
  default [] (waitListByPipeline r !! pipeline).

(** [requestPersist]: a send that does not block; it is lost when the slot
    is taken. *)
Definition requestPersist (r : pipelineRunner.t) : pipelineRunner.t :=
  pipelineRunner.mk (defs r) (heap r) (jobsByID r) (jobsByPipeline r)
    (waitListByPipeline r) true (S (persistSends r)) (spawned r) (clock r).

(** [time.Now()] *)
Definition readClock (w : World) (r : pipelineRunner.t)
    : Time * pipelineRunner.t :=
  (timeNow w (clock r),
   pipelineRunner.mk (defs r) (heap r) (jobsByID r) (jobsByPipeline r)
     (waitListByPipeline r) (persistRequests r) (persistSends r) (spawned r)
     (S (clock r))).

(** A write through the pointer [job]. *)
Definition updateJob (f : pipelineJob.t → pipelineJob.t) (job : ptr)
    (r : pipelineRunner.t) : pipelineRunner.t :=
  withHeap (alter f job (heap r)) r.

(** Does the job at this address satisfy [isRunning]? *)
Definition runningAt (h : list pipelineJob.t) (job : ptr) : bool :=
  match h !! job with
  | Some j => pipelineJob.isRunning j
  | None => false
  end.

(** [runningJobsCount] *)
Definition runningJobsCount (r : pipelineRunner.t) (pipeline : string) : Z :=
  Z.of_nat (length (filter (λ job, runningAt (heap r) job = true)
                           (jobsOf r pipeline))).

(** [resolveScheduleAction] *)
Definition resolveScheduleAction (r : pipelineRunner.t) (pipeline : string)
    : scheduleAction :=
  let pipelineDef := pipelineDefOf r pipeline in
  let runningJobsCount := runningJobsCount r pipeline in
  if runningJobsCount >=? definition.Concurrency pipelineDef then
    if decide (definition.QueueLimit pipelineDef = Some 0) then
      scheduleActionNoQueue
    else
      let waitList := waitListOf r pipeline in
      if bool_decide (definition.QueueStrategy_ pipelineDef
                        = definition.QueueStrategyReplace)
         && (0 <? length waitList)%nat then
        scheduleActionReplace
      else
        match definition.QueueLimit pipelineDef with
        | Some limit =>
            if Z.of_nat (length waitList) >=? limit then
              scheduleActionQueueFull
            else scheduleActionQueue
        | None => scheduleActionQueue
        end
  else scheduleActionStart.

(** [isSchedulable] *)
Definition isSchedulable (r : pipelineRunner.t) (pipeline : string) : bool :=
  match resolveScheduleAction r pipeline with
  | scheduleActionReplace | scheduleActionQueue | scheduleActionStart => true
  | _ => false
  end.

(** The branch of [startJob] taken when the graph was built: set [Start],
    launch the activity. *)
Definition launchJob (w : World) (job : ptr) (r : pipelineRunner.t)
    : pipelineRunner.t :=
  let '(now, r1) := readClock w r in
  let r2 := updateJob (pipelineJob.withStart (Some now)) job r1 in
  withSpawned (spawned r2 ++ [job]) r2.

(** The writes of the branch of [startJob] taken when the graph could not be
    built. *)
Definition failJob (err : goerror) (job : ptr) (r : pipelineRunner.t)
    : pipelineRunner.t :=
  updateJob (λ j, pipelineJob.withCanceled true
                    (pipelineJob.withLastError (Some err) j)) job r.

(** [startJob] and the loop of [startJobsOnWaitList], which call each other.
    [waitListLoop] carries the local variable [waitList]; the map entry is
    written when the loop is left.  When a graph cannot be built, [startJob]
    calls [startJobsOnWaitList] again, which need not come back: [fuel]
    bounds the depth of calls, and [None] is "no result within the bound"
    (or a nil pointer, which the callers never pass). *)
Fixpoint startJob (w : World) (fuel : nat) (r : pipelineRunner.t) (job : ptr)
    {struct fuel} : option pipelineRunner.t :=
  match fuel with
  | O => None
  | S fuel' =>
      match heap r !! job with
      | None => None
      | Some j =>
          match buildPipelineGraph w (pipelineJob.ID j) (pipelineJob.Tasks j) with
          | inr err =>
              let r1 := failJob err job r in
              r2 ← waitListLoop w fuel' r1 (pipelineJob.Pipeline j)
                     (waitListOf r1 (pipelineJob.Pipeline j));
              Some (requestPersist r2)
          | inl graph =>
              Some (requestPersist (launchJob w job r))
          end
      end
  end
with waitListLoop (w : World) (fuel : nat) (r : pipelineRunner.t)
    (pipeline : string) (waitList : list ptr)
    {struct fuel} : option pipelineRunner.t :=
  match fuel with
  | O => None
  | S fuel' =>
      match waitList with
      | queuedJob :: waitList' =>
          if decide (resolveScheduleAction r pipeline = scheduleActionStart)
          then
            r1 ← startJob w fuel' r queuedJob;
            waitListLoop w fuel' r1 pipeline waitList'
          else
            Some (withWaitListByPipeline
                    (<[pipeline := waitList]> (waitListByPipeline r)) r)
      | [] =>
          Some (withWaitListByPipeline
                  (<[pipeline := waitList]> (waitListByPipeline r)) r)
      end
  end.

(** [startJobsOnWaitList] *)
Definition startJobsOnWaitList (w : World) (fuel : nat)
    (r : pipelineRunner.t) (pipeline : string) : option pipelineRunner.t :=
  waitListLoop w fuel r pipeline (waitListOf r pipeline).

(** The job [ScheduleAsync] allocates. *)
Definition newJob (w : World) (id : UUID) (pipeline : string) (now : Time)
    (opts : ScheduleOpts) (pipelineDef : definition.PipelineDef)
    : pipelineJob.t :=
  pipelineJob.mk id pipeline false false now None None (User opts)
    (buildJobTasks (rangeTasks w) (rangeNodes w) (definition.Tasks pipelineDef))
    None.

(** Allocation of a job at the first free address, followed by
    [r.jobsByID[id] = job] and
    [r.jobsByPipeline[pipeline] = append(r.jobsByPipeline[pipeline], job)]. *)
Definition registerJob (job : pipelineJob.t) (r : pipelineRunner.t)
    : ptr * pipelineRunner.t :=
  let p := length (heap r) in
  (p,
   pipelineRunner.mk (defs r) (heap r ++ [job])
     (<[pipelineJob.ID job := p]> (jobsByID r))
     (<[pipelineJob.Pipeline job :=
          jobsOf r (pipelineJob.Pipeline job) ++ [p]]> (jobsByPipeline r))
     (waitListByPipeline r) (persistRequests r) (persistSends r) (spawned r)
     (clock r)).

(** [ScheduleAsync].  [newV4] is what [uuid.NewV4()] returns to this call.
    The result pairs the state on return with the returned job or error. *)
Definition ScheduleAsync (w : World) (fuel : nat) (r : pipelineRunner.t)
    (pipeline : string) (opts : ScheduleOpts) (newV4 : UUID + goerror)
    : option (pipelineRunner.t * (ptr + scheduleError)) :=
  match defs r !! pipeline with
  | None => Some (r, inr (errNotDefined pipeline))
  | Some pipelineDef =>
      let action := resolveScheduleAction r pipeline in
      match action with
      | scheduleActionNoQueue => Some (r, inr errNoQueue)
      | scheduleActionQueueFull => Some (r, inr errQueueFull)
      | _ =>
          match newV4 with
          | inr err => Some (r, inr (errGeneratingUUID err))
          | inl id =>
              let '(now, r0) := readClock w r in
              let '(job, r1) :=
                registerJob (newJob w id pipeline now opts pipelineDef) r0 in
              match action with
              | scheduleActionQueue =>
                  let r2 := withWaitListByPipeline
                    (<[pipeline := waitListOf r1 pipeline ++ [job]]>
                       (waitListByPipeline r1)) r1 in
                  Some (requestPersist r2, inl job)
              | scheduleActionReplace =>
                  let waitList := waitListOf r1 pipeline in
                  match last waitList with
                  | None => None
                  | Some previousJob =>
                      let r2 := updateJob (pipelineJob.withCanceled true)
                                  previousJob r1 in
                      let r3 := withWaitListByPipeline
                        (<[pipeline :=
                             <[pred (length waitList) := job]> waitList]>
                           (waitListByPipeline r2)) r2 in
                      Some (requestPersist r3, inl job)
                  end
              | _ =>
                  r2 ← startJob w fuel r1 job;
                  Some (requestPersist r2, inl job)
              end
          end
      end
  end.

(** [jobCompleted] *)
Definition jobCompleted (w : World) (fuel : nat) (r : pipelineRunner.t)
    (id : UUID) (err : option goerror) : option pipelineRunner.t :=
  match jobsByID r !! id with
  | None => Some r
  | Some job =>
      match heap r !! job with
      | None => None
      | Some j =>
          let '(now, r1) := readClock w r in
          let r2 := updateJob
            (λ j, pipelineJob.withLastError err
                    (pipelineJob.withEnd (Some now)
                       (pipelineJob.withCompleted true j))) job r1 in
          r3 ← startJobsOnWaitList w fuel r2 (pipelineJob.Pipeline j);
          Some (requestPersist r3)
      end
  end.

(** The state in which [ScheduleAsync] holds the new job, registered in
    [jobsByID] and [jobsByPipeline], before it acts on [action]. *)
Definition admitted (w : World) (r : pipelineRunner.t) (pipeline : string)
    (opts : ScheduleOpts) (id : UUID) (pipelineDef : definition.PipelineDef)
    : pipelineRunner.t :=
  (registerJob
     (newJob w id pipeline (timeNow w (clock r)) opts pipelineDef)
     (readClock w r).2).2.

(** *** Histories of the runner *)

(** One call of an operation of the runner, made with the lock free, that
    returns.  Any result of the UUID generator, any job id and any error are
    allowed, and the drain of a wait list may be called on its own. *)
Inductive opStep (w : World) : pipelineRunner.t → pipelineRunner.t → Prop :=
  | opScheduleAsync fuel r pipeline opts newV4 r' res :
      ScheduleAsync w fuel r pipeline opts newV4 = Some (r', res) →
      opStep w r r'
  | opJobCompleted fuel r id err r' :
      jobCompleted w fuel r id err = Some r' →
      opStep w r r'
  | opStartJobsOnWaitList fuel r pipeline r' :
      startJobsOnWaitList w fuel r pipeline = Some r' →
      opStep w r r'.

Inductive opReachable (w : World) (defs : gmap string definition.PipelineDef)
    : pipelineRunner.t → Prop :=
  | opReachable_new : opReachable w defs (newPipelineRunner defs)
  | opReachable_step r r' :
      opReachable w defs r → opStep w r r' → opReachable w defs r'.

(** One step of a run of the service: a client calls [ScheduleAsync], and
    the generator hands out an id that no job has yet; or one of the
    activities launched by [startJob] comes back from the scheduler and
    calls [jobCompleted] with the id of its job. *)
Inductive runStep (w : World) : pipelineRunner.t → pipelineRunner.t → Prop :=
  | runScheduleAsync fuel r pipeline opts newV4 r' res :
      (∀ id, newV4 = inl id → jobsByID r !! id = None) →
      ScheduleAsync w fuel r pipeline opts newV4 = Some (r', res) →
      runStep w r r'
  | runJobCompleted fuel r job j err r' :
      job ∈ spawned r →
      heap r !! job = Some j →
      jobCompleted w fuel r (pipelineJob.ID j) err = Some r' →
      runStep w r r'.

Inductive runReachable (w : World) (defs : gmap string definition.PipelineDef)
    : pipelineRunner.t → Prop :=
  | runReachable_new : runReachable w defs (newPipelineRunner defs)
  | runReachable_step r r' :
      runReachable w defs r → runStep w r r' → runReachable w defs r'.

(** [scheduler.NewExecutionGraph] accepts every list of stages it is given,
    as it does for validated definitions. *)
Definition graphsBuild (w : World) : Prop :=
  ∀ stages, NewExecutionGraph w stages = None.

(** [x] stands before [y] in [l]. *)
Definition before {A} (x y : A) (l : list A) : Prop :=
  ∃ l1 l2 l3, l = l1 ++ x :: l2 ++ y :: l3.

(** The admission rule, in the words of the specification: [R] running
    jobs, [W] jobs waiting, concurrency [C], optional queue limit [QL]. *)
Definition admissionRule (R W C : Z) (QL : option Z)
    (strategy : definition.QueueStrategy) : scheduleAction :=
  if R <? C then scheduleActionStart
  else if bool_decide (QL = Some 0) then scheduleActionNoQueue
  else if bool_decide (strategy = definition.QueueStrategyReplace) && (0 <? W)
       then scheduleActionReplace
  else match QL with
       | Some ql => if ql <=? W then scheduleActionQueueFull
                    else scheduleActionQueue
       | None => scheduleActionQueue
       end.

(** *** Persistence *)

(** The declarations of [persistedTask], [persistedJob] and [persistedData]
    are not part of the sources at hand; the fields are those the composite
    literals of [saveToStore] fill in. *)
Module persistedTask.
Record t := mk {
  Name : string;
  Script : list string;
  DependsOn : list string;
  AllowFailure : bool;
  Status : string;
  Start : option Time;
  End_ : option Time;
  Skipped : bool;
  ExitCode : Z;
  Errored : bool;
  Error : option string
}.
End persistedTask.

Module persistedJob.
Record t := mk {
  ID : UUID;
  Pipeline : string;
  Completed : bool;
  Canceled : bool;
  Created : Time;
  Start : option Time;
  End_ : option Time;
  User : string;
  Tasks : list persistedTask.t
}.
End persistedJob.

Module persistedData.
Record t := mk {
  Jobs : list persistedJob.t;
  WaitLists : gmap string (list UUID)
}.
End persistedData.

(** [errToStrPtr] *)
Definition errToStrPtr (err : option goerror) : option string :=
  match err with
  | Some e => Some (errText e)
  | None => None
  end.

(** [strPtrToErr] *)
Definition strPtrToErr (s : option string) : option goerror :=
  match s with
  | None => None
  | Some s' => if decide (s' = "") then None else Some (errorsNew s')
  end.




(** [buildJobFromPersistedJob] *)
Definition buildTaskFromPersistedTask (pJobTask : persistedTask.t) : jobTask.t :=
  jobTask.mk
    (definition.mkTaskDef (persistedTask.Script pJobTask)
       (persistedTask.DependsOn pJobTask)
       (persistedTask.AllowFailure pJobTask))
    (persistedTask.Name pJobTask) (persistedTask.Status pJobTask)
    (persistedTask.Start pJobTask) (persistedTask.End_ pJobTask)
    (persistedTask.Skipped pJobTask) (persistedTask.ExitCode pJobTask)
    (persistedTask.Errored pJobTask)
    (strPtrToErr (persistedTask.Error pJobTask)).

Definition buildJobFromPersistedJob (pJob : persistedJob.t) : pipelineJob.t :=
  pipelineJob.mk (persistedJob.ID pJob) (persistedJob.Pipeline pJob)
    (persistedJob.Completed pJob) (persistedJob.Canceled pJob)
    (persistedJob.Created pJob) (persistedJob.Start pJob)
    (persistedJob.End_ pJob) (persistedJob.User pJob)
    (buildTaskFromPersistedTask <$> persistedJob.Tasks pJob)
    None.

(** [initialLoadFromStore], first loop: the body for one persisted job. *)
Definition cancelIfActive (jt : jobTask.t) : jobTask.t :=
  if decide (jobTask.Status jt = "waiting" ∨ jobTask.Status jt = "running")
  then jobTask.withStatus "canceled" jt
  else jt.

Definition restoreJob (pJob : persistedJob.t) : pipelineJob.t :=
  let job := buildJobFromPersistedJob pJob in
  if pipelineJob.isRunning job then
    pipelineJob.withCanceled true
      (pipelineJob.withTasks (cancelIfActive <$> pipelineJob.Tasks job) job)
  else job.

Definition loadJob (r : pipelineRunner.t) (pJob : persistedJob.t)
    : pipelineRunner.t :=
  let job := restoreJob pJob in
  let p := length (heap r) in
  pipelineRunner.mk (defs r) (heap r ++ [job])
    (<[persistedJob.ID pJob := p]> (jobsByID r))
    (<[persistedJob.Pipeline pJob :=
         jobsOf r (persistedJob.Pipeline pJob) ++ [p]]> (jobsByPipeline r))
    (waitListByPipeline r) (persistRequests r) (persistSends r) (spawned r)
    (clock r).

Definition loadJobs (r : pipelineRunner.t) (jobs : list persistedJob.t)
    : pipelineRunner.t :=
  foldl loadJob r jobs.




(** *** Package [taskctl]: the output store *)

(** [path.Clean] and [path.Join] of the Go library, over the elements of a
    path. *)
Fixpoint splitSlash (acc : string) (s : string) : list string :=
  match s with
  | EmptyString => [String.rev acc]
  | String c s' =>
      if decide (c = "/"%char) then String.rev acc :: splitSlash "" s'
      else splitSlash (String c acc) s'
  end.

Fixpoint cleanElems (rooted : bool) (kept : list string) (elems : list string)
    : list string :=
  match elems with
  | [] => reverse kept
  | e :: elems' =>
      if decide (e = "" ∨ e = ".") then cleanElems rooted kept elems'
      else if decide (e = "..") then
        match kept with
        | top :: kept' =>
            if decide (top = "..") then cleanElems rooted (e :: kept) elems'
            else cleanElems rooted kept' elems'
        | [] =>
            if rooted then cleanElems rooted [] elems'
            else cleanElems rooted [e] elems'
        end
      else cleanElems rooted (e :: kept) elems'
  end.

Fixpoint joinSlash (elems : list string) : string :=
  match elems with
  | [] => ""
  | [e] => e
  | e :: elems' => e +:+ "/" +:+ joinSlash elems'
  end.

Definition isRooted (s : string) : bool :=
  match s with
  | String c _ => bool_decide (c = "/"%char)
  | EmptyString => false
  end.

Definition pathClean (s : string) : string :=
  let rooted := isRooted s in
  let out := (if rooted then "/" else "") +:+
             joinSlash (cleanElems rooted [] (splitSlash "" s)) in
  if decide (out = "") then "." else out.

Definition pathJoin (elem : list string) : string :=
  match filter (λ e, e ≠ "") elem with
  | [] => ""
  | es => pathClean (joinSlash es)
  end.

Module OutputStore.
Record t := mk { basePath : string }.
End OutputStore.

(** What the operating system is asked to do. *)
Inductive fsCall :=
  | MkdirAll (dir : string)
  | Create (file : string)
  | Open (file : string).

(** [NewOutputStore], with the call it makes; [osErr] is the answer of the
    operating system. *)
Definition NewOutputStore (basePath : string) (osErr : option goerror)
    : list fsCall * (OutputStore.t + goerror) :=
  ([MkdirAll (pathJoin [basePath; "logs"])],
   match osErr with
   | Some err => inr err
   | None => inl (OutputStore.mk basePath)
   end).

(** [buildPath] *)
Definition buildPath (s : OutputStore.t) (jobID taskName outputName : string)
    : string :=
  pathJoin [OutputStore.basePath s; "logs"; jobID;
            taskName +:+ "-" +:+ outputName +:+ ".log"].

(** [Writer] and [Reader], with the calls they make when the operating
    system reports no error. *)
Definition Writer (s : OutputStore.t) (jobID taskName outputName : string)
    : list fsCall :=
  [MkdirAll (pathJoin [OutputStore.basePath s; "logs"; jobID]);
   Create (buildPath s jobID taskName outputName)].

Definition Reader (s : OutputStore.t) (jobID taskName outputName : string)
    : list fsCall :=
  [Open (buildPath s jobID taskName outputName)].

(** The output store [run] builds from the value of the flag [--data]. *)
Definition runOutputStore (data : string) : OutputStore.t :=
  OutputStore.mk (pathJoin [data; "logs"]).

(** *** Package [taskctl]: the task runner *)

(** [task.Task] of the task library, with the fields [Run] and [execute]
    read or write. *)
Module Task.
Record t := mk {
  Name : string;
  AllowFailure : bool;
  Start : Time;
  End_ : Time;
  Skipped : bool;
  ExitCode : Z;
  Errored : bool;
  Error : option goerror
}.
Definition withStart (s : Time) (t0 : t) : t :=
  mk (Name t0) (AllowFailure t0) s (End_ t0) (Skipped t0) (ExitCode t0)
     (Errored t0) (Error t0).
Definition withEnd (e : Time) (t0 : t) : t :=
  mk (Name t0) (AllowFailure t0) (Start t0) e (Skipped t0) (ExitCode t0)
     (Errored t0) (Error t0).
Definition withExitCode (c : Z) (t0 : t) : t :=
  mk (Name t0) (AllowFailure t0) (Start t0) (End_ t0) (Skipped t0) c
     (Errored t0) (Error t0).
Definition withErrored (b : bool) (t0 : t) : t :=
  mk (Name t0) (AllowFailure t0) (Start t0) (End_ t0) (Skipped t0)
     (ExitCode t0) b (Error t0).
Definition withError (e : option goerror) (t0 : t) : t :=
  mk (Name t0) (AllowFailure t0) (Start t0) (End_ t0) (Skipped t0)
     (ExitCode t0) (Errored t0) e.
End Task.

(** What the libraries and the operating system answer during one call of
    [Run].  A compiled task is the chain of its commands. *)
Record RunWorld := mkRunWorld {
  (** [r.ctx.Err()] *)
  ctxErr : option goerror;
  (** the error of [r.contextForTask(t)] *)
  contextForTaskErr : option goerror;
  (** [r.checkTaskCondition(t)] *)
  taskCondition : bool + goerror;
  (** the error of [r.before(...)] *)
  beforeErr : option goerror;
  (** the errors of the two calls of [r.outputStore.Writer] *)
  stdoutWriterErr : option goerror;
  stderrWriterErr : option goerror;
  (** [r.compiler.CompileTask(...)] *)
  compileTask : list string + goerror;
  (** the error of [executor.NewDefaultExecutor] *)
  newExecutorErr : option goerror;
  (** [exec.Execute(ctx, job)], by the command and its variable [Output] *)
  Execute : string → string → string * option goerror;
  (** the error of [r.after(...)] *)
  afterErr : option goerror;
  (** [time.Now()] before the first command, and when [execute] is left *)
  startTime : Time;
  endTime : Time
}.

(** The result of a call: the task as the call leaves it, the commands
    handed to [exec.Execute] in order, and the error returned. *)
Definition runResult : Type := Task.t * list string * option goerror.

(** The statements of [execute] that follow a failed command which is not
    passed over. *)
Definition taskFailed (x : RunWorld) (t : Task.t) (ran : list string)
    (err : goerror) : runResult :=
  (Task.withEnd (endTime x)
     (Task.withError (Some err) (Task.withErrored true t)),
   ran, Some err).

(** The loop [for nextJob := job; nextJob != nil; nextJob = nextJob.Next]
    of [execute]. *)
Fixpoint executeLoop (x : RunWorld) (t : Task.t) (prevOutput : string)
    (ran : list string) (job : list string) : runResult :=
  match job with
  | [] => (Task.withEnd (endTime x) t, ran, None)
  | nextJob :: next =>
      let '(out, err) := Execute x nextJob prevOutput in
      match err with
      | None => executeLoop x t out (ran ++ [nextJob]) next
      | Some e =>
          match errExitStatus e with
          | Some status =>
              let t1 := Task.withExitCode (int16 status) t in
              if Task.AllowFailure t1
              then executeLoop x t1 out (ran ++ [nextJob]) next
              else taskFailed x t1 (ran ++ [nextJob]) e
          | None => taskFailed x t (ran ++ [nextJob]) e
          end
      end
  end.




(** *** Invariants of the runner *)

(** [Pipeline] of the job at an address, if there is one. *)
Definition pipelineAt (h : list pipelineJob.t) (job : ptr) : option string :=
  pipelineJob.Pipeline <$> h !! job.

(** The lists of the runner hold each job under its own pipeline, and
    [jobsByPipeline] holds it once. *)
Record bookkeeping (r : pipelineRunner.t) : Prop := mkBookkeeping {
  bk_jobs_nodup : ∀ pipeline, NoDup (jobsOf r pipeline);
  bk_jobs_pipeline : ∀ pipeline job,
    job ∈ jobsOf r pipeline → pipelineAt (heap r) job = Some pipeline;
  bk_wait_pipeline : ∀ pipeline job,
    job ∈ waitListOf r pipeline → pipelineAt (heap r) job = Some pipeline
}.

(** The number of running jobs among those at the addresses [l]. *)
Definition runningIn (h : list pipelineJob.t) (l : list ptr) : nat :=
  length (filter (λ job, runningAt h job = true) l).

(** The concurrency bound. *)
Definition concurrencyBound (r : pipelineRunner.t) : Prop :=
  ∀ pipeline,
    runningJobsCount r pipeline
    ≤ definition.Concurrency (pipelineDefOf r pipeline).

(** What no operation changes: the definitions, and the pipeline of a job
    once it is on the heap. *)
Definition extends (r r' : pipelineRunner.t) : Prop :=
  defs r' = defs r ∧
  ∀ job pipeline, pipelineAt (heap r) job = Some pipeline →
                  pipelineAt (heap r') job = Some pipeline.

(** The invariant behind the concurrency bound. *)
Definition boundedRunner (r : pipelineRunner.t) : Prop :=
  bookkeeping r ∧ concurrencyBound r.

(** Every definition has a concurrency that is not negative. *)
Definition concurrencyDeclared (defs : gmap string definition.PipelineDef)
    : Prop :=
  ∀ pipeline pipelineDef,
    defs !! pipeline = Some pipelineDef →
    0 ≤ definition.Concurrency pipelineDef.

(** [r.waitListByPipeline[pipeline] = waitList] *)
Definition setWaitList (pipeline : string) (waitList : list ptr)
    (r : pipelineRunner.t) : pipelineRunner.t :=
  withWaitListByPipeline (<[pipeline := waitList]> (waitListByPipeline r)) r.

(** The jobs of a pipeline for which [startJob] launched the activity, in
    launch order. *)
Definition startedOf (r : pipelineRunner.t) (pipeline : string) : list ptr :=
  filter (λ job, pipelineAt (heap r) job = Some pipeline) (spawned r).

(** What holds of a run between two operations, when every graph can be
    built and the generator never repeats an id: a waiting job has not been
    started, completed or canceled, every job is registered under its own
    id, a pipeline with the strategy [replace] has at most one job waiting,
    and the jobs of a pipeline with the strategy [append] are, in the order
    of admission, those started followed by those waiting. *)
Record runInvariant (r : pipelineRunner.t) : Prop := mkRunInvariant {
  ri_bounded : boundedRunner r;
  ri_wait : ∀ pipeline job,
    job ∈ waitListOf r pipeline →
    ∃ j, heap r !! job = Some j ∧
         pipelineJob.Start j = None ∧
         pipelineJob.Completed j = false ∧
         pipelineJob.Canceled j = false ∧
         (job ∉ spawned r) ∧
         job ∈ jobsOf r pipeline;
  ri_wait_nodup : ∀ pipeline, NoDup (waitListOf r pipeline);
  ri_byid : ∀ job j,
    heap r !! job = Some j → jobsByID r !! pipelineJob.ID j = Some job;
  ri_spawned : ∀ job, job ∈ spawned r → is_Some (heap r !! job);
  ri_replace : ∀ pipeline,
    definition.QueueStrategy_ (pipelineDefOf r pipeline)
      = definition.QueueStrategyReplace →
    (length (waitListOf r pipeline) ≤ 1)%nat;
  ri_fifo : ∀ pipeline,
    definition.QueueStrategy_ (pipelineDefOf r pipeline)
      = definition.QueueStrategyAppend →
    jobsOf r pipeline = startedOf r pipeline ++ waitListOf r pipeline
}.

(** No job waits while its pipeline has room for it. *)
Definition drained (r : pipelineRunner.t) : Prop :=
  ∀ pipeline,
    waitListOf r pipeline ≠ [] →
    resolveScheduleAction r pipeline ≠ scheduleActionStart.

(** Two runners that the operations cannot tell apart. *)
Definition sameView (r1 r2 : pipelineRunner.t) : Prop :=
  defs r2 = defs r1 ∧ heap r2 = heap r1 ∧ jobsByID r2 = jobsByID r1 ∧
  spawned r2 = spawned r1 ∧
  (∀ pipeline, jobsOf r2 pipeline = jobsOf r1 pipeline) ∧
  (∀ pipeline, waitListOf r2 pipeline = waitListOf r1 pipeline).

(** Several steps of a run. *)
Inductive runSteps (w : World) : pipelineRunner.t → pipelineRunner.t → Prop :=
  | runSteps_refl r : runSteps w r r
  | runSteps_step r1 r2 r3 :
      runSteps w r1 r2 → runStep w r2 r3 → runSteps w r1 r3.

(** [startJob] called on each of [jobs] in turn, when every graph can be
    built. *)
Definition launchAll (w : World) (jobs : list ptr) (r : pipelineRunner.t)
    : pipelineRunner.t :=
  foldl (λ r0 job, requestPersist (launchJob w job r0)) r jobs.

(** *** Notions used to state the theorems on persistence and on tasks *)



(** The fields of a job that [startJob] never writes are the same, and a
    job that was canceled still is. *)
Definition keptBy (j j' : pipelineJob.t) : Prop :=
  pipelineJob.ID j' = pipelineJob.ID j ∧
  pipelineJob.Pipeline j' = pipelineJob.Pipeline j ∧
  pipelineJob.Completed j' = pipelineJob.Completed j ∧
  pipelineJob.Created j' = pipelineJob.Created j ∧
  pipelineJob.End_ j' = pipelineJob.End_ j ∧
  pipelineJob.User j' = pipelineJob.User j ∧
  pipelineJob.Tasks j' = pipelineJob.Tasks j ∧
  (pipelineJob.Canceled j = true → pipelineJob.Canceled j' = true).

(** Every job of [r] is still there in [r'], with the fields [startJob]
    never writes. *)
Definition keepsJobs (r r' : pipelineRunner.t) : Prop :=
  ∀ job j, heap r !! job = Some j →
           ∃ j', heap r' !! job = Some j' ∧ keptBy j j'.




(** Modelled from the spec: the place of a log file in the layout of the
    data directory, [logs/{jobID}/{taskName}-{stream}.log]. *)
Definition specLogPath (data jobID taskName stream : string) : string :=
  pathJoin [data; "logs"; jobID; taskName +:+ "-" +:+ stream +:+ ".log"].

(** *** Examples *)

(** A world in which the clock ticks, every graph can be built and Go
    ranges over maps in the order of their keys. *)
Definition demoWorld : World :=
  mkWorld (λ n, Z.of_nat n) (λ _, None) (λ l, l) (λ _ l, l) (λ l, l) (λ l, l).

(** Two tasks, [b] after [a]. *)
Definition demoTasks : gmap string definition.TaskDef :=
  {[ "a" := definition.mkTaskDef ["make"] [] false;
     "b" := definition.mkTaskDef ["make test"] ["a"] false ]}.

(** Pipeline [p] of scenario S2 (concurrency 1, queue limit 2, append) and
    pipeline [q] of scenario S4 (concurrency 1, replace). *)
Definition demoDefs : gmap string definition.PipelineDef :=
  {[ "p" := definition.mkPipelineDef 1 (Some 2)
              definition.QueueStrategyAppend demoTasks;
     "q" := definition.mkPipelineDef 1 None
              definition.QueueStrategyReplace demoTasks ]}.

Definition demoOpts : ScheduleOpts := mkScheduleOpts "alice".

Definition afterSchedule (r : pipelineRunner.t) (pipeline : string) (id : UUID)
    : pipelineRunner.t :=
  match ScheduleAsync demoWorld 4 r pipeline demoOpts (inl id) with
  | Some (r', _) => r'
  | None => r
  end.

Definition afterCompleted (r : pipelineRunner.t) (id : UUID)
    : pipelineRunner.t :=
  match jobCompleted demoWorld 4 r id None with
  | Some r' => r'
  | None => r
  end.

(** Scenario S2: three jobs on [p], the first started and two waiting. *)
Definition demoS2 : pipelineRunner.t :=
  afterSchedule
    (afterSchedule (afterSchedule (newPipelineRunner demoDefs) "p" 1%N) "p" 2%N)
    "p" 3%N.

(** Scenario S2, after the first and then the second job completed. *)
Definition demoS2done : pipelineRunner.t :=
  afterCompleted (afterCompleted demoS2 1%N) 2%N.


(** A job that failed, with the error of its task and its last error. *)
Definition demoExitError : goerror := GoError "exit status 1" (Some 1).

Definition demoFailedJob : pipelineJob.t :=
  pipelineJob.mk 7%N "p" true false 10 (Some 11) (Some 12) "alice"
    [jobTask.mk (definition.mkTaskDef ["make"] [] false) "a" "error"
       (Some 11) (Some 12) false 1 true (Some demoExitError)]
    (Some demoExitError).





(** *** Notions used to state the theorem on the order of tasks *)

(** The names of the tasks, and what a task depends on, as a set. *)
Definition taskNames (jt : jobTasks) : list string := jobTask.Name <$> jt.

Definition depsOf (t : jobTask.t) : gset string :=
  list_to_set (definition.DependsOn (jobTask.TaskDef t)).

(** The dependencies of the tasks by name. *)
Definition depsMap (jt : jobTasks) : gmap string (gset string) :=
  list_to_map ((λ t, (jobTask.Name t, depsOf t)) <$> jt).

(** The tasks form an acyclic graph: every dependency is a task, and the
    tasks can be ranked so that a task ranks above what it depends on. *)
Definition acyclicTasks (jt : jobTasks) : Prop :=
  ∃ rank : string → nat,
    ∀ t d, t ∈ jt → d ∈ definition.DependsOn (jobTask.TaskDef t) →
           d ∈ taskNames jt ∧ (rank d < rank (jobTask.Name t))%nat.

Definition acyclicDeps (D : gmap string (gset string)) : Prop :=
  ∃ rank : string → nat,
    ∀ n d x, D !! n = Some d → x ∈ d →
             is_Some (D !! x) ∧ (rank x < rank n)%nat.

(** [P] lists the names of [D] so that every name stands after the names
    it depends on, and is, where it stands, the least of the names not yet
    listed whose dependencies are all listed. *)
Definition topoGreedy (D : gmap string (gset string)) (P : list string)
    : Prop :=
  NoDup P ∧
  (∀ n, n ∈ P ↔ is_Some (D !! n)) ∧
  (∀ k n d, P !! k = Some n → D !! n = Some d →
            d ⊆ list_to_set (take k P)) ∧
  (∀ k n m d, P !! k = Some n → D !! m = Some d → m ∉ take k P →
              d ⊆ list_to_set (take k P) → strLe n m).

(** The state of the loop of [sortTasksByDependencies] after the names [P]
    were taken from the queue, in this order. *)
Record kahnState (D : gmap string (gset string)) (P : list string)
    (nodes : gmap string tmpNode.t) (queue : list string) : Prop :=
  mkKahnState {
  ks_nodup : NoDup P;
  ks_processed : ∀ n, n ∈ P → is_Some (D !! n);
  ks_nodes_None : ∀ n, D !! n = None → nodes !! n = None;
  ks_nodes_Some : ∀ n d, D !! n = Some d →
    ∃ m, nodes !! n = Some m ∧ tmpNode.name m = n ∧
         tmpNode.incoming m = d ∖ list_to_set P ∧
         ∀ k, P !! k = Some n → tmpNode.order m = Z.of_nat k;
  ks_sorted : StronglySorted strLe queue;
  ks_queue_nodup : NoDup queue;
  ks_queue : ∀ n, n ∈ queue ↔
    ∃ d, D !! n = Some d ∧ (n ∉ P) ∧ d ⊆ list_to_set P;
  ks_consistent : ∀ k n d, P !! k = Some n → D !! n = Some d →
    d ⊆ list_to_set (take k P);
  ks_greedy : ∀ k n m d, P !! k = Some n → D !! m = Some d →
    m ∉ take k P → d ⊆ list_to_set (take k P) → strLe n m
}.

(** What the pass of the loop over [tmpNodes] does to a node when [n] was
    taken from the queue. *)
Definition released (n : string) (m : tmpNode.t) : tmpNode.t :=
  tmpNode.withIncoming (tmpNode.incoming m ∖ {[n]}) m.

(** [k] is released by the pass for [n]: its last incoming edge comes from
    [n]. *)
Definition releasedBy (nodes : gmap string tmpNode.t) (n k : string) : Prop :=
  match nodes !! k with
  | Some m => n ∈ tmpNode.incoming m ∧ size (tmpNode.incoming m ∖ {[n]}) = 0%nat
  | None => False
  end.

Global Instance releasedBy_dec nodes n k : Decision (releasedBy nodes n k).
Proof. unfold releasedBy. destruct (nodes !! k); apply _. Defined.

(** The oracle ranges over the keys it is given, each once. *)
Definition rangesOver (rangeNodes : nat → list string → list string) : Prop :=
  ∀ i ks, rangeNodes i ks ≡ₚ ks.

(** The tasks of a definition form an acyclic graph: every dependency is a
    task of the definition, and the tasks can be ranked so that a task
    ranks above what it depends on. *)
Definition acyclicTaskMap (tasks : gmap string definition.TaskDef) : Prop :=
  ∃ rank : string → nat,
    ∀ name taskDef d,
      tasks !! name = Some taskDef → d ∈ definition.DependsOn taskDef →
      is_Some (tasks !! d) ∧ (rank d < rank name)%nat.

(** Go ranges over a task map in some order, each entry once. *)
Definition rangesOverTasks
    (rangeTasks : list (string * definition.TaskDef) →
                  list (string * definition.TaskDef)) : Prop :=
  ∀ l, rangeTasks l ≡ₚ l.

(** Four tasks: [a] after [b], [c] after both, and [d] on its own. *)
Definition demoTaskMap : gmap string definition.TaskDef :=
  {[ "a" := definition.mkTaskDef ["make a"] ["b"] false;
     "b" := definition.mkTaskDef ["make b"] [] false;
     "c" := definition.mkTaskDef ["make c"] ["a"; "b"] false;
     "d" := definition.mkTaskDef ["make d"] [] false ]}.

Definition demoJobTasks : jobTasks :=
  newJobTask <$> map_to_list demoTaskMap.

Definition demoRank (name : string) : nat :=
  if decide (name = "b") then 0%nat
  else if decide (name = "a") then 1%nat else 2%nat.

(** Two orders in which Go may range over a map. *)
Definition rangeForth {A} (l : list A) : list A := l.
Definition rangeBack {A} (l : list A) : list A := reverse l.

(** *** Other operations of the runner *)

(** [findJob]; [None] is the nil pointer. *)
Definition findJob (r : pipelineRunner.t) (id : UUID) : option ptr :=
  jobsByID r !! id.

(** What no operation takes back from a job: its identity, its tasks, and
    that it has started, is completed or is canceled. *)
Definition laterJob (j j' : pipelineJob.t) : Prop :=
  pipelineJob.ID j' = pipelineJob.ID j ∧
  pipelineJob.Pipeline j' = pipelineJob.Pipeline j ∧
  pipelineJob.Created j' = pipelineJob.Created j ∧
  pipelineJob.User j' = pipelineJob.User j ∧
  pipelineJob.Tasks j' = pipelineJob.Tasks j ∧
  (pipelineJob.Start j ≠ None → pipelineJob.Start j' ≠ None) ∧
  (pipelineJob.Completed j = true → pipelineJob.Completed j' = true) ∧
  (pipelineJob.Canceled j = true → pipelineJob.Canceled j' = true).

(** Every job of [r] is still at its address in [r'], and the maps of [r']
    hold what those of [r] hold. *)
Definition keepsRegister (r r' : pipelineRunner.t) : Prop :=
  defs r' = defs r ∧
  (∀ job j, heap r !! job = Some j →
            ∃ j', heap r' !! job = Some j' ∧ laterJob j j') ∧
  (∀ id, is_Some (jobsByID r !! id) → is_Some (jobsByID r' !! id)) ∧
  (∀ pipeline, jobsOf r pipeline `prefix_of` jobsOf r' pipeline).

(** [byName]: the place of the first task with the name; [None] is the nil
    pointer. *)
Fixpoint byName (jt : jobTasks) (name : string) : option nat :=
  match jt with
  | [] => None
  | t :: jt' =>
      if decide (jobTask.Name t = name) then Some 0%nat
      else S <$> byName jt' name
  end.

(** The zero value of [time.Time], which [IsZero] recognises: the origin of
    the scale. *)
Definition zeroTime : Time := 0.

Definition IsZero (t : Time) : bool := bool_decide (t = zeroTime).

(** The writes of [handleTaskChange] through the pointer [jt]. *)
Definition taskChanged (t : Task.t) (jt : jobTask.t) : jobTask.t :=
  jobTask.mk (jobTask.TaskDef jt) (jobTask.Name jt) (jobTask.Status jt)
    (if negb (IsZero (Task.Start t)) then Some (Task.Start t)
     else jobTask.Start jt)
    (if negb (IsZero (Task.End_ t)) then Some (Task.End_ t)
     else jobTask.End_ jt)
    (Task.Skipped t) (Task.ExitCode t) (Task.Errored t) (Task.Error t).

(** A write to the task at place [i] of the job at the address [job]. *)
Definition updateTask (f : jobTask.t → jobTask.t) (job : ptr) (i : nat)
    (r : pipelineRunner.t) : pipelineRunner.t :=
  updateJob (λ j, pipelineJob.withTasks (alter f i (pipelineJob.Tasks j)) j)
    job r.

(** [handleTaskChange].  [jobID] is what [uuid.FromString] makes of the
    variable [jobID] of the task.  [None] is a nil pointer in
    [jobsByID]. *)
Definition handleTaskChange (r : pipelineRunner.t) (jobID : UUID)
    (t : Task.t) : option pipelineRunner.t :=
  match jobsByID r !! jobID with
  | None => Some r
  | Some job =>
      j ← heap r !! job;
      match byName (pipelineJob.Tasks j) (Task.Name t) with
      | None => Some r
      | Some i => Some (requestPersist (updateTask (taskChanged t) job i r))
      end
  end.

(** [handleStageChange], for the stage with the name [name] whose
    [ReadStatus()] gives [status]. *)
Definition handleStageChange (r : pipelineRunner.t) (jobID : UUID)
    (name : string) (status : Z) : option pipelineRunner.t :=
  match jobsByID r !! jobID with
  | None => Some r
  | Some job =>
      j ← heap r !! job;
      match byName (pipelineJob.Tasks j) name with
      | None => Some r
      | Some i =>
          Some (requestPersist
                  (updateTask (jobTask.withStatus (toStatus status)) job i r))
      end
  end.

(** [func (r *pipelineRunner) isRunning(pipeline string) bool] *)
Definition isRunning (r : pipelineRunner.t) (pipeline : string) : bool :=
  existsb (runningAt (heap r)) (jobsOf r pipeline).

Module pipelineResult.
Record t := mk {
  Pipeline : string;
  Schedulable : bool;
  Running : bool
}.
End pipelineResult.

(** [ListPipelines].  [rangePipelines] is the order in which Go ranges over
    the keys of [r.defs.Pipelines]. *)
Definition pipelineToResult (r : pipelineRunner.t) (pipeline : string)
    : pipelineResult.t :=
  pipelineResult.mk pipeline (isSchedulable r pipeline) (isRunning r pipeline).

(** The [less] function [ListPipelines] hands to [sort.Slice]. *)
Definition pipelineLess (a b : pipelineResult.t) : bool :=
  String.ltb (pipelineResult.Pipeline a) (pipelineResult.Pipeline b).

Definition ListPipelines (rangePipelines : list string → list string)
    (r : pipelineRunner.t) : list pipelineResult.t :=
  sortSlice pipelineLess
    (pipelineToResult r <$> rangePipelines (elements (dom (defs r)))).

Module taskResult.
Record t := mk {
  Name : string;
  Status : string;
  Start : option Time;
  End_ : option Time;
  Skipped : bool;
  ExitCode : Z;
  Errored : bool;
  Error : option string
}.
End taskResult.

Module pipelineJobResult.
Record t := mk {
  ID : UUID;
  Pipeline : string;
  Tasks : list taskResult.t;
  Completed : bool;
  Canceled : bool;
  Errored : bool;
  Created : Time;
  Start : option Time;
  End_ : option Time;
  User : string;
  LastError : option string
}.
End pipelineJobResult.

(** [jobToResult] *)
Definition taskToResult (t : jobTask.t) : taskResult.t :=
  taskResult.mk (jobTask.Name t) (jobTask.Status t) (jobTask.Start t)
    (jobTask.End_ t) (jobTask.Skipped t) (jobTask.ExitCode t)
    (jobTask.Errored t) (errToStrPtr (jobTask.Error t)).

Definition jobToResult (j : pipelineJob.t) : pipelineJobResult.t :=
  let '(taskResults, errored) :=
    foldl (λ acc t, (acc.1 ++ [taskToResult t], acc.2 || jobTask.Errored t))
          ([], false) (pipelineJob.Tasks j) in
  pipelineJobResult.mk (pipelineJob.ID j) (pipelineJob.Pipeline j)
    taskResults (pipelineJob.Completed j) (pipelineJob.Canceled j) errored
    (pipelineJob.Created j) (pipelineJob.Start j) (pipelineJob.End_ j)
    (pipelineJob.User j) (errToStrPtr (pipelineJob.LastError j)).

(** The [less] function [ListJobs] hands to [sort.Slice]:
    [!res[i].Created.Before(res[j].Created)]. *)
Definition jobNewer (a b : pipelineJobResult.t) : bool :=
  negb (pipelineJobResult.Created a <? pipelineJobResult.Created b).

(** [ListJobs].  [None] is a nil pointer in [jobsByID].  The function
    [jobNewer] orders two results with the same creation time both ways;
    where no two jobs were created at the same time, every correct sort
    returns the list [sortSlice] returns. *)
Definition ListJobs (w : World) (r : pipelineRunner.t)
    : option (list pipelineJobResult.t) :=
  res ← mapM (λ kv : UUID * ptr, jobToResult <$> heap r !! kv.2)
             (rangeJobs w (map_to_list (jobsByID r)));
  Some (sortSlice jobNewer res).



(** Go ranges over the keys of a map in some order, each key once. *)
Definition rangesOverKeys (range : list string → list string) : Prop :=
  ∀ ks, range ks ≡ₚ ks.

(** No two registered jobs were created at the same time. *)
Definition createdApart (r : pipelineRunner.t) : Prop :=
  ∀ id1 id2 job1 job2 j1 j2,
    jobsByID r !! id1 = Some job1 → jobsByID r !! id2 = Some job2 →
    id1 ≠ id2 →
    heap r !! job1 = Some j1 → heap r !! job2 = Some j2 →
    pipelineJob.Created j1 ≠ pipelineJob.Created j2.

(** Every entry of [jobsByID] points to a job. *)
Definition jobsByIDValid (r : pipelineRunner.t) : Prop :=
  ∀ id job, jobsByID r !! id = Some job → is_Some (heap r !! job).

(** Go ranges over [r.jobsByID] in some order, each entry once. *)
Definition rangesOverJobs (range : list (UUID * nat) → list (UUID * nat))
    : Prop :=
  ∀ l, range l ≡ₚ l.

(** [a] was not created before [b]. *)
Definition notOlder (a b : pipelineJobResult.t) : Prop :=
  pipelineJobResult.Created b ≤ pipelineJobResult.Created a.

Global Instance notOlder_dec a b : Decision (notOlder a b).
Proof. unfold notOlder. apply _. Defined.

(** [a] stands before [b] in the list of jobs: it was created later. *)
Definition createdAfter (a b : pipelineJobResult.t) : Prop :=
  pipelineJobResult.Created b < pipelineJobResult.Created a.

(** *** More examples *)

(** A world in which no graph can be built. *)
Definition demoGraphError : goerror := GoError "cycle detected" None.

Definition demoFailWorld : World :=
  mkWorld (λ n, Z.of_nat n) (λ _, Some demoGraphError) (λ l, l) (λ _ l, l)
    (λ l, l) (λ l, l).

(** A runner in which a job of [p] waits while none runs. *)
Definition demoWaitingJob : pipelineJob.t :=
  pipelineJob.mk 1%N "p" false false 0 None None "alice" [] None.

Definition demoWaiting : pipelineRunner.t :=
  pipelineRunner.mk demoDefs [demoWaitingJob] {[ 1%N := 0%nat ]}
    {[ "p" := [0%nat] ]} {[ "p" := [0%nat] ]} false 0 [] 1.

(** The definition of [p]. *)
Definition demoDefP : definition.PipelineDef :=
  definition.mkPipelineDef 1 (Some 2) definition.QueueStrategyAppend demoTasks.

(** Scenario S2 before the third job is admitted. *)
Definition demoS2two : pipelineRunner.t :=
  afterSchedule (afterSchedule (newPipelineRunner demoDefs) "p" 1%N) "p" 2%N.

(** Scenario S2, after the first job completed. *)
Definition demoS2one : pipelineRunner.t := afterCompleted demoS2 1%N.

(** What the task runner reports of task [a]: started at 100, not yet
    ended. *)
Definition demoChangedTask : Task.t :=
  Task.mk "a" false 100 0 false 0 false None.

Definition demoS2changed : pipelineRunner.t :=
  default demoS2 (handleTaskChange demoS2 1%N demoChangedTask).

Definition demoS2staged : pipelineRunner.t :=
  default demoS2 (handleStageChange demoS2 1%N "a" StatusRunning).

(** The bound on the wait lists: a pipeline with a queue limit has no more
    jobs waiting than the limit says. *)
Definition queueBound (r : pipelineRunner.t) : Prop :=
  ∀ pipeline q,
    definition.QueueLimit (pipelineDefOf r pipeline) = Some q →
    Z.of_nat (length (waitListOf r pipeline)) ≤ Z.max 0 q.

(** The life of a job in a run: it has a start exactly when [startJob]
    launched its activity, an end exactly when it is completed, it is
    completed only after it has started, and it is canceled only without
    having started. *)
Definition lifeCycle (r : pipelineRunner.t) : Prop :=
  ∀ job j, heap r !! job = Some j →
    (pipelineJob.Start j ≠ None ↔ job ∈ spawned r) ∧
    (pipelineJob.Completed j = true ↔ pipelineJob.End_ j ≠ None) ∧
    (pipelineJob.Completed j = true → pipelineJob.Start j ≠ None) ∧
    (pipelineJob.Canceled j = true →
     pipelineJob.Start j = None ∧ pipelineJob.Completed j = false).







(** A string without a slash, and a name that [path.Clean] keeps as one
    element of a path: not empty, neither [.] nor [..], without a
    slash. *)
Fixpoint noSlash (s : string) : bool :=
  match s with
  | EmptyString => true
  | String c s' => if decide (c = "/"%char) then false else noSlash s'
  end.

Definition plainName (e : string) : Prop :=
  e ≠ "" ∧ e ≠ "." ∧ e ≠ ".." ∧ noSlash e = true.

(** The elements [path.Clean] keeps of a path. *)
Definition cleaned (s : string) : list string :=
  cleanElems (isRooted s) [] (splitSlash "" s).


(** An output store under [/var/prunner]. *)
Definition demoOutputStore : OutputStore.t := OutputStore.mk "/var/prunner".

(** ** Part II.  Theorems *)

(** *** Lists *)

Section lists.
Context {A : Type}.
Implicit Types (l : list A) (x y : A).

Lemma elem_of_insert_inv l i x y : y ∈ <[i:=x]> l → y = x ∨ y ∈ l.
Proof.
  intros [j Hj]%list_elem_of_lookup.
  apply list_lookup_insert_Some in Hj as [(_ & -> & _)|[_ Hj]];
    [by left|right].
  by eapply list_elem_of_lookup_2.
Qed.

Lemma insert_last_snoc l x y :
  <[pred (length (l ++ [y])) := x]> (l ++ [y]) = l ++ [x].
Proof.
  rewrite length_app. simpl.
  replace (pred (length l + 1)) with (length l + 0)%nat by lia.
  by rewrite insert_app_r.
Qed.

Lemma filter_ext_elem_of (P1 P2 : A → Prop)
    `{!∀ x, Decision (P1 x), !∀ x, Decision (P2 x)} l :
  (∀ x, x ∈ l → P1 x ↔ P2 x) → filter P1 l = filter P2 l.
Proof.
  induction l as [|x l IH]; [done|]. intros Hext.
  rewrite !filter_cons, IH by (intros; apply Hext; by right).
  destruct (decide (P1 x)) as [H1|H1], (decide (P2 x)) as [H2|H2];
    try done; exfalso; apply (Hext x) in H1 || apply (Hext x) in H2;
    done || by left.
Qed.

Lemma before_sublist x y l : before x y l ↔ [x; y] `sublist_of` l.
Proof.
  unfold before. rewrite sublist_cons_l. split.
  - intros (l1 & l2 & l3 & ->). exists l1, (l2 ++ y :: l3).
    split; [done|]. apply sublist_inserts_l, sublist_skip, sublist_nil_l.
  - intros (l1 & k & -> & (l2 & l3 & -> & _)%sublist_cons_l). eauto.
Qed.

Lemma before_prefix x y l l' :
  before x y l → l `prefix_of` l' → before x y l'.
Proof.
  rewrite !before_sublist. intros Hsub [k ->].
  by apply sublist_inserts_r.
Qed.

Lemma before_filter (P : A → Prop) `{!∀ x, Decision (P x)} x y l :
  before x y (filter P l) → before x y l.
Proof.
  rewrite !before_sublist. intros Hsub.
  etrans; [exact Hsub|]. apply sublist_filter.
Qed.

Lemma before_app_l x y l1 l2 :
  NoDup (l1 ++ l2) → y ∈ l1 → before x y (l1 ++ l2) → before x y l1.
Proof.
  rewrite !before_sublist.
  intros (_ & Hdisj & _)%NoDup_app Hy
    (k1 & k2 & Hk & H1 & H2)%sublist_app_r.
  assert (y ∉ k2) as Hnotin.
  { intros Hin. apply (Hdisj y Hy). by eapply sublist_subseteq. }
  destruct k1 as [|x' [|y' [|??]]]; simplify_eq/=; try done;
    exfalso; apply Hnotin; set_solver.
Qed.

Lemma before_app_r x y l1 l2 :
  NoDup (l1 ++ l2) → x ∈ l2 → before x y (l1 ++ l2) → before x y l2.
Proof.
  rewrite !before_sublist.
  intros (_ & Hdisj & _)%NoDup_app Hx
    (k1 & k2 & Hk & H1 & H2)%sublist_app_r.
  assert (x ∉ k1) as Hnotin.
  { intros Hin. apply (Hdisj x); [|done]. by eapply sublist_subseteq. }
  destruct k1 as [|x' [|y' [|??]]]; simplify_eq/=; try done;
    exfalso; apply Hnotin; set_solver.
Qed.

Lemma last_Some_snoc l y : last l = Some y → ∃ l', l = l' ++ [y].
Proof.
  intros Hlast. destruct l as [|x l _] using rev_ind; [done|].
  rewrite last_snoc in Hlast. simplify_eq. eauto.
Qed.
End lists.

(** *** Admission *)

Section admission.
Context (w : World).
Implicit Types (r : pipelineRunner.t) (pipeline : string).

Lemma resolveScheduleAction_rule r pipeline :
  resolveScheduleAction r pipeline =
  admissionRule (runningJobsCount r pipeline)
    (Z.of_nat (length (waitListOf r pipeline)))
    (definition.Concurrency (pipelineDefOf r pipeline))
    (definition.QueueLimit (pipelineDefOf r pipeline))
    (definition.QueueStrategy_ (pipelineDefOf r pipeline)).
Proof.
  unfold resolveScheduleAction, admissionRule.
  rewrite Z.geb_leb.
  destruct (Z.leb_spec (definition.Concurrency (pipelineDefOf r pipeline))
              (runningJobsCount r pipeline)) as [Hge|Hlt];
    destruct (Z.ltb_spec (runningJobsCount r pipeline)
                (definition.Concurrency (pipelineDefOf r pipeline)));
    try lia; [|done].
  destruct (decide (definition.QueueLimit (pipelineDefOf r pipeline)
                    = Some 0)) as [Hq|Hq];
    [by rewrite bool_decide_eq_true_2|].
  rewrite (bool_decide_eq_false_2 _ Hq).
  assert ((0 <? length (waitListOf r pipeline))%nat =
          (0 <? Z.of_nat (length (waitListOf r pipeline)))) as ->.
  { destruct (Nat.ltb_spec 0 (length (waitListOf r pipeline)));
      destruct (Z.ltb_spec 0 (Z.of_nat (length (waitListOf r pipeline))));
      done || lia. }
  destruct (_ && _); [done|].
  destruct (definition.QueueLimit _); [|done].
  by rewrite Z.geb_leb.
Qed.

Lemma resolveScheduleAction_start r pipeline :
  resolveScheduleAction r pipeline = scheduleActionStart ↔
  runningJobsCount r pipeline
    < definition.Concurrency (pipelineDefOf r pipeline).
Proof.
  unfold resolveScheduleAction. rewrite Z.geb_leb.
  destruct (Z.leb_spec (definition.Concurrency (pipelineDefOf r pipeline))
              (runningJobsCount r pipeline)); [|done].
  split; [|lia].
  repeat (case_decide || case_match); done.
Qed.

(** [ScheduleAsync] on a defined pipeline and a fresh id, by the action
    it resolves. *)
Lemma ScheduleAsync_defined fuel r pipeline opts id pipelineDef :
  defs r !! pipeline = Some pipelineDef →
  ScheduleAsync w fuel r pipeline opts (inl id) =
  let r1 := admitted w r pipeline opts id pipelineDef in
  let job := length (heap r) in
  let waitList := waitListOf r pipeline in
  match resolveScheduleAction r pipeline with
  | scheduleActionNoQueue => Some (r, inr errNoQueue)
  | scheduleActionQueueFull => Some (r, inr errQueueFull)
  | scheduleActionQueue =>
      Some (requestPersist (setWaitList pipeline (waitList ++ [job]) r1),
            inl job)
  | scheduleActionReplace =>
      match last waitList with
      | None => None
      | Some previousJob =>
          Some (requestPersist
                  (setWaitList pipeline
                     (<[pred (length waitList) := job]> waitList)
                     (updateJob (pipelineJob.withCanceled true)
                        previousJob r1)),
                inl job)
      end
  | scheduleActionStart =>
      r2 ← startJob w fuel r1 job; Some (requestPersist r2, inl job)
  end.
Proof.
  intros Hdef. unfold ScheduleAsync. rewrite Hdef.
  by destruct (resolveScheduleAction r pipeline).
Qed.

(** C1.  [ScheduleAsync] fails with the "not defined" error when the
    pipeline has no definition.  Otherwise the action it resolves is the
    one the admission rule of the specification gives for the number of
    running jobs, the length of the wait list, the concurrency and the
    optional queue limit of the pipeline, and the call does what that
    action says: [errNoQueue], [errQueueFull], the new job appended to the
    wait list, the new job written over the last entry of the wait list,
    or the new job handed to [startJob]. *)
Theorem ScheduleAsync_follows_admission_rule
    r pipeline opts newV4 fuel :
  match defs r !! pipeline with
  | None =>
      ScheduleAsync w fuel r pipeline opts newV4
      = Some (r, inr (errNotDefined pipeline))
  | Some pipelineDef =>
      let action :=
        admissionRule (runningJobsCount r pipeline)
          (Z.of_nat (length (waitListOf r pipeline)))
          (definition.Concurrency pipelineDef)
          (definition.QueueLimit pipelineDef)
          (definition.QueueStrategy_ pipelineDef) in
      resolveScheduleAction r pipeline = action ∧
      match action, newV4 with
      | scheduleActionNoQueue, _ =>
          ScheduleAsync w fuel r pipeline opts newV4
          = Some (r, inr errNoQueue)
      | scheduleActionQueueFull, _ =>
          ScheduleAsync w fuel r pipeline opts newV4
          = Some (r, inr errQueueFull)
      | _, inr err =>
          ScheduleAsync w fuel r pipeline opts newV4
          = Some (r, inr (errGeneratingUUID err))
      | scheduleActionQueue, inl id =>
          ∃ r', ScheduleAsync w fuel r pipeline opts newV4
                = Some (r', inl (length (heap r))) ∧
                waitListOf r' pipeline
                = waitListOf r pipeline ++ [length (heap r)]
      | scheduleActionReplace, inl id =>
          ∃ r', ScheduleAsync w fuel r pipeline opts newV4
                = Some (r', inl (length (heap r))) ∧
                waitListOf r' pipeline
                = <[pred (length (waitListOf r pipeline)) :=
                      length (heap r)]> (waitListOf r pipeline)
      | scheduleActionStart, inl id =>
          ScheduleAsync w fuel r pipeline opts newV4
          = r2 ← startJob w fuel (admitted w r pipeline opts id pipelineDef)
                   (length (heap r));
            Some (requestPersist r2, inl (length (heap r)))
      end
  end.
Proof.
  destruct (defs r !! pipeline) as [pipelineDef|] eqn:Hdef;
    [|by unfold ScheduleAsync; rewrite Hdef].
  assert (pipelineDefOf r pipeline = pipelineDef) as Hof
    by (by unfold pipelineDefOf; rewrite Hdef).
  pose proof (resolveScheduleAction_rule r pipeline) as Hrule.
  rewrite Hof in Hrule. cbv zeta. split; [done|].
  unfold ScheduleAsync. rewrite Hdef, Hrule.
  destruct (admissionRule _ _ _ _ _) eqn:Hact; destruct newV4 as [id|err];
    try done.
  - (* Queue *)
    eexists. split; [reflexivity|].
    unfold waitListOf at 1. simpl. by rewrite lookup_insert_eq.
  - (* Replace *)
    assert (waitListOf (admitted w r pipeline opts id pipelineDef) pipeline
            = waitListOf r pipeline) as Hwl by done.
    unfold admitted in Hwl. simpl in *. rewrite Hwl.
    destruct (last (waitListOf r pipeline)) as [previousJob|] eqn:Hlast.
    + eexists. split; [reflexivity|].
      unfold waitListOf at 1. simpl. by rewrite lookup_insert_eq.
    + apply last_None in Hlast.
      unfold admissionRule in Hact. rewrite Hlast in Hact. simpl in Hact.
      rewrite andb_false_r in Hact.
      repeat (case_match; try done).
Qed.

(** C10.  When [ScheduleAsync] returns an error, it returns the runner as
    it found it: the heap, [jobsByID], [jobsByPipeline] and
    [waitListByPipeline] are what they were, and no send on
    [persistRequests] was attempted. *)
Theorem ScheduleAsync_error_leaves_runner
    r pipeline opts newV4 fuel r' err :
  ScheduleAsync w fuel r pipeline opts newV4 = Some (r', inr err) →
  r' = r ∧
  heap r' = heap r ∧
  jobsByID r' = jobsByID r ∧
  jobsByPipeline r' = jobsByPipeline r ∧
  waitListByPipeline r' = waitListByPipeline r ∧
  persistRequests r' = persistRequests r ∧
  persistSends r' = persistSends r.
Proof.
  intros H. assert (r' = r) as ->; [|done].
  unfold ScheduleAsync in H.
  destruct (defs r !! pipeline); [|by simplify_eq].
  destruct (resolveScheduleAction r pipeline); destruct newV4;
    simpl in H; try by simplify_eq.
  - destruct (startJob _ _ _ _); simplify_eq/=.
  - destruct (last _); simplify_eq/=.
Qed.
End admission.

(** *** Counting running jobs *)

Section counting.
Implicit Types (h : list pipelineJob.t) (l : list ptr) (job : ptr).

Lemma runningJobsCount_runningIn r pipeline :
  runningJobsCount r pipeline
  = Z.of_nat (runningIn (heap r) (jobsOf r pipeline)).
Proof. done. Qed.

Lemma runningIn_nil h : runningIn h [] = 0%nat.
Proof. done. Qed.

Lemma runningIn_cons h job l :
  runningIn h (job :: l)
  = ((if runningAt h job then 1 else 0) + runningIn h l)%nat.
Proof.
  unfold runningIn. rewrite filter_cons.
  destruct (runningAt h job); by case_decide.
Qed.

Lemma runningIn_app h l1 l2 :
  runningIn h (l1 ++ l2) = (runningIn h l1 + runningIn h l2)%nat.
Proof. unfold runningIn. by rewrite filter_app, length_app. Qed.

Lemma runningAt_alter_ne f h job job' :
  job ≠ job' → runningAt (alter f job h) job' = runningAt h job'.
Proof. intros. unfold runningAt. by rewrite list_lookup_alter_ne. Qed.

Lemma runningIn_alter_notin f h job l :
  job ∉ l → runningIn (alter f job h) l = runningIn h l.
Proof.
  induction l as [|job' l IH]; [done|]. intros Hnotin.
  apply not_elem_of_cons in Hnotin as [? ?].
  rewrite !runningIn_cons, IH, runningAt_alter_ne; done.
Qed.

Lemma runningIn_alter_le_S f h job l :
  NoDup l → (runningIn (alter f job h) l ≤ S (runningIn h l))%nat.
Proof.
  induction l as [|job' l IH]; intros Hnd; [rewrite !runningIn_nil; lia|].
  apply NoDup_cons in Hnd as [Hnotin Hnd].
  rewrite !runningIn_cons.
  destruct (decide (job = job')) as [->|Hne].
  - rewrite runningIn_alter_notin by done.
    destruct (runningAt _ job'), (runningAt h job'); lia.
  - rewrite runningAt_alter_ne by done. specialize (IH Hnd).
    destruct (runningAt h job'); lia.
Qed.

Lemma runningIn_alter_stop f h job l :
  (∀ j, pipelineJob.isRunning (f j) = true → pipelineJob.isRunning j = true) →
  (runningIn (alter f job h) l ≤ runningIn h l)%nat.
Proof.
  intros Hf. induction l as [|job' l IH]; [done|].
  rewrite !runningIn_cons.
  assert (runningAt (alter f job h) job' = true → runningAt h job' = true)
    as Himp.
  { destruct (decide (job = job')) as [->|Hne];
      [|by rewrite runningAt_alter_ne].
    unfold runningAt. rewrite list_lookup_alter_eq.
    destruct (h !! job') as [j|]; simpl; [apply Hf|done]. }
  destruct (runningAt (alter f job h) job'), (runningAt h job');
    try lia.
Qed.

Lemma runningIn_grow h j l :
  (∀ job, job ∈ l → is_Some (h !! job)) →
  runningIn (h ++ [j]) l = runningIn h l.
Proof.
  induction l as [|job l IH]; [done|]. intros Hin.
  rewrite !runningIn_cons, IH by (intros; apply Hin; by right).
  destruct (Hin job) as [j' Hj']; [by left|].
  unfold runningAt. by rewrite (lookup_app_l_Some _ _ _ _ Hj'), Hj'.
Qed.

Lemma runningAt_new h j :
  pipelineJob.Start j = None → runningAt (h ++ [j]) (length h) = false.
Proof.
  intros Hs. unfold runningAt.
  rewrite lookup_app_r, Nat.sub_diag by lia. simpl.
  unfold pipelineJob.isRunning. rewrite Hs. done.
Qed.
End counting.

(** *** The concurrency bound *)

Section concurrency.
Context (w : World).
Implicit Types (r : pipelineRunner.t) (pipeline : string) (job : ptr).

Lemma extends_refl r : extends r r.
Proof. by split. Qed.

Lemma extends_trans r1 r2 r3 : extends r1 r2 → extends r2 r3 → extends r1 r3.
Proof. intros [E1 H1] [E2 H2]. split; [congruence|eauto]. Qed.

Lemma pipelineAt_alter f (h : list pipelineJob.t) job job' :
  (∀ j, pipelineJob.Pipeline (f j) = pipelineJob.Pipeline j) →
  pipelineAt (alter f job h) job' = pipelineAt h job'.
Proof.
  intros Hf. unfold pipelineAt.
  destruct (decide (job = job')) as [->|Hne];
    [|by rewrite list_lookup_alter_ne].
  rewrite list_lookup_alter_eq. destruct (h !! job'); simpl; [|done].
  by rewrite Hf.
Qed.

Lemma pipelineAt_grow (h : list pipelineJob.t) j job pipeline :
  pipelineAt h job = Some pipeline →
  pipelineAt (h ++ [j]) job = Some pipeline.
Proof.
  unfold pipelineAt. destruct (h !! job) as [j'|] eqn:E; [|done].
  by rewrite (lookup_app_l_Some _ _ _ _ E).
Qed.

Lemma pipelineAt_new (h : list pipelineJob.t) j :
  pipelineAt (h ++ [j]) (length h) = Some (pipelineJob.Pipeline j).
Proof.
  unfold pipelineAt. by rewrite lookup_app_r, Nat.sub_diag by lia.
Qed.

Lemma pipelineAt_is_Some (h : list pipelineJob.t) job pipeline :
  pipelineAt h job = Some pipeline → is_Some (h !! job).
Proof. unfold pipelineAt. destruct (h !! job); [eauto|done]. Qed.

Lemma extends_updateJob f job r :
  (∀ j, pipelineJob.Pipeline (f j) = pipelineJob.Pipeline j) →
  extends r (updateJob f job r).
Proof.
  intros Hf. split; [done|]. intros job' p. simpl.
  by rewrite pipelineAt_alter.
Qed.

Lemma bookkeeping_updateJob f job r :
  (∀ j, pipelineJob.Pipeline (f j) = pipelineJob.Pipeline j) →
  bookkeeping r → bookkeeping (updateJob f job r).
Proof.
  intros Hf [H1 H2 H3].
  split; [done|intros p job' Hin|intros p job' Hin]; simpl;
    rewrite pipelineAt_alter by done; eauto.
Qed.

Lemma concurrencyBound_updateJob_stop f job r :
  (∀ j, pipelineJob.isRunning (f j) = true → pipelineJob.isRunning j = true) →
  concurrencyBound r → concurrencyBound (updateJob f job r).
Proof.
  intros Hf Hb p. specialize (Hb p).
  rewrite runningJobsCount_runningIn in *. simpl.
  pose proof (runningIn_alter_stop f (heap r) job (jobsOf r p) Hf).
  change (pipelineDefOf (updateJob f job r) p) with (pipelineDefOf r p).
  change (jobsOf (updateJob f job r) p) with (jobsOf r p). lia.
Qed.

Lemma concurrencyBound_updateJob_start f job r pipeline :
  (∀ j, pipelineJob.Pipeline (f j) = pipelineJob.Pipeline j) →
  bookkeeping r →
  pipelineAt (heap r) job = Some pipeline →
  runningJobsCount r pipeline
    < definition.Concurrency (pipelineDefOf r pipeline) →
  concurrencyBound r → concurrencyBound (updateJob f job r).
Proof.
  intros Hf Hbk Hjob Hlt Hb p. specialize (Hb p).
  rewrite runningJobsCount_runningIn in *.
  change (pipelineDefOf (updateJob f job r) p) with (pipelineDefOf r p).
  change (jobsOf (updateJob f job r) p) with (jobsOf r p). simpl.
  destruct (decide (p = pipeline)) as [->|Hne].
  - pose proof (runningIn_alter_le_S f (heap r) job (jobsOf r pipeline)
                  (bk_jobs_nodup r Hbk pipeline)). lia.
  - rewrite runningIn_alter_notin; [done|].
    intros Hin. apply (bk_jobs_pipeline r Hbk) in Hin. congruence.
Qed.

(** The pure parts of the operations. *)
Lemma boundedRunner_requestPersist r :
  boundedRunner r → boundedRunner (requestPersist r).
Proof. intros [[H1 H2 H3] Hb]. by split; [split|]. Qed.

Lemma boundedRunner_launchJob r job pipeline :
  boundedRunner r →
  pipelineAt (heap r) job = Some pipeline →
  runningJobsCount r pipeline
    < definition.Concurrency (pipelineDefOf r pipeline) →
  boundedRunner (launchJob w job r).
Proof.
  intros [Hbk Hb] Hjob Hlt.
  assert (boundedRunner
            (updateJob (pipelineJob.withStart (Some (timeNow w (clock r))))
               job r)) as [[H1 H2 H3] Hb'].
  { split; [by apply bookkeeping_updateJob|].
    by eapply concurrencyBound_updateJob_start. }
  by split; [split|].
Qed.

Lemma extends_launchJob r job : extends r (launchJob w job r).
Proof.
  split; [done|]. intros job' p. simpl. by rewrite pipelineAt_alter.
Qed.

Lemma boundedRunner_failJob err r job :
  boundedRunner r → boundedRunner (failJob err job r).
Proof.
  intros [Hbk Hb]. split.
  - by apply bookkeeping_updateJob.
  - apply concurrencyBound_updateJob_stop; [|done].
    intros j. unfold pipelineJob.isRunning. simpl.
    by rewrite andb_false_r.
Qed.

Lemma boundedRunner_setWaitList r pipeline waitList :
  boundedRunner r →
  (∀ job, job ∈ waitList → pipelineAt (heap r) job = Some pipeline) →
  boundedRunner
    (withWaitListByPipeline
       (<[pipeline := waitList]> (waitListByPipeline r)) r).
Proof.
  intros [[H1 H2 H3] Hb] Hwl. split; [split|]; try done.
  intros p job. unfold waitListOf. simpl.
  destruct (decide (pipeline = p)) as [->|Hne].
  - rewrite lookup_insert_eq. simpl. apply Hwl.
  - rewrite lookup_insert_ne by done. apply H3.
Qed.

(** [startJob] and the loop of [startJobsOnWaitList] keep the invariant,
    by induction on the depth of calls. *)
Lemma startJob_waitListLoop_bounded fuel :
  (∀ r job r' pipeline,
      boundedRunner r →
      pipelineAt (heap r) job = Some pipeline →
      runningJobsCount r pipeline
        < definition.Concurrency (pipelineDefOf r pipeline) →
      startJob w fuel r job = Some r' →
      boundedRunner r' ∧ extends r r') ∧
  (∀ r pipeline waitList r',
      boundedRunner r →
      (∀ job, job ∈ waitList → pipelineAt (heap r) job = Some pipeline) →
      waitListLoop w fuel r pipeline waitList = Some r' →
      boundedRunner r' ∧ extends r r').
Proof.
  induction fuel as [|fuel [IHstart IHloop]]; [by split|].
  split.
  - intros r job r' pipeline Hwf Hjob Hlt Hrun. simpl in Hrun.
    destruct (heap r !! job) as [j|] eqn:Hj; [|done].
    assert (pipelineJob.Pipeline j = pipeline) as Hp
      by (unfold pipelineAt in Hjob; rewrite Hj in Hjob; by simplify_eq/=).
    destruct (buildPipelineGraph w _ _) as [graph|err].
    + simplify_eq. split.
      * apply boundedRunner_requestPersist.
        by eapply boundedRunner_launchJob.
      * apply (extends_launchJob r job).
    + destruct (waitListLoop _ _ _ _ _) as [r2|] eqn:Hloop; [|done].
      simplify_eq/=.
      pose proof (boundedRunner_failJob err r job Hwf) as Hwf1.
      apply IHloop in Hloop as [Hwf2 Hext]; [| done |].
      * split; [by apply boundedRunner_requestPersist|].
        eapply extends_trans; [|apply Hext].
        by apply extends_updateJob.
      * intros job' Hin. by apply (bk_wait_pipeline _ (proj1 Hwf1)).
  - intros r pipeline waitList r' Hwf Hwl Hrun. simpl in Hrun.
    destruct waitList as [|queuedJob waitList'].
    { simplify_eq. split; [by apply boundedRunner_setWaitList|].
      by split. }
    case_decide as Hact.
    + destruct (startJob _ _ _ _) as [r1|] eqn:Hstart; [|done].
      simpl in Hrun.
      apply resolveScheduleAction_start in Hact.
      eapply IHstart in Hstart as [Hwf1 Hext1];
        [| done | by apply Hwl; left | done].
      apply IHloop in Hrun as [Hwf2 Hext2]; [| done |].
      * split; [done|]. by eapply extends_trans.
      * intros job Hin. apply Hext1, Hwl. by right.
    + simplify_eq. split; [by apply boundedRunner_setWaitList|].
      by split.
Qed.
End concurrency.

Section concurrency_operations.
Context (w : World).
Implicit Types (r : pipelineRunner.t) (pipeline : string) (job : ptr).

Lemma bookkeeping_valid r pipeline job :
  bookkeeping r → job ∈ jobsOf r pipeline → (job < length (heap r))%nat.
Proof.
  intros Hbk Hin. apply (bk_jobs_pipeline r Hbk) in Hin.
  apply pipelineAt_is_Some in Hin. by apply lookup_lt_is_Some.
Qed.

Lemma jobsOf_registerJob j r pipeline :
  jobsOf (registerJob j r).2 pipeline =
  if decide (pipelineJob.Pipeline j = pipeline)
  then jobsOf r pipeline ++ [length (heap r)]
  else jobsOf r pipeline.
Proof.
  unfold jobsOf at 1. simpl. case_decide as Hp.
  - subst. by rewrite lookup_insert_eq.
  - by rewrite lookup_insert_ne.
Qed.

Lemma runningJobsCount_registerJob j r pipeline :
  bookkeeping r → pipelineJob.Start j = None →
  runningJobsCount (registerJob j r).2 pipeline = runningJobsCount r pipeline.
Proof.
  intros Hbk Hs. rewrite !runningJobsCount_runningIn, jobsOf_registerJob.
  simpl. f_equal.
  assert (∀ job, job ∈ jobsOf r pipeline → is_Some (heap r !! job)) as Hv.
  { intros job Hin. apply lookup_lt_is_Some. by eapply bookkeeping_valid. }
  case_decide; [|by apply runningIn_grow].
  rewrite runningIn_app, runningIn_grow, runningIn_cons, runningIn_nil
    by done.
  rewrite runningAt_new by done. lia.
Qed.

Lemma boundedRunner_registerJob j r :
  boundedRunner r → pipelineJob.Start j = None →
  boundedRunner (registerJob j r).2.
Proof.
  intros [Hbk Hb] Hs. split.
  - split.
    + intros p. rewrite jobsOf_registerJob. case_decide.
      * apply NoDup_app. split_and!.
        -- apply Hbk.
        -- intros job Hin Hnew. apply list_elem_of_singleton in Hnew.
           apply (bookkeeping_valid r p job Hbk) in Hin. lia.
        -- apply NoDup_singleton.
      * apply Hbk.
    + intros p job. rewrite jobsOf_registerJob. simpl. case_decide.
      * intros [Hin|Hin]%elem_of_app.
        -- apply pipelineAt_grow. by apply (bk_jobs_pipeline r Hbk).
        -- apply list_elem_of_singleton in Hin as ->. subst.
           apply pipelineAt_new.
      * intros Hin. apply pipelineAt_grow.
        by apply (bk_jobs_pipeline r Hbk).
    + intros p job Hin. simpl. apply pipelineAt_grow.
      by apply (bk_wait_pipeline r Hbk).
  - intros p. rewrite runningJobsCount_registerJob by done. apply Hb.
Qed.

Lemma extends_registerJob j r : extends r (registerJob j r).2.
Proof. split; [done|]. intros job p. simpl. apply pipelineAt_grow. Qed.

Lemma boundedRunner_readClock r :
  boundedRunner r → boundedRunner (readClock w r).2.
Proof. intros [[H1 H2 H3] Hb]. by split; [split|]. Qed.

Lemma boundedRunner_new defs :
  concurrencyDeclared defs → boundedRunner (newPipelineRunner defs).
Proof.
  intros Hdefs. split.
  - split; intros p; unfold jobsOf, waitListOf; simpl;
      rewrite ?lookup_empty; simpl; [apply NoDup_nil_2| |];
      intros job Hin; by apply elem_of_nil in Hin.
  - intros p. unfold runningJobsCount, jobsOf, pipelineDefOf. simpl.
    rewrite lookup_empty. simpl.
    destruct (defs !! p) as [pipelineDef|] eqn:E; simpl; [|done].
    by eapply Hdefs.
Qed.

Lemma startJobsOnWaitList_bounded fuel r pipeline r' :
  boundedRunner r →
  startJobsOnWaitList w fuel r pipeline = Some r' →
  boundedRunner r' ∧ extends r r'.
Proof.
  intros Hwf Hrun.
  eapply (proj2 (startJob_waitListLoop_bounded w fuel)); [done| |done].
  intros job Hin. by apply (bk_wait_pipeline r (proj1 Hwf)).
Qed.

Lemma jobCompleted_bounded fuel r id err r' :
  boundedRunner r →
  jobCompleted w fuel r id err = Some r' →
  boundedRunner r' ∧ extends r r'.
Proof.
  intros Hwf Hrun. unfold jobCompleted in Hrun.
  destruct (jobsByID r !! id) as [job|];
    [|simplify_eq; by split; [|apply extends_refl]].
  destruct (heap r !! job) as [j|]; [|done]. simpl in Hrun.
  destruct (startJobsOnWaitList _ _ _ _) as [r3|] eqn:Hdrain; [|done].
  simplify_eq/=.
  apply startJobsOnWaitList_bounded in Hdrain as [Hwf3 Hext].
  - split; [by apply boundedRunner_requestPersist|].
    eapply extends_trans; [|done].
    eapply extends_trans; [|by apply extends_updateJob].
    by split.
  - apply boundedRunner_readClock in Hwf as [Hbk Hb]. split.
    + by apply bookkeeping_updateJob.
    + apply concurrencyBound_updateJob_stop; [|done].
      intros j'. unfold pipelineJob.isRunning. simpl.
      by rewrite andb_false_r.
Qed.

Lemma ScheduleAsync_bounded fuel r pipeline opts newV4 r' res :
  boundedRunner r →
  ScheduleAsync w fuel r pipeline opts newV4 = Some (r', res) →
  boundedRunner r' ∧ extends r r'.
Proof.
  intros Hwf Hrun. unfold ScheduleAsync in Hrun.
  destruct (defs r !! pipeline) as [pipelineDef|] eqn:Hdef;
    [|simplify_eq; by split; [|apply extends_refl]].
  destruct newV4 as [id|err];
    [|destruct (resolveScheduleAction r pipeline); simplify_eq/=;
      by split; [|apply extends_refl]].
  set (j := newJob w id pipeline (timeNow w (clock r)) opts pipelineDef)
    in *.
  assert (boundedRunner (registerJob j (readClock w r).2).2) as Hwf1.
  { apply boundedRunner_registerJob; [|done].
    by apply boundedRunner_readClock. }
  assert (extends r (registerJob j (readClock w r).2).2) as Hext1.
  { eapply extends_trans; [|apply extends_registerJob]. by split. }
  assert (pipelineAt (heap (registerJob j (readClock w r).2).2)
            (length (heap r)) = Some pipeline) as Hnew.
  { simpl. apply (pipelineAt_new (heap r) j). }
  destruct (resolveScheduleAction r pipeline) eqn:Hact; simpl in Hrun;
    try (simplify_eq; by split; [|apply extends_refl]).
  - (* Start *)
    assert (runningJobsCount (registerJob j (readClock w r).2).2 pipeline
            < definition.Concurrency
                (pipelineDefOf (registerJob j (readClock w r).2).2
                   pipeline)) as Hcount.
    { rewrite runningJobsCount_registerJob;
        [|apply (boundedRunner_readClock r Hwf)|done].
      by apply resolveScheduleAction_start in Hact. }
    destruct (startJob _ _ _ _) as [r2|] eqn:Hstart; [|done].
    simplify_eq/=.
    eapply (proj1 (startJob_waitListLoop_bounded w fuel))
      in Hstart as [Hwf2 Hext2]; [| done | done | exact Hcount].
    split; [by apply boundedRunner_requestPersist|].
    eapply extends_trans; [apply Hext1|]. apply Hext2.
  - (* Queue *)
    simplify_eq. split; [|exact Hext1].
    apply boundedRunner_requestPersist.
    apply (boundedRunner_setWaitList (registerJob j (readClock w r).2).2
             pipeline _ Hwf1).
    intros job [Hin|Hin]%elem_of_app.
    + by apply (bk_wait_pipeline _ (proj1 Hwf1)).
    + by apply list_elem_of_singleton in Hin as ->.
  - (* Replace *)
    destruct (last _) as [previousJob|]; [|done]. simplify_eq.
    split;
      [|eapply extends_trans; [exact Hext1|];
        exact (extends_updateJob (pipelineJob.withCanceled true)
                 previousJob _ (λ _, eq_refl))].
    apply boundedRunner_requestPersist.
    set (r1 := (registerJob j (readClock w r).2).2) in *.
    assert (boundedRunner
              (updateJob (pipelineJob.withCanceled true) previousJob r1))
      as Hwf2.
    { destruct Hwf1 as [Hbk Hb]. split.
      - by apply bookkeeping_updateJob.
      - apply concurrencyBound_updateJob_stop; [|done].
        intros j'. unfold pipelineJob.isRunning. simpl.
        by rewrite andb_false_r. }
    apply (boundedRunner_setWaitList _ pipeline _ Hwf2).
    intros job Hin. simpl. rewrite pipelineAt_alter by done.
    apply elem_of_insert_inv in Hin as [->|Hin]; [done|].
    by apply (bk_wait_pipeline _ (proj1 Hwf1)).
Qed.

Lemma opStep_bounded r r' :
  boundedRunner r → opStep w r r' → boundedRunner r' ∧ extends r r'.
Proof.
  intros Hwf Hstep. inversion Hstep; subst.
  - eapply ScheduleAsync_bounded; eauto.
  - eapply jobCompleted_bounded; eauto.
  - eapply startJobsOnWaitList_bounded; eauto.
Qed.

Lemma opReachable_bounded defs r :
  concurrencyDeclared defs → opReachable w defs r →
  boundedRunner r ∧ pipelineRunner.defs r = defs.
Proof.
  intros Hdefs Hreach. induction Hreach as [|r r' _ [IH Hd] Hstep].
  - split; [by apply boundedRunner_new|done].
  - apply opStep_bounded in Hstep as [Hwf [Hext _]]; [|done].
    split; [done|congruence].
Qed.

(** C2.  In every state the runner reaches from its initial state by
    calls of [ScheduleAsync], [jobCompleted] and [startJobsOnWaitList]
    (with [startJob] called from within them, as the code calls it), the
    number of running jobs of every pipeline is at most the concurrency
    of that pipeline.  Nothing is assumed of the ids, the errors, the
    clock or the graph constructor; the definitions are assumed to
    declare no negative concurrency. *)
Theorem concurrency_bound_holds defs r pipeline :
  concurrencyDeclared defs →
  opReachable w defs r →
  runningJobsCount r pipeline
  ≤ definition.Concurrency (default definition.zeroPipelineDef
                              (defs !! pipeline)).
Proof.
  intros Hdefs Hreach.
  destruct (opReachable_bounded defs r Hdefs Hreach) as [[_ Hb] <-].
  apply Hb.
Qed.
End concurrency_operations.

(** *** Runs in which every graph can be built *)

Section runs.
Context (w : World) (Hgraphs : graphsBuild w).
Implicit Types (r : pipelineRunner.t) (pipeline : string) (job : ptr).

Lemma startJob_graphsBuild fuel r job r' :
  startJob w fuel r job = Some r' →
  r' = requestPersist (launchJob w job r) ∧ is_Some (heap r !! job).
Proof.
  destruct fuel as [|fuel]; [done|]. simpl.
  destruct (heap r !! job) as [j|]; [|done].
  unfold buildPipelineGraph. rewrite Hgraphs.
  intros. simplify_eq. eauto.
Qed.

Lemma startJob_returns fuel r job :
  is_Some (heap r !! job) →
  startJob w (S fuel) r job = Some (requestPersist (launchJob w job r)).
Proof.
  intros [j Hj]. simpl. rewrite Hj.
  unfold buildPipelineGraph. by rewrite Hgraphs.
Qed.

(** What the operations read of a runner. *)
Lemma sameView_refl r : sameView r r.
Proof. by repeat split. Qed.

Lemma waitListOf_setWaitList p waitList r pipeline :
  waitListOf (setWaitList p waitList r) pipeline
  = if decide (p = pipeline) then waitList else waitListOf r pipeline.
Proof.
  unfold waitListOf, setWaitList. simpl. case_decide as Hp.
  - subst. by rewrite lookup_insert_eq.
  - by rewrite lookup_insert_ne.
Qed.

Lemma sameView_setWaitList r pipeline :
  sameView r (setWaitList pipeline (waitListOf r pipeline) r).
Proof.
  repeat split; try done. intros p. rewrite waitListOf_setWaitList.
  by case_decide; subst.
Qed.

Lemma setWaitList_twice p l1 l2 r :
  setWaitList p l2 (setWaitList p l1 r) = setWaitList p l2 r.
Proof. unfold setWaitList. simpl. by rewrite insert_insert_eq. Qed.

Lemma runningJobsCount_view r1 r2 pipeline :
  sameView r1 r2 →
  runningJobsCount r2 pipeline = runningJobsCount r1 pipeline.
Proof.
  intros (_ & Hh & _ & _ & Hj & _).
  by rewrite !runningJobsCount_runningIn, Hh, Hj.
Qed.

Lemma pipelineDefOf_view r1 r2 pipeline :
  sameView r1 r2 → pipelineDefOf r2 pipeline = pipelineDefOf r1 pipeline.
Proof. intros (Hd & _). unfold pipelineDefOf. by rewrite Hd. Qed.

Lemma resolveScheduleAction_view r1 r2 pipeline :
  sameView r1 r2 →
  resolveScheduleAction r2 pipeline = resolveScheduleAction r1 pipeline.
Proof.
  intros Hv. rewrite !resolveScheduleAction_rule.
  rewrite (runningJobsCount_view r1 r2), (pipelineDefOf_view r1 r2) by done.
  destruct Hv as (_ & _ & _ & _ & _ & Hw). by rewrite Hw.
Qed.

Lemma boundedRunner_view r1 r2 :
  sameView r1 r2 → boundedRunner r1 → boundedRunner r2.
Proof.
  intros Hv [[H1 H2 H3] Hb].
  pose proof Hv as (Hd & Hh & Hi & Hs & Hj & Hw).
  split; [split|].
  - intros p. rewrite Hj. apply H1.
  - intros p job. rewrite Hj, Hh. apply H2.
  - intros p job. rewrite Hw, Hh. apply H3.
  - intros p. rewrite (runningJobsCount_view r1 r2),
      (pipelineDefOf_view r1 r2) by done. apply Hb.
Qed.

Lemma startedOf_view r1 r2 pipeline :
  sameView r1 r2 → startedOf r2 pipeline = startedOf r1 pipeline.
Proof.
  intros (_ & Hh & _ & Hs & _). unfold startedOf. by rewrite Hh, Hs.
Qed.

Lemma runInvariant_view r1 r2 :
  sameView r1 r2 → runInvariant r1 → runInvariant r2.
Proof.
  intros Hv [Hbd Hwait Hnd Hid Hsp Hrep Hfifo].
  pose proof Hv as (Hd & Hh & Hi & Hs & Hj & Hw).
  split.
  - by eapply boundedRunner_view.
  - intros p job. rewrite Hw, Hh, Hs, Hj. apply Hwait.
  - intros p. rewrite Hw. apply Hnd.
  - intros job j. rewrite Hh, Hi. apply Hid.
  - intros job. rewrite Hs, Hh. apply Hsp.
  - intros p. rewrite (pipelineDefOf_view r1 r2), Hw by done. apply Hrep.
  - intros p. rewrite (pipelineDefOf_view r1 r2), Hw, Hj,
      (startedOf_view r1 r2) by done. apply Hfifo.
Qed.
End runs.

Section drain.
Context (w : World) (Hgraphs : graphsBuild w).
Implicit Types (r : pipelineRunner.t) (pipeline : string) (job : ptr).

Lemma launchAll_cons job jobs r :
  launchAll w (job :: jobs) r
  = launchAll w jobs (requestPersist (launchJob w job r)).
Proof. done. Qed.

Lemma launchAll_snoc jobs job r :
  launchAll w (jobs ++ [job]) r
  = requestPersist (launchJob w job (launchAll w jobs r)).
Proof. unfold launchAll. by rewrite foldl_app. Qed.

Lemma launchAll_setWaitList jobs pipeline waitList r :
  launchAll w jobs (setWaitList pipeline waitList r)
  = setWaitList pipeline waitList (launchAll w jobs r).
Proof.
  revert r. induction jobs as [|job jobs IH]; intros r; [done|].
  rewrite !launchAll_cons, <-IH. done.
Qed.

Lemma launchAll_spawned jobs r :
  spawned (launchAll w jobs r) = spawned r ++ jobs.
Proof.
  revert r. induction jobs as [|job jobs IH]; intros r;
    [by rewrite app_nil_r|].
  rewrite launchAll_cons, IH. simpl. by rewrite <-app_assoc.
Qed.

Lemma launchAll_waitListByPipeline jobs r :
  waitListByPipeline (launchAll w jobs r) = waitListByPipeline r.
Proof.
  revert r. induction jobs as [|job jobs IH]; intros r; [done|].
  by rewrite launchAll_cons, IH.
Qed.

Lemma launchAll_jobsByPipeline jobs r :
  jobsByPipeline (launchAll w jobs r) = jobsByPipeline r.
Proof.
  revert r. induction jobs as [|job jobs IH]; intros r; [done|].
  by rewrite launchAll_cons, IH.
Qed.

Lemma resolveScheduleAction_start_setWaitList p waitList r pipeline :
  resolveScheduleAction (setWaitList p waitList r) pipeline
    = scheduleActionStart ↔
  resolveScheduleAction r pipeline = scheduleActionStart.
Proof. by rewrite !resolveScheduleAction_start. Qed.

(** The loop of [startJobsOnWaitList] starts a prefix of the list, each
    job while the rule says [Start], and writes the rest back. *)
Lemma waitListLoop_drains fuel r pipeline waitList r' :
  waitListLoop w fuel r pipeline waitList = Some r' →
  ∃ started,
    waitList = started ++ waitListOf r' pipeline ∧
    r' = setWaitList pipeline (waitListOf r' pipeline)
           (launchAll w started r) ∧
    (∀ s1 job s2, started = s1 ++ job :: s2 →
       resolveScheduleAction (launchAll w s1 r) pipeline
         = scheduleActionStart ∧
       is_Some (heap (launchAll w s1 r) !! job)) ∧
    (waitListOf r' pipeline = [] ∨
     resolveScheduleAction r' pipeline ≠ scheduleActionStart).
Proof.
  revert r waitList.
  induction fuel as [|fuel IH]; intros r waitList Hrun; [done|].
  simpl in Hrun.
  assert (∀ l, waitListOf (setWaitList pipeline l r) pipeline = l) as Hwl.
  { intros l. rewrite waitListOf_setWaitList. by rewrite decide_True. }
  destruct waitList as [|queuedJob waitList'].
  { simplify_eq. exists []. fold (setWaitList pipeline [] r).
    rewrite Hwl. split_and!; [done|done| |by left].
    intros [|??] ???; done. }
  case_decide as Hact.
  - destruct (startJob w fuel r queuedJob) as [r1|] eqn:Hstart; [|done].
    simpl in Hrun.
    apply startJob_graphsBuild in Hstart as [-> Hvalid]; [|done].
    apply IH in Hrun as (started & Hsplit & Hr' & Hpre & Hend).
    exists (queuedJob :: started). split_and!.
    + simpl. by f_equal.
    + by rewrite launchAll_cons.
    + intros [|job0 s1] job s2 Heq; simpl in Heq; simplify_eq.
      * split; [exact Hact|exact Hvalid].
      * rewrite launchAll_cons. by eapply Hpre.
    + done.
  - simplify_eq. exists [].
    fold (setWaitList pipeline (queuedJob :: waitList') r).
    rewrite Hwl. split_and!; [done|done| |right].
    + intros [|??] ???; done.
    + by rewrite resolveScheduleAction_start_setWaitList.
Qed.

(** The loop returns when it is given calls enough for the jobs of the
    list. *)
Lemma waitListLoop_returns r pipeline waitList :
  (∀ job, job ∈ waitList → is_Some (heap r !! job)) →
  ∀ fuel, (length waitList < fuel)%nat →
  is_Some (waitListLoop w fuel r pipeline waitList).
Proof.
  revert r. induction waitList as [|job waitList IH];
    intros r Hvalid fuel Hfuel;
    (destruct fuel as [|fuel]; [simpl in Hfuel; lia|]); [done|].
  destruct fuel as [|fuel]; [simpl in Hfuel; lia|].
  change (is_Some
    (if decide (resolveScheduleAction r pipeline = scheduleActionStart)
     then r1 ← startJob w (S fuel) r job;
          waitListLoop w (S fuel) r1 pipeline waitList
     else Some (setWaitList pipeline (job :: waitList) r))).
  case_decide; [|done].
  rewrite startJob_returns by (try done; apply Hvalid; by left).
  change (is_Some (waitListLoop w (S fuel)
                     (requestPersist (launchJob w job r)) pipeline
                     waitList)).
  apply IH; [|simpl in Hfuel; lia].
  intros job' Hin. destruct (Hvalid job') as [j Hj]; [by right|].
  simpl. apply lookup_lt_is_Some. rewrite length_alter.
  by eapply lookup_lt_Some.
Qed.
End drain.

Section run_invariant.
Context (w : World) (Hgraphs : graphsBuild w).
Implicit Types (r : pipelineRunner.t) (pipeline : string) (job : ptr).

Lemma startedOf_launchJob r job pipeline :
  startedOf (requestPersist (launchJob w job r)) pipeline
  = startedOf r pipeline ++
    filter (λ job', pipelineAt (heap r) job' = Some pipeline) [job].
Proof.
  unfold startedOf. simpl. rewrite filter_app.
  f_equal; apply list_filter_iff; intros job';
    by rewrite pipelineAt_alter.
Qed.

Lemma byid_alter f (h : list pipelineJob.t) (m : gmap UUID nat) job0 :
  (∀ j, pipelineJob.ID (f j) = pipelineJob.ID j) →
  (∀ job j, h !! job = Some j → m !! pipelineJob.ID j = Some job) →
  ∀ job j, alter f job0 h !! job = Some j →
           m !! pipelineJob.ID j = Some job.
Proof.
  intros Hf Hid job j. destruct (decide (job0 = job)) as [->|Hne].
  - rewrite list_lookup_alter_eq.
    destruct (h !! job) as [j0|] eqn:Hj0; [|done]. simpl.
    intros. simplify_eq. rewrite Hf. by apply Hid.
  - rewrite list_lookup_alter_ne by done. apply Hid.
Qed.

Lemma is_Some_alter f (h : list pipelineJob.t) job0 job :
  is_Some (h !! job) → is_Some (alter f job0 h !! job).
Proof.
  intros Hs. apply lookup_lt_is_Some. rewrite length_alter.
  by apply lookup_lt_is_Some.
Qed.

(** One pass of the loop of [startJobsOnWaitList], seen with the list
    written back at once: the head of the wait list is taken off and
    started. *)
Lemma runInvariant_popStart r pipeline job rest :
  runInvariant r →
  waitListOf r pipeline = job :: rest →
  resolveScheduleAction r pipeline = scheduleActionStart →
  runInvariant (requestPersist (launchJob w job (setWaitList pipeline rest r))).
Proof.
  intros [Hbd Hwait Hnd Hid Hsp Hrep Hfifo] Hwl Hact.
  pose proof (proj1 Hbd) as Hbk.
  assert (pipelineAt (heap r) job = Some pipeline) as Hjob.
  { apply (bk_wait_pipeline r Hbk). rewrite Hwl. by left. }
  pose proof (Hnd pipeline) as Hnd_p. rewrite Hwl in Hnd_p.
  apply NoDup_cons in Hnd_p as [Hnotin Hnd_rest].
  assert (∀ q job', job' ∈ waitListOf (setWaitList pipeline rest r) q →
                    job' ≠ job ∧ job' ∈ waitListOf r q) as Hother.
  { intros q job'. rewrite waitListOf_setWaitList. case_decide as Hq.
    - subst q. intros Hin. split; [by intros ->|]. rewrite Hwl. by right.
    - intros Hin. split; [|done]. intros ->.
      apply (bk_wait_pipeline r Hbk) in Hin. congruence. }
  split.
  - apply boundedRunner_requestPersist.
    apply (boundedRunner_launchJob w _ job pipeline); [|done|].
    + apply boundedRunner_setWaitList; [done|].
      intros job' Hin. apply (bk_wait_pipeline r Hbk). rewrite Hwl.
      by right.
    + by apply resolveScheduleAction_start in Hact.
  - intros q job' Hin. apply Hother in Hin as [Hne Hin].
    destruct (Hwait q job' Hin) as (j & Hj & Hs & Hc & Hx & Hnsp & Hjobs).
    exists j. split_and!; try done.
    + simpl. by rewrite list_lookup_alter_ne.
    + simpl. intros [?|?%list_elem_of_singleton]%elem_of_app; done.
  - intros q.
    change (NoDup (waitListOf (setWaitList pipeline rest r) q)).
    rewrite waitListOf_setWaitList. case_decide; [done|apply Hnd].
  - simpl. by apply byid_alter.
  - intros job'. simpl.
    intros [Hin|Hin%list_elem_of_singleton]%elem_of_app;
      apply is_Some_alter.
    + by apply Hsp.
    + subst. by eapply pipelineAt_is_Some.
  - intros q Hstrategy.
    change (length (waitListOf (setWaitList pipeline rest r) q) ≤ 1)%nat.
    rewrite waitListOf_setWaitList. specialize (Hrep q Hstrategy).
    case_decide; [|done]. subst q. rewrite Hwl in Hrep. simpl in Hrep. lia.
  - intros q Hstrategy. rewrite startedOf_launchJob.
    change (jobsOf r q =
            (startedOf r q ++
             filter (λ job', pipelineAt (heap r) job' = Some q) [job]) ++
            waitListOf (setWaitList pipeline rest r) q).
    rewrite waitListOf_setWaitList, (Hfifo q Hstrategy).
    case_decide as Hq.
    + subst q. rewrite filter_cons_True, filter_nil, Hwl by done.
      by rewrite <-app_assoc.
    + rewrite filter_cons_False, filter_nil, app_nil_r; [done|].
      congruence.
Qed.

(** Starting a prefix of the wait list of a pipeline leaves the wait lists
    and the numbers of running jobs of the other pipelines alone. *)
Lemma runInvariant_launchAll started : ∀ r pipeline rest,
  runInvariant (setWaitList pipeline (started ++ rest) r) →
  (∀ s1 job s2, started = s1 ++ job :: s2 →
     resolveScheduleAction (launchAll w s1 r) pipeline
       = scheduleActionStart) →
  runInvariant (setWaitList pipeline rest (launchAll w started r)) ∧
  ∀ q, q ≠ pipeline →
       runningJobsCount (launchAll w started r) q = runningJobsCount r q.
Proof.
  induction started as [|job started IH]; intros r pipeline rest Hinv Hpre;
    [done|].
  assert (resolveScheduleAction r pipeline = scheduleActionStart) as Hact
    by apply (Hpre [] job started eq_refl).
  pose proof (runInvariant_popStart
                (setWaitList pipeline ((job :: started) ++ rest) r)
                pipeline job (started ++ rest) Hinv) as Hpop.
  rewrite setWaitList_twice in Hpop.
  assert (waitListOf (setWaitList pipeline ((job :: started) ++ rest) r)
            pipeline = job :: started ++ rest) as Hwl
    by (rewrite waitListOf_setWaitList; by rewrite decide_True).
  specialize (Hpop Hwl).
  rewrite resolveScheduleAction_start_setWaitList in Hpop.
  specialize (Hpop Hact).
  destruct (IH (requestPersist (launchJob w job r)) pipeline rest)
    as [Hinv' Hcount'].
  { exact Hpop. }
  { intros s1 job' s2 ->. apply (Hpre (job :: s1) job' s2 eq_refl). }
  rewrite launchAll_cons. split; [done|].
  intros q Hq. rewrite Hcount' by done.
  rewrite !runningJobsCount_runningIn. simpl. f_equal.
  apply runningIn_alter_notin. intros Hin.
  pose proof (proj1 (ri_bounded _ Hinv)) as Hbk.
  apply (bk_jobs_pipeline _ Hbk) in Hin.
  assert (pipelineAt (heap r) job = Some pipeline) as Hjob.
  { apply (bk_wait_pipeline _ Hbk pipeline). rewrite Hwl. by left. }
  simpl in Hin. congruence.
Qed.

(** [startJobsOnWaitList] keeps the invariant, leaves no job of its
    pipeline waiting that could start, and leaves the other pipelines
    alone. *)
Lemma startJobsOnWaitList_runInvariant fuel r pipeline r' :
  runInvariant r →
  startJobsOnWaitList w fuel r pipeline = Some r' →
  runInvariant r' ∧
  (waitListOf r' pipeline = [] ∨
   resolveScheduleAction r' pipeline ≠ scheduleActionStart) ∧
  (∀ q, q ≠ pipeline →
        waitListOf r' q = waitListOf r q ∧
        runningJobsCount r' q = runningJobsCount r q) ∧
  defs r' = defs r.
Proof.
  intros Hinv Hrun. unfold startJobsOnWaitList in Hrun.
  apply waitListLoop_drains in Hrun
    as (started & Hsplit & Hr' & Hpre & Hend); [|done].
  destruct (runInvariant_launchAll started r pipeline
              (waitListOf r' pipeline)) as [Hinv' Hcount].
  { rewrite <-Hsplit. eapply runInvariant_view; [|done].
    apply sameView_setWaitList. }
  { intros s1 job s2 Heq. by apply (Hpre s1 job s2). }
  rewrite <-Hr' in Hinv'. split_and!; [done|done| |].
  - intros q Hq. split.
    + rewrite Hr', waitListOf_setWaitList, decide_False by done.
      unfold waitListOf. by rewrite launchAll_waitListByPipeline.
    + rewrite <-Hcount by done. by rewrite Hr'.
  - rewrite Hr'. simpl. clear. revert r.
    induction started as [|job started IH]; intros r; [done|].
    by rewrite launchAll_cons, IH.
Qed.
End run_invariant.

Section run_operations.
Context (w : World) (Hgraphs : graphsBuild w).
Implicit Types (r : pipelineRunner.t) (pipeline : string) (job : ptr).

Lemma runningIn_alter_same f (h : list pipelineJob.t) job l :
  (∀ j, h !! job = Some j →
        pipelineJob.isRunning (f j) = pipelineJob.isRunning j) →
  runningIn (alter f job h) l = runningIn h l.
Proof.
  intros Hf. induction l as [|job' l IH]; [done|].
  rewrite !runningIn_cons, IH. f_equal.
  destruct (decide (job = job')) as [->|Hne];
    [|by rewrite runningAt_alter_ne].
  unfold runningAt. rewrite list_lookup_alter_eq.
  destruct (h !! job') as [j|] eqn:Hj; simpl; [|done].
  by rewrite Hf.
Qed.

Lemma startedOf_alter f job r pipeline :
  (∀ j, pipelineJob.Pipeline (f j) = pipelineJob.Pipeline j) →
  startedOf (updateJob f job r) pipeline = startedOf r pipeline.
Proof.
  intros Hf. unfold startedOf. simpl.
  apply list_filter_iff. intros job'. by rewrite pipelineAt_alter.
Qed.

Lemma drained_frame r r' :
  drained r →
  defs r' = defs r →
  (∀ q, (waitListOf r' q = [] ∨
         resolveScheduleAction r' q ≠ scheduleActionStart) ∨
        (waitListOf r' q = waitListOf r q ∧
         runningJobsCount r' q = runningJobsCount r q)) →
  drained r'.
Proof.
  intros Hdr Hdefs Hframe q Hne.
  destruct (Hframe q) as [[Hnil|Hact]|[Hwl Hcount]]; [done..|].
  rewrite resolveScheduleAction_start, Hcount.
  unfold pipelineDefOf. rewrite Hdefs.
  rewrite Hwl in Hne. specialize (Hdr q Hne).
  by rewrite resolveScheduleAction_start in Hdr.
Qed.

(** The writes of [jobCompleted] before it drains the wait list. *)
Lemma runInvariant_complete r job now err :
  runInvariant r → job ∈ spawned r →
  runInvariant
    (updateJob (λ j, pipelineJob.withLastError err
                       (pipelineJob.withEnd (Some now)
                          (pipelineJob.withCompleted true j)))
               job (readClock w r).2).
Proof.
  intros [Hbd Hwait Hnd Hid Hsp Hrep Hfifo] Hspawned.
  set (f := λ j, pipelineJob.withLastError err
                   (pipelineJob.withEnd (Some now)
                      (pipelineJob.withCompleted true j))).
  split.
  - apply (boundedRunner_readClock w) in Hbd as [Hbk Hb]. split.
    + by apply bookkeeping_updateJob.
    + apply concurrencyBound_updateJob_stop; [|done].
      intros j'. unfold pipelineJob.isRunning. simpl.
      by rewrite andb_false_r.
  - intros q job' Hin.
    destruct (Hwait q job' Hin) as (j & Hj & Hs & Hc & Hx & Hnsp & Hjobs).
    exists j. split_and!; try done.
    simpl. rewrite list_lookup_alter_ne; [done|]. by intros ->.
  - done.
  - simpl. by apply byid_alter.
  - intros job' Hin. simpl. apply is_Some_alter. by apply Hsp.
  - done.
  - intros q Hstrategy.
    rewrite (startedOf_alter f job (readClock w r).2) by done.
    by apply Hfifo.
Qed.

Lemma jobCompleted_runInvariant fuel r job j err r' :
  runInvariant r → drained r →
  job ∈ spawned r → heap r !! job = Some j →
  jobCompleted w fuel r (pipelineJob.ID j) err = Some r' →
  runInvariant r' ∧ drained r' ∧
  (∀ q, jobsOf r' q = jobsOf r q).
Proof.
  intros Hinv Hdr Hspawned Hj Hrun. unfold jobCompleted in Hrun.
  rewrite (ri_byid r Hinv job j Hj), Hj in Hrun. simpl in Hrun.
  destruct (startJobsOnWaitList _ _ _ _) as [r3|] eqn:Hdrain; [|done].
  simpl in Hrun. simplify_eq.
  pose proof (runInvariant_complete r job (timeNow w (clock r)) err Hinv
                Hspawned) as Hinv2.
  pose proof Hdrain as Hloop. unfold startJobsOnWaitList in Hloop.
  apply waitListLoop_drains in Hloop as (started & _ & Hr3 & _);
    [|done].
  apply startJobsOnWaitList_runInvariant in Hdrain
    as (Hinv3 & Hend & Hframe & Hdefs); [|done|done].
  split_and!.
  - destruct Hinv3 as [[[H1 H2 H3] Hb] Hwait Hnd Hid Hsp Hrep Hfifo].
    by split; [split; [split|]|..].
  - apply (drained_frame r); [done|exact Hdefs|].
    intros q. destruct (decide (q = pipelineJob.Pipeline j)) as [->|Hq].
    + left. exact Hend.
    + right. destruct (Hframe q Hq) as [Hwl Hcount]. split; [exact Hwl|].
      change (runningJobsCount r3 q = runningJobsCount r q).
      rewrite Hcount, !runningJobsCount_runningIn. simpl. f_equal.
      apply runningIn_alter_notin. intros Hin.
      apply (bk_jobs_pipeline r (proj1 (ri_bounded r Hinv))) in Hin.
      unfold pipelineAt in Hin. rewrite Hj in Hin. by simplify_eq/=.
  - intros q. unfold jobsOf. simpl. rewrite Hr3. simpl.
    by rewrite launchAll_jobsByPipeline.
Qed.
End run_operations.

Section run_admission.
Context (w : World) (Hgraphs : graphsBuild w).
Implicit Types (r : pipelineRunner.t) (pipeline : string) (job : ptr).

(** The new job, once registered. *)
Section registered.
Context (r : pipelineRunner.t) (j : pipelineJob.t).
Context (Hinv : runInvariant r).
Context (Hfresh : jobsByID r !! pipelineJob.ID j = None).

Let r1 := (registerJob j r).2.
Let new := length (heap r).

Lemma registered_new : heap r1 !! new = Some j.
Proof.
  subst r1 new. simpl. by rewrite lookup_app_r, Nat.sub_diag by lia.
Qed.

Lemma registered_old job j' :
  heap r !! job = Some j' → heap r1 !! job = Some j' ∧ job ≠ new.
Proof.
  intros Hj. split; [by apply lookup_app_l_Some|].
  apply lookup_lt_Some in Hj. subst new. lia.
Qed.

Lemma registered_wait q job :
  job ∈ waitListOf r q →
  ∃ j', heap r1 !! job = Some j' ∧
        pipelineJob.Start j' = None ∧
        pipelineJob.Completed j' = false ∧
        pipelineJob.Canceled j' = false ∧
        (job ∉ spawned r) ∧
        job ∈ jobsOf r1 q ∧
        job ≠ new.
Proof.
  intros Hin.
  destruct (ri_wait r Hinv q job Hin)
    as (j' & Hj & Hs & Hc & Hx & Hnsp & Hjobs).
  destruct (registered_old job j' Hj) as [Hj1 Hne].
  exists j'. split_and!; try done.
  subst r1. rewrite jobsOf_registerJob. case_decide; [|done].
  apply elem_of_app. by left.
Qed.

Lemma registered_byid job j' :
  heap r1 !! job = Some j' →
  jobsByID r1 !! pipelineJob.ID j' = Some job.
Proof.
  subst r1. simpl. intros Hj.
  destruct (decide (job < length (heap r))%nat) as [Hlt|Hge].
  - rewrite lookup_app_l in Hj by done.
    pose proof (ri_byid r Hinv job j' Hj) as Hid.
    rewrite lookup_insert_ne; [done|]. intros Heq.
    rewrite <-Heq, Hfresh in Hid. done.
  - destruct (decide (job = length (heap r))) as [->|Hne].
    + rewrite lookup_app_r, Nat.sub_diag in Hj by lia.
      simplify_eq/=. by rewrite lookup_insert_eq.
    + apply lookup_lt_Some in Hj. rewrite length_app in Hj.
      simpl in Hj. lia.
Qed.

Lemma registered_spawned job :
  job ∈ spawned r → is_Some (heap r1 !! job) ∧ job ≠ new.
Proof.
  intros [j' Hj]%(ri_spawned r Hinv).
  destruct (registered_old job j' Hj). eauto.
Qed.

Lemma registered_startedOf q : startedOf r1 q = startedOf r q.
Proof.
  unfold startedOf. subst r1. simpl.
  apply filter_ext_elem_of. intros job [j' Hj]%(ri_spawned r Hinv).
  unfold pipelineAt. by rewrite (lookup_app_l_Some _ _ _ _ Hj), Hj.
Qed.

Lemma registered_waitListOf q : waitListOf r1 q = waitListOf r q.
Proof. done. Qed.

Lemma registered_new_notin_wait q : new ∉ waitListOf r q.
Proof. intros Hin. by destruct (registered_wait q new Hin) as (?&?&?&?&?&?&?&?). Qed.

Lemma registered_new_in_jobsOf :
  new ∈ jobsOf r1 (pipelineJob.Pipeline j).
Proof.
  subst r1. rewrite jobsOf_registerJob, decide_True by done.
  apply elem_of_app. right. by apply list_elem_of_singleton.
Qed.

Lemma registered_fifo q :
  definition.QueueStrategy_ (pipelineDefOf r q)
    = definition.QueueStrategyAppend →
  jobsOf r1 q =
  startedOf r1 q ++ waitListOf r q ++
  (if decide (pipelineJob.Pipeline j = q) then [new] else []).
Proof.
  intros Hstrategy. rewrite registered_startedOf. unfold r1.
  rewrite jobsOf_registerJob, (ri_fifo r Hinv q Hstrategy).
  case_decide; by rewrite ?app_nil_r, <-?app_assoc.
Qed.
End registered.

Lemma sameView_requestPersist r : sameView r (requestPersist r).
Proof. by repeat split. Qed.

Lemma sameView_readClock r : sameView r (readClock w r).2.
Proof. by repeat split. Qed.

Lemma resolveScheduleAction_queue_replace r pipeline :
  resolveScheduleAction r pipeline = scheduleActionQueue →
  definition.QueueStrategy_ (pipelineDefOf r pipeline)
    = definition.QueueStrategyReplace →
  waitListOf r pipeline = [].
Proof.
  unfold resolveScheduleAction. intros Hact Hstrategy.
  rewrite Hstrategy, bool_decide_eq_true_2 in Hact by done.
  destruct (waitListOf r pipeline); [done|]. simpl in Hact.
  repeat (case_match; try done).
Qed.

Lemma resolveScheduleAction_replace r pipeline :
  resolveScheduleAction r pipeline = scheduleActionReplace →
  definition.QueueStrategy_ (pipelineDefOf r pipeline)
    = definition.QueueStrategyReplace ∧
  waitListOf r pipeline ≠ [] ∧
  definition.Concurrency (pipelineDefOf r pipeline)
    ≤ runningJobsCount r pipeline.
Proof.
  unfold resolveScheduleAction. intros Hact.
  destruct (Z.geb_spec (runningJobsCount r pipeline)
              (definition.Concurrency (pipelineDefOf r pipeline)));
    [|done].
  case_decide; [done|].
  destruct (bool_decide_reflect
              (definition.QueueStrategy_ (pipelineDefOf r pipeline)
               = definition.QueueStrategyReplace)) as [Hs|Hs].
  - split_and!; [done| |lia]. intros Hnil. rewrite Hnil in Hact.
    simpl in Hact. repeat (case_match; try done).
  - simpl in Hact. repeat (case_match; try done).
Qed.

Lemma resolveScheduleAction_not_start r pipeline :
  resolveScheduleAction r pipeline ≠ scheduleActionStart ↔
  definition.Concurrency (pipelineDefOf r pipeline)
    ≤ runningJobsCount r pipeline.
Proof. rewrite resolveScheduleAction_start. lia. Qed.

(** The action [Queue]. *)
Lemma runInvariant_queue r j :
  runInvariant r →
  jobsByID r !! pipelineJob.ID j = None →
  pipelineJob.Start j = None →
  pipelineJob.Completed j = false →
  pipelineJob.Canceled j = false →
  (definition.QueueStrategy_ (pipelineDefOf r (pipelineJob.Pipeline j))
     = definition.QueueStrategyReplace →
   waitListOf r (pipelineJob.Pipeline j) = []) →
  boundedRunner
    (setWaitList (pipelineJob.Pipeline j)
       (waitListOf r (pipelineJob.Pipeline j) ++ [length (heap r)])
       (registerJob j r).2) →
  runInvariant
    (setWaitList (pipelineJob.Pipeline j)
       (waitListOf r (pipelineJob.Pipeline j) ++ [length (heap r)])
       (registerJob j r).2).
Proof.
  intros Hinv Hfresh Hs Hc Hx Hrepl Hbd.
  set (p := pipelineJob.Pipeline j) in *.
  split; [done|..].
  - intros q job. rewrite waitListOf_setWaitList.
    assert (job ∈ waitListOf r q →
            ∃ j', heap (registerJob j r).2 !! job = Some j' ∧
                  pipelineJob.Start j' = None ∧
                  pipelineJob.Completed j' = false ∧
                  pipelineJob.Canceled j' = false ∧
                  (job ∉ spawned r) ∧ job ∈ jobsOf (registerJob j r).2 q)
      as Hold.
    { intros Hin.
      destruct (registered_wait r j Hinv q job Hin)
        as (j' & ? & ? & ? & ? & ? & ? & ?). eauto 10. }
    case_decide as Hq; [|done]. subst q.
    intros [Hin|Hin%list_elem_of_singleton]%elem_of_app; [by apply Hold|].
    subst job. exists j. split_and!; try done.
    + apply registered_new.
    + intros Hin. by destruct (registered_spawned r j Hinv _ Hin).
    + apply registered_new_in_jobsOf.
  - intros q. rewrite waitListOf_setWaitList. case_decide; [|apply Hinv].
    apply NoDup_app. split_and!; [apply Hinv| |apply NoDup_singleton].
    intros job Hin ->%list_elem_of_singleton.
    by apply (registered_new_notin_wait r j Hinv p).
  - by apply registered_byid.
  - intros job Hin. by destruct (registered_spawned r j Hinv _ Hin).
  - intros q Hstrategy. rewrite waitListOf_setWaitList.
    change (pipelineDefOf _ q) with (pipelineDefOf r q) in Hstrategy.
    case_decide as Hq; [|by apply Hinv]. subst q.
    rewrite Hrepl by done. simpl. lia.
  - intros q Hstrategy. rewrite waitListOf_setWaitList.
    change (pipelineDefOf _ q) with (pipelineDefOf r q) in Hstrategy.
    change (jobsOf _ q) with (jobsOf (registerJob j r).2 q).
    change (startedOf _ q) with (startedOf (registerJob j r).2 q).
    rewrite (registered_fifo r j Hinv q Hstrategy). fold p.
    destruct (decide (p = q)) as [->|Hq]; [done|].
    by rewrite app_nil_r.
Qed.

(** The action [Replace]. *)
Lemma runInvariant_replace r j previousJob :
  runInvariant r →
  jobsByID r !! pipelineJob.ID j = None →
  pipelineJob.Start j = None →
  pipelineJob.Completed j = false →
  pipelineJob.Canceled j = false →
  definition.QueueStrategy_ (pipelineDefOf r (pipelineJob.Pipeline j))
    = definition.QueueStrategyReplace →
  waitListOf r (pipelineJob.Pipeline j) = [previousJob] →
  boundedRunner
    (setWaitList (pipelineJob.Pipeline j) [length (heap r)]
       (updateJob (pipelineJob.withCanceled true) previousJob
          (registerJob j r).2)) →
  runInvariant
    (setWaitList (pipelineJob.Pipeline j) [length (heap r)]
       (updateJob (pipelineJob.withCanceled true) previousJob
          (registerJob j r).2)).
Proof.
  intros Hinv Hfresh Hs Hc Hx Hrepl Hwl Hbd.
  set (p := pipelineJob.Pipeline j) in *.
  assert (previousJob ≠ length (heap r)) as Hprev.
  { intros ->. apply (registered_new_notin_wait r j Hinv p).
    rewrite Hwl. by left. }
  assert (pipelineAt (heap r) previousJob = Some p) as Hprev_p.
  { apply (bk_wait_pipeline r (proj1 (ri_bounded r Hinv))).
    rewrite Hwl. by left. }
  split; [done|..].
  - intros q job. rewrite waitListOf_setWaitList. case_decide as Hq.
    + subst q. intros ->%list_elem_of_singleton.
      exists j. split_and!; try done.
      * simpl. rewrite list_lookup_alter_ne by done.
        apply (registered_new r j).
      * intros Hin. by destruct (registered_spawned r j Hinv _ Hin).
      * apply registered_new_in_jobsOf.
    + intros Hin.
      destruct (registered_wait r j Hinv q job Hin)
        as (j' & ? & ? & ? & ? & ? & ? & ?).
      exists j'. split_and!; try done.
      simpl. rewrite list_lookup_alter_ne; [done|]. intros ->.
      apply (bk_wait_pipeline r (proj1 (ri_bounded r Hinv))) in Hin.
      congruence.
  - intros q. rewrite waitListOf_setWaitList.
    case_decide; [apply NoDup_singleton|apply Hinv].
  - simpl. apply byid_alter; [done|]. by apply registered_byid.
  - intros job Hin. simpl. apply is_Some_alter.
    by destruct (registered_spawned r j Hinv _ Hin).
  - intros q Hstrategy. rewrite waitListOf_setWaitList.
    case_decide; [done|]. by apply Hinv.
  - intros q Hstrategy. rewrite waitListOf_setWaitList.
    change (pipelineDefOf _ q) with (pipelineDefOf r q) in Hstrategy.
    destruct (decide (p = q)) as [->|Hq]; [congruence|].
    change (jobsOf _ q) with (jobsOf (registerJob j r).2 q).
    change (startedOf _ q)
      with (startedOf (updateJob (pipelineJob.withCanceled true)
                         previousJob (registerJob j r).2) q).
    rewrite startedOf_alter by done.
    rewrite (registered_fifo r j Hinv q Hstrategy).
    fold p. by rewrite decide_False, app_nil_r.
Qed.

(** The action [Start]. *)
Lemma runInvariant_start r j :
  runInvariant r →
  jobsByID r !! pipelineJob.ID j = None →
  waitListOf r (pipelineJob.Pipeline j) = [] →
  boundedRunner (requestPersist (launchJob w (length (heap r))
                                   (registerJob j r).2)) →
  runInvariant (requestPersist (launchJob w (length (heap r))
                                  (registerJob j r).2)).
Proof.
  intros Hinv Hfresh Hwl Hbd.
  set (p := pipelineJob.Pipeline j) in *.
  split; [done|..].
  - intros q job Hin.
    destruct (registered_wait r j Hinv q job Hin)
      as (j' & ? & ? & ? & ? & ? & ? & ?).
    exists j'. split_and!; try done.
    + simpl. by rewrite list_lookup_alter_ne.
    + simpl. intros [?|?%list_elem_of_singleton]%elem_of_app; done.
  - apply Hinv.
  - simpl. apply byid_alter; [done|]. by apply registered_byid.
  - intros job. simpl.
    intros [Hin|Hin%list_elem_of_singleton]%elem_of_app;
      apply is_Some_alter.
    + by destruct (registered_spawned r j Hinv _ Hin).
    + subst. exists j. apply (registered_new r j).
  - apply Hinv.
  - intros q Hstrategy. rewrite startedOf_launchJob.
    change (pipelineDefOf _ q) with (pipelineDefOf r q) in Hstrategy.
    change (jobsOf _ q) with (jobsOf (registerJob j r).2 q).
    change (waitListOf _ q) with (waitListOf r q).
    rewrite (registered_fifo r j Hinv q Hstrategy). fold p.
    rewrite filter_cons, filter_nil.
    assert (pipelineAt (heap (registerJob j r).2) (length (heap r))
            = Some p) as Hnew by apply (pipelineAt_new (heap r) j).
    destruct (decide (p = q)) as [->|Hq].
    + rewrite decide_True, Hwl by done. by rewrite !app_nil_r.
    + rewrite decide_False by congruence. by rewrite !app_nil_r.
Qed.
End run_admission.

Section run_steps.
Context (w : World) (Hgraphs : graphsBuild w).
Implicit Types (r : pipelineRunner.t) (pipeline : string) (job : ptr).

Lemma sameView_sym r1 r2 : sameView r1 r2 → sameView r2 r1.
Proof. intros (?&?&?&?&?&?). by repeat split. Qed.

Lemma drained_contra r pipeline :
  drained r →
  resolveScheduleAction r pipeline = scheduleActionStart →
  waitListOf r pipeline = [].
Proof.
  intros Hdr Hact. destruct (waitListOf r pipeline) eqn:Hwl; [done|].
  by destruct (Hdr pipeline); [rewrite Hwl|].
Qed.

Lemma jobsOf_registerJob_prefix j r q :
  jobsOf r q `prefix_of` jobsOf (registerJob j r).2 q.
Proof.
  rewrite jobsOf_registerJob. case_decide; [|done].
  by apply prefix_app_r.
Qed.

Lemma ScheduleAsync_runInvariant fuel r pipeline opts newV4 r' res :
  runInvariant r → drained r →
  (∀ id, newV4 = inl id → jobsByID r !! id = None) →
  ScheduleAsync w fuel r pipeline opts newV4 = Some (r', res) →
  runInvariant r' ∧ drained r' ∧
  (∀ q, jobsOf r q `prefix_of` jobsOf r' q).
Proof.
  intros Hinv Hdr Hfresh Hrun.
  destruct (ScheduleAsync_bounded w _ _ _ _ _ _ _ (ri_bounded r Hinv) Hrun)
    as [Hbd' [Hdefs _]].
  destruct (defs r !! pipeline) as [pipelineDef|] eqn:Hdef;
    [|unfold ScheduleAsync in Hrun; rewrite Hdef in Hrun; by simplify_eq].
  destruct newV4 as [id|err];
    [|unfold ScheduleAsync in Hrun; rewrite Hdef in Hrun;
      by destruct (resolveScheduleAction r pipeline); simplify_eq/=].
  specialize (Hfresh id eq_refl).
  rewrite (ScheduleAsync_defined w fuel r pipeline opts id pipelineDef Hdef)
    in Hrun.
  cbv zeta in Hrun. unfold admitted in Hrun.
  set (j := newJob w id pipeline (timeNow w (clock r)) opts pipelineDef)
    in *.
  set (r0 := (readClock w r).2) in *.
  set (r1 := (registerJob j r0).2) in *.
  assert (runInvariant r0) as Hinv0
    by (eapply runInvariant_view; [apply sameView_readClock|done]).
  assert (∀ q, runningJobsCount r1 q = runningJobsCount r q) as Hcount1.
  { intros q. unfold r1.
    rewrite runningJobsCount_registerJob; [done| |done].
    apply (proj1 (ri_bounded r0 Hinv0)). }
  assert (∀ q, jobsOf r q `prefix_of` jobsOf r1 q)
    as Hprefix by apply (jobsOf_registerJob_prefix j r0).
  assert (∀ q job f,
            (∀ j', heap r !! job = Some j' →
                   pipelineJob.isRunning (f j') = pipelineJob.isRunning j') →
            job ≠ length (heap r) →
            runningJobsCount (updateJob f job r1) q
            = runningJobsCount r q) as Hcount_old.
  { intros q job f Hf Hne. rewrite <-Hcount1.
    rewrite !runningJobsCount_runningIn. f_equal.
    apply runningIn_alter_same. intros j'. simpl.
    intros Hj'. apply Hf.
    destruct (decide (job < length (heap r))%nat).
    - by rewrite lookup_app_l in Hj'.
    - apply lookup_lt_Some in Hj'. rewrite length_app in Hj'.
      simpl in Hj'. lia. }
  destruct (resolveScheduleAction r pipeline) eqn:Hact;
    try by simplify_eq.
  - (* Start *)
    destruct (startJob w fuel r1 (length (heap r))) as [r2|] eqn:Hstart;
      [|done].
    injection Hrun as <- <-.
    apply startJob_graphsBuild in Hstart as [-> _]; [|done].
    assert (waitListOf r pipeline = []) as Hwl
      by by apply drained_contra.
    split_and!.
    + eapply runInvariant_view; [apply sameView_requestPersist|].
      apply (runInvariant_start w r0 j Hinv0 Hfresh Hwl).
      eapply boundedRunner_view; [|exact Hbd'].
      apply sameView_sym, sameView_requestPersist.
    + apply (drained_frame r); [done|exact Hdefs|].
      intros q. destruct (decide (q = pipeline)) as [->|Hq].
      { left. left. exact Hwl. }
      right. split; [done|]. rewrite <-Hcount1.
      rewrite !runningJobsCount_runningIn. f_equal.
      apply runningIn_alter_notin.
      change (length (heap r) ∉ jobsOf (registerJob j r0).2 q).
      rewrite jobsOf_registerJob, decide_False by done.
      intros Hin.
      apply (bookkeeping_valid r0 q _ (proj1 (ri_bounded r0 Hinv0))) in Hin.
      simpl in Hin. lia.
    + exact Hprefix.
  - (* Queue *)
    injection Hrun as <- <-. split_and!.
    + eapply runInvariant_view; [apply sameView_requestPersist|].
      apply (runInvariant_queue r0 j Hinv0 Hfresh); try done.
      * by apply resolveScheduleAction_queue_replace.
      * eapply boundedRunner_view; [|exact Hbd'].
        apply sameView_sym, sameView_requestPersist.
    + apply (drained_frame r); [done|exact Hdefs|].
      intros q. destruct (decide (q = pipeline)) as [->|Hq].
      * left. right. apply resolveScheduleAction_not_start.
        change (definition.Concurrency (pipelineDefOf r pipeline)
                ≤ runningJobsCount r1 pipeline).
        rewrite Hcount1. apply resolveScheduleAction_not_start.
        by rewrite Hact.
      * right. split; [|exact (Hcount1 q)].
        change (waitListOf
                  (setWaitList pipeline
                     (waitListOf r pipeline ++ [length (heap r)]) r1) q
                = waitListOf r q).
        by rewrite waitListOf_setWaitList, decide_False.
    + exact Hprefix.
  - (* Replace *)
    apply resolveScheduleAction_replace in Hact as (Hrepl & Hne & Hge).
    pose proof (ri_replace r Hinv pipeline Hrepl) as Hlen.
    destruct (waitListOf r pipeline) as [|previousJob [|??]] eqn:Hwl;
      [done| |simpl in Hlen; lia].
    simpl in Hrun. injection Hrun as <- <-.
    destruct (ri_wait r Hinv pipeline previousJob)
      as (jp & Hjp & Hsp & _); [rewrite Hwl; by left|].
    assert (∀ q,
      runningJobsCount
        (updateJob (pipelineJob.withCanceled true) previousJob r1) q
      = runningJobsCount r q) as Hcount2.
    { intros q. apply Hcount_old.
      - intros j' Hj'. unfold pipelineJob.isRunning. simpl.
        assert (j' = jp) as -> by congruence.
        rewrite Hsp. done.
      - apply lookup_lt_Some in Hjp. lia. }
    split_and!.
    + eapply runInvariant_view; [apply sameView_requestPersist|].
      apply (runInvariant_replace r0 j previousJob Hinv0 Hfresh);
        try done.
      eapply boundedRunner_view; [|exact Hbd'].
      apply sameView_sym, sameView_requestPersist.
    + apply (drained_frame r); [done|exact Hdefs|].
      intros q. destruct (decide (q = pipeline)) as [->|Hq].
      * left. right. apply resolveScheduleAction_not_start.
        change (definition.Concurrency (pipelineDefOf r pipeline)
                ≤ runningJobsCount
                    (updateJob (pipelineJob.withCanceled true) previousJob
                       r1) pipeline).
        by rewrite Hcount2.
      * right. split; [|exact (Hcount2 q)].
        change (waitListOf
                  (setWaitList pipeline [length (heap r)]
                     (updateJob (pipelineJob.withCanceled true) previousJob
                        r1)) q = waitListOf r q).
        by rewrite waitListOf_setWaitList, decide_False.
    + exact Hprefix.
Qed.
End run_steps.

Section run_histories.
Context (w : World) (Hgraphs : graphsBuild w).
Implicit Types (r : pipelineRunner.t) (pipeline : string) (job : ptr).

Lemma runStep_opStep r r' : runStep w r r' → opStep w r r'.
Proof.
  intros Hstep. inversion Hstep; subst;
    [eapply opScheduleAsync|eapply opJobCompleted]; eassumption.
Qed.

Lemma runInvariant_new defs :
  concurrencyDeclared defs → runInvariant (newPipelineRunner defs).
Proof.
  intros Hdefs. split; [by apply boundedRunner_new|..];
    try (intros p; unfold waitListOf; simpl; rewrite lookup_empty; simpl).
  - intros job Hin. by apply elem_of_nil in Hin.
  - apply NoDup_nil_2.
  - intros job j. simpl. by rewrite lookup_nil.
  - intros job Hin. by apply elem_of_nil in Hin.
  - lia.
  - intros _. unfold jobsOf. simpl. by rewrite lookup_empty.
Qed.

Lemma drained_new defs : drained (newPipelineRunner defs).
Proof.
  intros p. unfold waitListOf. simpl. by rewrite lookup_empty.
Qed.

Lemma runStep_invariant r r' :
  runInvariant r → drained r → runStep w r r' →
  runInvariant r' ∧ drained r' ∧
  (∀ q, jobsOf r q `prefix_of` jobsOf r' q).
Proof.
  intros Hinv Hdr Hstep. inversion Hstep; subst.
  - eapply ScheduleAsync_runInvariant; eauto.
  - edestruct jobCompleted_runInvariant as (Hinv' & Hdr' & Hjobs); eauto.
    split_and!; [done|done|]. intros q. by rewrite Hjobs.
Qed.

Lemma runReachable_invariant defs r :
  concurrencyDeclared defs → runReachable w defs r →
  runInvariant r ∧ drained r ∧ pipelineRunner.defs r = defs.
Proof.
  intros Hdefs Hreach.
  induction Hreach as [|r r' _ (Hinv & Hdr & Hd) Hstep].
  - split_and!; [by apply runInvariant_new|apply drained_new|done].
  - destruct (runStep_invariant r r' Hinv Hdr Hstep) as (Hinv' & Hdr' & _).
    split_and!; [done|done|].
    apply runStep_opStep in Hstep.
    apply (opStep_bounded w) in Hstep as [_ [Hd' _]];
      [congruence|apply Hinv].
Qed.

Lemma runReachable_steps defs r r' :
  runReachable w defs r → runSteps w r r' → runReachable w defs r'.
Proof.
  intros Hreach Hsteps. revert Hreach.
  induction Hsteps as [|r1 r2 r3 _ IH Hstep]; intros Hreach; [done|].
  eapply runReachable_step; [by apply IH|done].
Qed.

Lemma runSteps_prefix r r' :
  runInvariant r → drained r → runSteps w r r' →
  runInvariant r' ∧ drained r' ∧
  (∀ q, jobsOf r q `prefix_of` jobsOf r' q).
Proof.
  intros Hinv Hdr Hsteps. revert Hinv Hdr.
  induction Hsteps as [|r1 r2 r3 _ IH Hstep]; intros Hinv Hdr; [done|].
  destruct (IH Hinv Hdr) as (Hinv2 & Hdr2 & Hpre2).
  destruct (runStep_invariant r2 r3 Hinv2 Hdr2 Hstep)
    as (Hinv3 & Hdr3 & Hpre3).
  split_and!; [done|done|]. intros q.
  etrans; [apply Hpre2|apply Hpre3].
Qed.


(** C4.  [startJobsOnWaitList] takes jobs off the head of the wait list
    only, starts each while the admission rule says [Start], and leaves
    the rest of the list as it was, stopping when the list is empty or
    the rule says something else; it returns when it is given calls
    enough.  In a run over a pipeline with the strategy [append]: of two
    jobs on the wait list, the one admitted first (the one that stands
    first in [jobsByPipeline]) stands first on the wait list, and
    whenever the other has been started, it has been started before. *)
Theorem fifo_drain defs :
  concurrencyDeclared defs →
  (∀ r pipeline fuel r',
      startJobsOnWaitList w fuel r pipeline = Some r' →
      ∃ started,
        waitListOf r pipeline = started ++ waitListOf r' pipeline ∧
        spawned r' = spawned r ++ started ∧
        (∀ s1 job s2, started = s1 ++ job :: s2 →
           resolveScheduleAction (launchAll w s1 r) pipeline
             = scheduleActionStart) ∧
        (waitListOf r' pipeline = [] ∨
         resolveScheduleAction r' pipeline ≠ scheduleActionStart)) ∧
  (∀ r pipeline fuel,
      (∀ job, job ∈ waitListOf r pipeline → is_Some (heap r !! job)) →
      (length (waitListOf r pipeline) < fuel)%nat →
      is_Some (startJobsOnWaitList w fuel r pipeline)) ∧
  (∀ r r' pipeline A B,
      runReachable w defs r →
      definition.QueueStrategy_ (pipelineDefOf r pipeline)
        = definition.QueueStrategyAppend →
      A ∈ waitListOf r pipeline →
      B ∈ waitListOf r pipeline →
      before A B (jobsOf r pipeline) →
      before A B (waitListOf r pipeline) ∧
      (runSteps w r r' → B ∈ spawned r' → before A B (spawned r'))).
Proof.
  intros Hdefs. split_and!.
  - intros r pipeline fuel r' Hrun. unfold startJobsOnWaitList in Hrun.
    apply waitListLoop_drains in Hrun
      as (started & Hsplit & Hr' & Hpre & Hend); [|done].
    exists started. split_and!; [done| | |done].
    + rewrite Hr'. simpl. apply launchAll_spawned.
    + intros s1 job s2 Heq. by apply (Hpre s1 job s2).
  - intros r pipeline fuel Hvalid Hfuel.
    by apply waitListLoop_returns.
  - intros r r' pipeline A B Hreach Hstrategy HA HB Hbefore.
    destruct (runReachable_invariant defs r Hdefs Hreach)
      as (Hinv & Hdr & Hd).
    pose proof (bk_jobs_nodup r (proj1 (ri_bounded r Hinv)) pipeline)
      as Hnd.
    pose proof (ri_fifo r Hinv pipeline Hstrategy) as Hfifo.
    split.
    { rewrite Hfifo in Hbefore, Hnd. by eapply before_app_r. }
    intros Hsteps HB'.
    destruct (runSteps_prefix r r' Hinv Hdr Hsteps)
      as (Hinv' & Hdr' & Hprefix).
    pose proof (runReachable_invariant defs r' Hdefs
                  (runReachable_steps defs r r' Hreach Hsteps))
      as (_ & _ & Hd').
    assert (definition.QueueStrategy_ (pipelineDefOf r' pipeline)
            = definition.QueueStrategyAppend) as Hstrategy'.
    { unfold pipelineDefOf in *. by rewrite Hd', <-Hd. }
    pose proof (bk_jobs_nodup r' (proj1 (ri_bounded r' Hinv')) pipeline)
      as Hnd'.
    pose proof (ri_fifo r' Hinv' pipeline Hstrategy') as Hfifo'.
    pose proof (before_prefix A B _ _ Hbefore (Hprefix pipeline))
      as Hbefore'.
    assert (B ∈ jobsOf r' pipeline) as HBjobs.
    { destruct (Hprefix pipeline) as [k ->].
      apply elem_of_app. left.
      by destruct (ri_wait r Hinv pipeline B HB) as (?&?&?&?&?&?&?). }
    assert (B ∈ startedOf r' pipeline) as HBstarted.
    { apply list_elem_of_filter. split; [|done].
      by apply (bk_jobs_pipeline r' (proj1 (ri_bounded r' Hinv'))). }
    rewrite Hfifo' in Hbefore', Hnd'.
    eapply before_filter, before_app_l; eauto.
Qed.
End run_histories.

(** *** Persistence *)

Section persistence.
Implicit Types (r : pipelineRunner.t) (job : pipelineJob.t).



End persistence.

(** *** Loading the store *)

Section loading.
Context (w : World).
Implicit Types (r : pipelineRunner.t) (job : ptr).

Lemma keptBy_refl j : keptBy j j.
Proof. by repeat split. Qed.

Lemma keptBy_trans j1 j2 j3 : keptBy j1 j2 → keptBy j2 j3 → keptBy j1 j3.
Proof.
  intros (?&?&?&?&?&?&?&?) (?&?&?&?&?&?&?&?).
  repeat split; try congruence. auto.
Qed.


Lemma keepsJobs_trans r1 r2 r3 :
  keepsJobs r1 r2 → keepsJobs r2 r3 → keepsJobs r1 r3.
Proof.
  intros H12 H23 job j Hj.
  destruct (H12 job j Hj) as (j2 & Hj2 & Hk2).
  destruct (H23 job j2 Hj2) as (j3 & Hj3 & Hk3).
  exists j3. split; [done|by eapply keptBy_trans].
Qed.

Lemma keepsJobs_heap r r' : heap r' = heap r → keepsJobs r r'.
Proof.
  intros Hh job j Hj. exists j. rewrite Hh. split; [done|apply keptBy_refl].
Qed.

Lemma keepsJobs_updateJob f job0 r :
  (∀ j, keptBy j (f j)) → keepsJobs r (updateJob f job0 r).
Proof.
  intros Hf job j Hj. simpl.
  destruct (decide (job0 = job)) as [->|Hne].
  - exists (f j). rewrite list_lookup_alter_eq, Hj. by split.
  - exists j. rewrite list_lookup_alter_ne by done.
    split; [done|apply keptBy_refl].
Qed.

Lemma keepsJobs_launchJob job r : keepsJobs r (launchJob w job r).
Proof.
  eapply keepsJobs_trans;
    [apply (keepsJobs_updateJob
              (pipelineJob.withStart (Some (timeNow w (clock r)))) job);
     by repeat split|].
  by apply keepsJobs_heap.
Qed.

Lemma startJob_waitListLoop_keepsJobs fuel :
  (∀ r job r', startJob w fuel r job = Some r' → keepsJobs r r') ∧
  (∀ r pipeline waitList r',
      waitListLoop w fuel r pipeline waitList = Some r' → keepsJobs r r').
Proof.
  induction fuel as [|fuel [IHstart IHloop]]; [by split|]. split.
  - intros r job r' Hrun. simpl in Hrun.
    destruct (heap r !! job) as [j|]; [|done].
    destruct (buildPipelineGraph w _ _) as [graph|err].
    + simplify_eq.
      eapply keepsJobs_trans; [apply keepsJobs_launchJob|].
      by apply keepsJobs_heap.
    + destruct (waitListLoop _ _ _ _ _) as [r2|] eqn:Hloop; [|done].
      simplify_eq/=. apply IHloop in Hloop.
      eapply keepsJobs_trans; [|eapply keepsJobs_trans; [exact Hloop|]].
      * apply keepsJobs_updateJob. intros j'. by repeat split.
      * by apply keepsJobs_heap.
  - intros r pipeline waitList r' Hrun. simpl in Hrun.
    destruct waitList as [|queuedJob waitList'];
      [simplify_eq; by apply keepsJobs_heap|].
    case_decide; [|simplify_eq; by apply keepsJobs_heap].
    destruct (startJob _ _ _ _) as [r1|] eqn:Hstart; [|done].
    simpl in Hrun. eapply keepsJobs_trans; eauto.
Qed.




End loading.

(** *** Tasks that fail *)

Section task_failure.
Context (x : RunWorld).
Implicit Types (t : Task.t) (job : list string).




End task_failure.

(** *** The place of the log files *)

(** C9, at one input.  The output store puts the log of a stream at
    [logs/{jobID}/{taskName}-{stream}.log] under its base path; [run] hands
    it the directory [logs] of the data directory as its base path; so for
    the data directory [/data] the writer creates, and the reader opens,
    [/data/logs/logs/j1/a-stdout.log], which is not the file
    [/data/logs/j1/a-stdout.log] of the layout in the specification. *)
Theorem log_file_under_logs_twice :
  (∀ basePath jobID taskName stream,
     buildPath (OutputStore.mk basePath) jobID taskName stream
     = specLogPath basePath jobID taskName stream) ∧
  Writer (runOutputStore "/data") "j1" "a" "stdout"
    = [MkdirAll "/data/logs/logs/j1";
       Create "/data/logs/logs/j1/a-stdout.log"] ∧
  Reader (runOutputStore "/data") "j1" "a" "stdout"
    = [Open "/data/logs/logs/j1/a-stdout.log"] ∧
  specLogPath "/data" "j1" "a" "stdout" = "/data/logs/j1/a-stdout.log" ∧
  buildPath (runOutputStore "/data") "j1" "a" "stdout"
    ≠ specLogPath "/data" "j1" "a" "stdout".
Proof. split_and!; [done|by vm_compute..|by vm_compute]. Qed.

(** *** The theorems at work on the examples *)



Lemma demoWorld_graphsBuild : graphsBuild demoWorld.
Proof. done. Qed.

Lemma demoDefs_concurrencyDeclared : concurrencyDeclared demoDefs.
Proof.
  intros pipeline pipelineDef. unfold demoDefs.
  rewrite lookup_insert_Some, lookup_singleton_Some.
  intros [[_ <-]|[_ [_ <-]]]; simpl; lia.
Qed.

Local Ltac demo_elem_of :=
  solve [repeat first [apply list_elem_of_here|apply list_elem_of_further]].

Local Ltac demo_scheduled res :=
  lazymatch goal with
  | |- runReachable _ _ (afterSchedule ?r ?p ?id) =>
      apply (runReachable_step _ _ r);
      [|apply (runScheduleAsync demoWorld 4 r p demoOpts (inl id) _ res);
        [intros ? [= <-]; by vm_compute|by vm_compute]]
  end.

Lemma demoS2_runReachable : runReachable demoWorld demoDefs demoS2.
Proof.
  unfold demoS2.
  demo_scheduled (@inl nat scheduleError 2%nat).
  demo_scheduled (@inl nat scheduleError 1%nat).
  demo_scheduled (@inl nat scheduleError 0%nat).
  apply runReachable_new.
Qed.


Lemma runReachable_opReachable w defs r :
  runReachable w defs r → opReachable w defs r.
Proof.
  induction 1 as [|r r' _ IH Hstep]; [apply opReachable_new|].
  eapply opReachable_step; [exact IH|by apply runStep_opStep].
Qed.

Lemma demoS2_runSteps : runSteps demoWorld demoS2 demoS2done.
Proof.
  unfold demoS2done.
  apply (runSteps_step _ _ (afterCompleted demoS2 1%N));
    [apply (runSteps_step _ _ demoS2); [apply runSteps_refl|]|].
  - apply (runJobCompleted demoWorld 4 demoS2 0%nat
             (default demoFailedJob (heap demoS2 !! 0%nat)) None);
      [vm_compute; demo_elem_of|by vm_compute|by vm_compute].
  - apply (runJobCompleted demoWorld 4 (afterCompleted demoS2 1%N) 1%nat
             (default demoFailedJob
                (heap (afterCompleted demoS2 1%N) !! 1%nat)) None);
      [vm_compute; demo_elem_of|by vm_compute|by vm_compute].
Qed.

(** C2 on scenario S2: with three jobs admitted, one job of [p] runs. *)
Lemma concurrency_bound_holds_S2 :
  runningJobsCount demoS2 "p" ≤ 1.
Proof.
  apply (concurrency_bound_holds demoWorld demoDefs demoS2 "p").
  - exact demoDefs_concurrencyDeclared.
  - exact (runReachable_opReachable _ _ _ demoS2_runReachable).
Defined.

(** C10 on scenario S2: the fourth request is turned down with
    [errQueueFull] and leaves the runner as it was. *)
Lemma ScheduleAsync_error_leaves_runner_S2 :
  ScheduleAsync demoWorld 4 demoS2 "p" demoOpts (inl 4%N)
    = Some (demoS2, inr errQueueFull) ∧
  heap demoS2 = heap demoS2 ∧
  persistSends demoS2 = persistSends demoS2.
Proof.
  assert (ScheduleAsync demoWorld 4 demoS2 "p" demoOpts (inl 4%N)
          = Some (demoS2, inr errQueueFull)) as Hrun by by vm_compute.
  split; [exact Hrun|].
  destruct (ScheduleAsync_error_leaves_runner demoWorld demoS2 "p" demoOpts
              (inl 4%N) 4 demoS2 errQueueFull Hrun)
    as (_ & Hheap & _ & _ & _ & _ & Hsends).
  by split.
Defined.


(** C4 on scenario S2: the second job was admitted before the third, waits
    before it, and is started before it. *)
Lemma fifo_drain_S2 :
  before 1%nat 2%nat (waitListOf demoS2 "p") ∧
  before 1%nat 2%nat (spawned demoS2done).
Proof.
  destruct (fifo_drain demoWorld demoWorld_graphsBuild demoDefs
              demoDefs_concurrencyDeclared) as (_ & _ & Hfifo).
  destruct (Hfifo demoS2 demoS2done "p" 1%nat 2%nat demoS2_runReachable)
    as [Hwait Hstarted].
  - by vm_compute.
  - vm_compute. demo_elem_of.
  - vm_compute. demo_elem_of.
  - exists [0%nat], [], []. by vm_compute.
  - split; [exact Hwait|]. apply Hstarted; [exact demoS2_runSteps|].
    vm_compute. demo_elem_of.
Defined.



(** *** The order of tasks *)

Section string_order.
Implicit Types (a b c : string).

Lemma strLe_compare a b : strLe a b ↔ String.compare a b ≠ Gt.
Proof.
  unfold strLe, String.leb.
  destruct (String.compare a b); split; intros H; done || congruence.
Qed.

Lemma ltb_compare a b : String.ltb a b = true ↔ String.compare a b = Lt.
Proof.
  unfold String.ltb.
  destruct (String.compare a b); split; intros H; done || congruence.
Qed.

Lemma compare_Gt_Lt a b : String.compare a b = Gt ↔ String.compare b a = Lt.
Proof.
  rewrite (String.compare_antisym a b).
  destruct (String.compare b a); simpl; split; intros H; done || congruence.
Qed.

Lemma compare_refl a : String.compare a a = Eq.
Proof. by apply OrderedTypeEx.String_as_OT.cmp_eq. Qed.

Lemma compare_Lt_trans a b c :
  String.compare a b = Lt → String.compare b c = Lt → String.compare a c = Lt.
Proof.
  intros H1 H2. apply OrderedTypeEx.String_as_OT.cmp_lt.
  eapply OrderedTypeEx.String_as_OT.lt_trans;
    by apply OrderedTypeEx.String_as_OT.cmp_lt.
Qed.

Lemma strLe_ltb a b : strLe a b ↔ String.ltb b a = false.
Proof.
  rewrite strLe_compare, compare_Gt_Lt, <-ltb_compare.
  by destruct (String.ltb b a).
Qed.

Global Instance strLe_refl : Reflexive strLe.
Proof. intros a. apply strLe_compare. by rewrite compare_refl. Qed.

Global Instance strLe_total : Total strLe.
Proof. intros a b. apply String.leb_total. Qed.

Global Instance strLe_antisym : AntiSymm (=) strLe.
Proof. intros a b. apply String.leb_antisym. Qed.

Global Instance strLe_trans : Transitive strLe.
Proof.
  intros a b c. rewrite !strLe_compare, !compare_Gt_Lt.
  intros Hab Hbc Hca.
  destruct (String.compare b a) eqn:Eba; [|done|].
  - apply String.compare_eq_iff in Eba as ->. done.
  - apply compare_Gt_Lt in Eba.
    destruct (String.compare c b) eqn:Ecb; [|done|].
    + apply String.compare_eq_iff in Ecb as ->.
      apply compare_Gt_Lt in Hca. congruence.
    + apply compare_Gt_Lt in Ecb.
      pose proof (compare_Lt_trans _ _ _ Eba Ecb) as Hac.
      apply compare_Gt_Lt in Hca. congruence.
Qed.

Lemma sortStrings_Permutation (l : list string) : sortStrings l ≡ₚ l.
Proof. apply merge_sort_Permutation. Qed.

Lemma sortStrings_sorted (l : list string) : StronglySorted strLe (sortStrings l).
Proof. apply StronglySorted_merge_sort; apply _. Qed.

Lemma sortStrings_elem_of (l : list string) a : a ∈ sortStrings l ↔ a ∈ l.
Proof. by rewrite sortStrings_Permutation. Qed.

Lemma sortStrings_NoDup (l : list string) : NoDup l → NoDup (sortStrings l).
Proof. by rewrite sortStrings_Permutation. Qed.
End string_order.

Section task_order.
Context (nodes : gmap string tmpNode.t).
Implicit Types (a b c : jobTask.t).

Lemma notAfter_taskLess a b :
  notAfter (taskLess nodes) a b ↔
  orderOf nodes (jobTask.Name a) < orderOf nodes (jobTask.Name b) ∨
  (orderOf nodes (jobTask.Name a) = orderOf nodes (jobTask.Name b) ∧
   strLe (jobTask.Name a) (jobTask.Name b)).
Proof.
  unfold notAfter, taskLess. case_decide as Heq.
  - rewrite <-strLe_ltb. split; [intros; right; by split|].
    intros [?|[_ ?]]; [lia|done].
  - rewrite bool_decide_eq_false. split; [intros; left; lia|].
    intros [?|[? _]]; [lia|congruence].
Qed.

Global Instance notAfter_taskLess_total : Total (notAfter (taskLess nodes)).
Proof.
  intros a b. rewrite !notAfter_taskLess.
  destruct (Z.lt_trichotomy (orderOf nodes (jobTask.Name a))
              (orderOf nodes (jobTask.Name b))) as [?|[?|?]];
    [by left; left| |by right; left].
  destruct (total strLe (jobTask.Name a) (jobTask.Name b));
    [left|right]; right; by split.
Qed.

Global Instance notAfter_taskLess_trans :
  Transitive (notAfter (taskLess nodes)).
Proof.
  intros a b c. rewrite !notAfter_taskLess.
  intros [?|[? ?]] [?|[? ?]]; try (left; lia).
  right. split; [congruence|by etrans].
Qed.

Lemma sortSlice_Permutation (l : jobTasks) :
  sortSlice (taskLess nodes) l ≡ₚ l.
Proof. apply merge_sort_Permutation. Qed.

Lemma sortSlice_sorted (l : jobTasks) :
  StronglySorted (notAfter (taskLess nodes)) (sortSlice (taskLess nodes) l).
Proof. apply StronglySorted_merge_sort; apply _. Qed.
End task_order.

Section sorted_lists.
Context {A : Type} (R : relation A).

Lemma StronglySorted_lookup_2 (l : list A) :
  (∀ i j x y, (i < j)%nat → l !! i = Some x → l !! j = Some y → R x y) →
  StronglySorted R l.
Proof.
  induction l as [|x l IH]; intros Hl; constructor.
  - apply IH. intros i j y z Hij Hy Hz. by apply (Hl (S i) (S j)); [lia|..].
  - apply Forall_forall. intros y [j Hj]%list_elem_of_lookup.
    by apply (Hl 0%nat (S j)); [lia|..].
Qed.

Lemma StronglySorted_lookup_1 (l : list A) i j x y :
  StronglySorted R l → (i < j)%nat →
  l !! i = Some x → l !! j = Some y → R x y.
Proof.
  intros Hl. revert i j. induction Hl as [|z l _ IH Hz]; intros i j Hij Hx Hy;
    [done|].
  destruct j as [|j]; [lia|]. simpl in Hy. destruct i as [|i].
  - simpl in Hx. simplify_eq. rewrite Forall_forall in Hz.
    apply Hz. by eapply list_elem_of_lookup_2.
  - simpl in Hx. apply (IH i j); [lia|done..].
Qed.
End sorted_lists.

Section graph.
Implicit Types (jt : list jobTask.t) (t : jobTask.t) (n k : string)
  (nodes : gmap string tmpNode.t) (D : gmap string (gset string)).

Lemma depsMap_fst jt :
  ((λ t, (jobTask.Name t, depsOf t)) <$> jt).*1 = taskNames jt.
Proof. unfold taskNames. by rewrite <-list_fmap_compose. Qed.

Lemma depsMap_lookup jt n d :
  NoDup (taskNames jt) →
  depsMap jt !! n = Some d ↔
  ∃ t, t ∈ jt ∧ jobTask.Name t = n ∧ depsOf t = d.
Proof.
  intros Hnd. unfold depsMap.
  rewrite <-elem_of_list_to_map by by rewrite depsMap_fst.
  rewrite list_elem_of_fmap. split.
  - intros (t & Heq & Ht). simplify_eq. eauto.
  - intros (t & Ht & <- & <-). eauto.
Qed.

Lemma depsMap_lookup_None jt n :
  depsMap jt !! n = None ↔ n ∉ taskNames jt.
Proof.
  unfold depsMap. by rewrite <-not_elem_of_list_to_map, depsMap_fst.
Qed.

Lemma depsMap_is_Some jt n :
  is_Some (depsMap jt !! n) ↔ n ∈ taskNames jt.
Proof.
  rewrite <-not_eq_None_Some, depsMap_lookup_None.
  destruct (decide (n ∈ taskNames jt)); naive_solver.
Qed.

Lemma depsMap_size jt : NoDup (taskNames jt) → size (depsMap jt) = length jt.
Proof.
  intros Hnd. unfold depsMap. rewrite map_size_list_to_map.
  - by rewrite length_fmap.
  - by rewrite depsMap_fst.
Qed.

Lemma depsMap_Permutation jt jt' :
  NoDup (taskNames jt) → jt ≡ₚ jt' → depsMap jt = depsMap jt'.
Proof.
  intros Hnd Hp. unfold depsMap. apply list_to_map_proper.
  - by rewrite depsMap_fst.
  - by rewrite Hp.
Qed.

Lemma acyclicTasks_deps jt :
  NoDup (taskNames jt) → acyclicTasks jt → acyclicDeps (depsMap jt).
Proof.
  intros Hnd [rank Hrank]. exists rank. intros n d x Hn Hx.
  apply depsMap_lookup in Hn as (t & Ht & <- & <-); [|done].
  unfold depsOf in Hx. rewrite elem_of_list_to_set in Hx.
  destruct (Hrank t x Ht Hx) as [Hin Hlt]. split; [|done].
  by apply depsMap_is_Some.
Qed.

(** The graph as built: one node for each task, and on the queue the tasks
    that depend on nothing. *)
Lemma buildTmpGraph_snoc jt t :
  buildTmpGraph (jt ++ [t]) = addTmpNode (buildTmpGraph jt) t.
Proof. unfold buildTmpGraph. by rewrite foldl_app. Qed.

Lemma buildTmpGraph_nodes jt n :
  NoDup (taskNames jt) →
  (buildTmpGraph jt).1 !! n = (λ d, tmpNode.mk n d 0) <$> depsMap jt !! n.
Proof.
  induction jt as [|t jt IH] using rev_ind; intros Hnd.
  { unfold depsMap. simpl. by rewrite !lookup_empty. }
  unfold taskNames in Hnd. rewrite fmap_app in Hnd.
  apply NoDup_app in Hnd as (Hnd & Hnotin & _).
  rewrite buildTmpGraph_snoc. unfold addTmpNode. simpl.
  unfold depsMap. rewrite fmap_app. simpl.
  rewrite list_to_map_snoc.
  2:{ rewrite depsMap_fst. intros Hin. eapply Hnotin; [exact Hin|]. simpl. left. }
  destruct (decide (jobTask.Name t = n)) as [<-|Hne].
  - by rewrite !lookup_insert_eq.
  - rewrite !lookup_insert_ne by done. by apply IH.
Qed.

Lemma buildTmpGraph_queue jt :
  (buildTmpGraph jt).2
  = taskNames (filter (λ t, size (depsOf t) = 0%nat) jt).
Proof.
  induction jt as [|t jt IH] using rev_ind; [done|].
  rewrite buildTmpGraph_snoc, filter_app, filter_cons, filter_nil.
  unfold taskNames in *. rewrite fmap_app, <-IH.
  unfold addTmpNode. cbn [snd]. fold (depsOf t).
  destruct (decide (size (depsOf t) = 0%nat)); [done|].
  by rewrite app_nil_r.
Qed.

Lemma released_notin n (m : tmpNode.t) :
  n ∉ tmpNode.incoming m → released n m = m.
Proof.
  intros Hn. unfold released.
  assert (tmpNode.incoming m ∖ {[n]} = tmpNode.incoming m) as ->
    by by apply difference_disjoint_L, disjoint_singleton_r.
  by destruct m.
Qed.

Lemma releaseFrom_snoc n (st : tmpGraph) ks k :
  foldl (releaseFrom n) st (ks ++ [k])
  = releaseFrom n (foldl (releaseFrom n) st ks) k.
Proof. by rewrite foldl_app. Qed.

(** One pass over the nodes, for the name [n] taken from the queue. *)
Lemma releaseFrom_pass n nodes queue ks :
  NoDup ks →
  (∀ k m, nodes !! k = Some m → tmpNode.name m = k) →
  let st := foldl (releaseFrom n) (nodes, queue) ks in
  (∀ k, st.1 !! k = if decide (k ∈ ks) then released n <$> nodes !! k
                    else nodes !! k) ∧
  st.2 = queue ++ filter (releasedBy nodes n) ks.
Proof.
  intros Hnd Hname. simpl.
  induction ks as [|k0 ks IH] using rev_ind.
  { simpl. split; [|by rewrite app_nil_r].
    intros k. destruct (decide (k ∈ [])) as [Hk%elem_of_nil|]; done. }
  apply NoDup_app in Hnd as (Hnd & Hnotin & _).
  destruct (IH Hnd) as [IH1 IH2]. clear IH.
  assert (k0 ∉ ks) as Hk0.
  { intros Hin. eapply Hnotin; [exact Hin|]. left. }
  rewrite releaseFrom_snoc.
  destruct (foldl (releaseFrom n) (nodes, queue) ks) as [nodes' queue'] eqn:Hst.
  simpl in IH1, IH2.
  assert (nodes' !! k0 = nodes !! k0) as Hk0'.
  { rewrite IH1. by rewrite decide_False. }
  rewrite filter_app, filter_cons, filter_nil.
  assert (∀ k, k ≠ k0 →
    (if decide (k ∈ ks ++ [k0]) then released n <$> nodes !! k
     else nodes !! k) = nodes' !! k) as Hother.
  { intros k Hne. rewrite IH1.
    destruct (decide (k ∈ ks)) as [Hks|Hks].
    - rewrite decide_True by (apply elem_of_app; by left). done.
    - rewrite decide_False; [done|].
      rewrite elem_of_app, list_elem_of_singleton. by intros [?|?]. }
  assert (k0 ∈ ks ++ [k0]) as Hlast by (apply elem_of_app; right; left).
  destruct (nodes !! k0) as [m|] eqn:Hm.
  - assert (releasedBy nodes n k0 ↔
            n ∈ tmpNode.incoming m ∧
            size (tmpNode.incoming m ∖ {[n]}) = 0%nat) as Hrel.
    { unfold releasedBy. by rewrite Hm. }
    unfold releaseFrom. cbn [fst snd]. rewrite Hk0'.
    destruct (decide (n ∈ tmpNode.incoming m)) as [Hin|Hnin]; cbn [fst snd].
    + split.
      * intros k. destruct (decide (k = k0)) as [->|Hne].
        -- rewrite lookup_insert_eq, Hm. by rewrite decide_True.
        -- rewrite lookup_insert_ne by done. by rewrite Hother.
      * rewrite IH2. rewrite (Hname _ _ Hm).
        destruct (decide (size (tmpNode.incoming m ∖ {[n]}) = 0%nat)).
        -- rewrite decide_True by by apply Hrel. by rewrite <-app_assoc.
        -- rewrite decide_False by (rewrite Hrel; tauto).
           by rewrite app_nil_r.
    + split.
      * intros k. destruct (decide (k = k0)) as [->|Hne].
        -- rewrite decide_True by done. rewrite Hm, Hk0'. simpl.
           by rewrite released_notin.
        -- by rewrite Hother.
      * rewrite decide_False by (rewrite Hrel; tauto).
        by rewrite IH2, app_nil_r.
  - assert (¬ releasedBy nodes n k0) as Hrel.
    { unfold releasedBy. rewrite Hm. tauto. }
    unfold releaseFrom. cbn [fst snd]. rewrite Hk0'. cbn [fst snd]. split.
    + intros k. destruct (decide (k = k0)) as [->|Hne].
      * rewrite decide_True by done. by rewrite Hm, Hk0'.
      * by rewrite Hother.
    + rewrite decide_False by done. by rewrite IH2, app_nil_r.
Qed.
End graph.

Section kahn_sets.
Implicit Types (d S : gset string) (n : string).

Lemma last_edge_1 d S n :
  n ∈ d ∖ S → (d ∖ S) ∖ {[n]} ≡ ∅ → n ∈ d ∧ d ⊆ S ∪ {[n]}.
Proof.
  set_unfold. intros [Hd HS] Hempty. split; [done|]. intros x Hx.
  destruct (decide (x = n)); [by right|]. left.
  destruct (decide (x ∈ S)); [done|]. by destruct (Hempty x).
Qed.

Lemma last_edge_2 d S n :
  d ⊆ S ∪ {[n]} → (d ∖ S) ∖ {[n]} ≡ ∅.
Proof.
  set_unfold. intros Hsub x [[Hx HS] Hne]. by destruct (Hsub x Hx).
Qed.

Lemma edges_left d S n : (d ∖ S) ∖ {[n]} = d ∖ (S ∪ {[n]}).
Proof. apply set_eq. intros x. set_unfold. tauto. Qed.

Lemma ready_before d S n : d ⊆ S ∪ {[n]} → n ∉ d → d ⊆ S.
Proof.
  set_unfold. intros Hsub Hn x Hx.
  destruct (Hsub x Hx) as [?| ->]; [done|]. by destruct Hn.
Qed.

Lemma ready_after d S n : d ⊆ S → d ⊆ S ∪ {[n]}.
Proof. set_unfold. intros Hsub x Hx. left. by apply Hsub. Qed.

Lemma elem_of_listed (l : list string) d n :
  n ∈ d → d ⊆ list_to_set l → n ∈ l.
Proof. intros Hn Hsub. apply (elem_of_list_to_set (C:=gset string)). auto. Qed.
End kahn_sets.

Section kahn.
Context (rangeNodes : nat → list string → list string).
Context (Hrange : rangesOver rangeNodes).
Context (D : gmap string (gset string)).
Implicit Types (P queue : list string) (nodes : gmap string tmpNode.t)
  (n k x : string).

Lemma kahnState_name P nodes queue k m :
  kahnState D P nodes queue → nodes !! k = Some m → tmpNode.name m = k.
Proof.
  intros Hks Hm. destruct (D !! k) as [d|] eqn:Hd.
  - destruct (ks_nodes_Some _ _ _ _ Hks k d Hd) as (m' & Hm' & Hname & _).
    congruence.
  - by rewrite (ks_nodes_None _ _ _ _ Hks k Hd) in Hm.
Qed.

Lemma kahnState_dom P nodes queue k :
  kahnState D P nodes queue → is_Some (nodes !! k) ↔ is_Some (D !! k).
Proof.
  intros Hks. destruct (D !! k) as [d|] eqn:Hd.
  - destruct (ks_nodes_Some _ _ _ _ Hks k d Hd) as (m' & Hm' & _).
    rewrite Hm'. split; eauto.
  - rewrite (ks_nodes_None _ _ _ _ Hks k Hd). split; intros [? ?]; done.
Qed.

Lemma kahnState_length P nodes queue :
  kahnState D P nodes queue → (length P ≤ size D)%nat.
Proof.
  intros Hks.
  rewrite <-(size_list_to_set (C:=gset string) P) by apply (ks_nodup _ _ _ _ Hks).
  rewrite <-(size_dom (D:=gset string) D). apply subseteq_size.
  intros x Hx. apply elem_of_list_to_set in Hx. apply elem_of_dom.
  by apply (ks_processed _ _ _ _ Hks).
Qed.

(** One pass of the loop: the head of the queue is listed next. *)
Lemma kahnState_step P nodes n queue :
  kahnState D P nodes (n :: queue) →
  let nodes1 := alter (tmpNode.withOrder (Z.of_nat (length P))) n nodes in
  let st := foldl (releaseFrom n) (nodes1, queue)
                  (rangeNodes (length P) (elements (dom nodes1))) in
  kahnState D (P ++ [n]) st.1 (sortStrings st.2).
Proof.
  intros Hks nodes1.
  set (ks := rangeNodes (length P) (elements (dom nodes1))).
  assert (NoDup ks) as Hksnd.
  { unfold ks. rewrite (Hrange _ _). apply NoDup_elements. }
  assert (∀ k, k ∈ ks ↔ is_Some (D !! k)) as Hksdom.
  { intros k. unfold ks. rewrite (Hrange _ _), elem_of_elements.
    unfold nodes1. rewrite dom_alter_L, elem_of_dom.
    by eapply kahnState_dom. }
  assert (∃ dn, D !! n = Some dn ∧ (n ∉ P) ∧ dn ⊆ list_to_set P)
    as (dn & Hdn & HnP & Hdnsub).
  { apply (ks_queue _ _ _ _ Hks). left. }
  assert (∀ k d, D !! k = Some d →
    ∃ m1, nodes1 !! k = Some m1 ∧ tmpNode.name m1 = k ∧
          tmpNode.incoming m1 = d ∖ list_to_set P ∧
          (k = n → tmpNode.order m1 = Z.of_nat (length P)) ∧
          (k ≠ n → ∀ i, P !! i = Some k → tmpNode.order m1 = Z.of_nat i))
    as Hnodes1.
  { intros k d Hd.
    destruct (ks_nodes_Some _ _ _ _ Hks k d Hd) as (m & Hm & Hname & Hinc & Hord).
    unfold nodes1. destruct (decide (k = n)) as [->|Hne].
    - exists (tmpNode.withOrder (Z.of_nat (length P)) m).
      rewrite lookup_alter_eq, Hm. by split_and!.
    - exists m. rewrite lookup_alter_ne by done. by split_and!. }
  assert (∀ k m, nodes1 !! k = Some m → tmpNode.name m = k) as Hname1.
  { intros k m Hm. unfold nodes1 in Hm.
    destruct (decide (k = n)) as [->|Hne].
    - rewrite lookup_alter_eq in Hm.
      destruct (nodes !! n) as [m0|] eqn:Hm0; [|done]. simpl in Hm.
      simplify_eq. simpl. by eapply kahnState_name.
    - rewrite lookup_alter_ne in Hm by done. by eapply kahnState_name. }
  destruct (releaseFrom_pass n nodes1 queue ks Hksnd Hname1) as [Hst1 Hst2].
  fold ks. 
  set (st := foldl (releaseFrom n) (nodes1, queue) ks) in *.
  assert (∀ k d, D !! k = Some d →
     releasedBy nodes1 n k ↔
     n ∈ d ∧ d ⊆ list_to_set (P ++ [n]) ∧ (k ∉ P ++ [n]))
    as Hrel.
  { intros k d Hd.
    destruct (Hnodes1 k d Hd) as (m1 & Hm1 & _ & Hinc & _).
    unfold releasedBy. rewrite Hm1, Hinc, size_empty_iff.
    rewrite list_to_set_snoc_L. split.
    - intros [Hin Hempty].
      destruct (last_edge_1 _ _ _ Hin Hempty) as [Hnd Hsub].
      split_and!; [done|done|].
      rewrite elem_of_app, list_elem_of_singleton. intros [HkP| ->].
      + apply list_elem_of_lookup in HkP as [i Hi].
        pose proof (ks_consistent _ _ _ _ Hks i k d Hi Hd) as Hsub'.
        apply HnP. eapply subseteq_take. by eapply elem_of_listed.
      + simplify_eq. apply HnP. eapply elem_of_listed; [exact Hnd|done].
    - intros (Hin & Hsub & _). split; [|by apply last_edge_2].
      apply elem_of_difference. split; [done|].
      by rewrite elem_of_list_to_set. }
  assert (NoDup queue ∧ n ∉ queue) as [Hqnd Hnq].
  { pose proof (ks_queue_nodup _ _ _ _ Hks) as Hnd.
    apply NoDup_cons in Hnd. tauto. }
  constructor.
  - apply NoDup_app. split_and!; [apply (ks_nodup _ _ _ _ Hks)| |apply NoDup_singleton].
    intros x Hx ->%list_elem_of_singleton. done.
  - intros x [Hx| ->%list_elem_of_singleton]%elem_of_app; [|eauto].
    by apply (ks_processed _ _ _ _ Hks).
  - intros k Hd. rewrite Hst1.
    assert (nodes1 !! k = None) as Hnone.
    { unfold nodes1. rewrite lookup_alter_ne by congruence.
      by apply (ks_nodes_None _ _ _ _ Hks). }
    rewrite Hnone. by destruct (decide (k ∈ ks)).
  - intros k d Hd.
    destruct (Hnodes1 k d Hd) as (m1 & Hm1 & Hname & Hinc & Hordn & Hord).
    exists (released n m1). rewrite Hst1.
    rewrite decide_True by (apply Hksdom; eauto). rewrite Hm1.
    split_and!; [done|done| |].
    + simpl. rewrite Hinc, list_to_set_snoc_L. apply edges_left.
    + intros i [[Hlt Hi]|[-> <-]]%lookup_snoc_Some.
      * simpl. apply Hord; [|done]. intros ->. apply HnP.
        by eapply list_elem_of_lookup_2.
      * simpl. by apply Hordn.
  - apply sortStrings_sorted.
  - apply sortStrings_NoDup. rewrite Hst2. apply NoDup_app. split_and!.
    + done.
    + intros x Hx [Hr Hxks]%list_elem_of_filter.
      destruct (proj1 (ks_queue _ _ _ _ Hks x)) as (d & Hd & _ & Hsub);
        [by right|].
      apply (Hrel x d Hd) in Hr as (Hin & _). apply HnP.
      by eapply elem_of_listed.
    + by apply NoDup_filter.
  - intros x. rewrite sortStrings_elem_of, Hst2, elem_of_app,
      list_elem_of_filter. split.
    + intros [Hx|[Hr Hxks]].
      * destruct (proj1 (ks_queue _ _ _ _ Hks x)) as (d & Hd & HxP & Hsub);
          [by right|].
        exists d. split_and!; [done| |].
        -- rewrite elem_of_app, list_elem_of_singleton.
           intros [?| ->]; done.
        -- rewrite list_to_set_snoc_L. by apply ready_after.
      * apply Hksdom in Hxks as [d Hd]. exists d.
        apply (Hrel x d Hd) in Hr. tauto.
    + intros (d & Hd & HxP & Hsub).
      destruct (decide (n ∈ d)) as [Hin|Hnin].
      * right. split; [by apply (Hrel x d Hd)|]. apply Hksdom. eauto.
      * left. rewrite elem_of_app, list_elem_of_singleton in HxP.
        assert (x ∈ n :: queue) as Hx.
        { apply (ks_queue _ _ _ _ Hks). exists d. split_and!; [done|tauto|].
          rewrite list_to_set_snoc_L in Hsub. by eapply ready_before. }
        apply elem_of_cons in Hx as [->|Hx]; [tauto|done].
  - intros i k d [[Hlt Hi]|[-> <-]]%lookup_snoc_Some Hd.
    + rewrite take_app_le by lia. by eapply (ks_consistent _ _ _ _ Hks).
    + rewrite take_app_length. by simplify_eq.
  - intros i k m d [[Hlt Hi]|[-> <-]]%lookup_snoc_Some Hd.
    + rewrite take_app_le by lia. by eapply (ks_greedy _ _ _ _ Hks).
    + rewrite take_app_length. intros HmP Hsub.
      assert (m ∈ n :: queue) as Hm.
      { apply (ks_queue _ _ _ _ Hks). eauto. }
      apply elem_of_cons in Hm as [->|Hm]; [reflexivity|].
      pose proof (ks_sorted _ _ _ _ Hks) as Hsorted.
      apply StronglySorted_inv in Hsorted as [_ Hall].
      rewrite Forall_forall in Hall. by apply Hall.
Qed.

(** The loop ends with the queue empty. *)
Lemma kahnLoop_state fuel : ∀ P nodes queue,
  kahnState D P nodes queue →
  (size D ≤ length P + fuel)%nat →
  ∃ P', kahnState D P' (kahnLoop rangeNodes fuel nodes queue (length P)) [].
Proof.
  induction fuel as [|fuel IH]; intros P nodes queue Hks Hfuel.
  - destruct queue as [|n queue]; [by exists P|].
    pose proof (kahnState_length _ _ _ (kahnState_step _ _ _ _ Hks)) as Hlen.
    rewrite length_app in Hlen. simpl in Hlen. lia.
  - destruct queue as [|n queue]; [by exists P|].
    pose proof (kahnState_step _ _ _ _ Hks) as Hstep. simpl in Hstep.
    apply IH in Hstep; [|rewrite length_app; simpl; lia].
    rewrite length_app, Nat.add_1_r in Hstep. exact Hstep.
Qed.

(** When the tasks form an acyclic graph, the loop lists every task. *)
Lemma kahnState_complete P nodes :
  kahnState D P nodes [] → acyclicDeps D → ∀ n, is_Some (D !! n) → n ∈ P.
Proof.
  intros Hks [rank Hrank].
  assert (∀ b n, (rank n < b)%nat → is_Some (D !! n) → n ∈ P) as Hall.
  { induction b as [|b IH]; intros n Hb [d Hd]; [lia|].
    destruct (decide (n ∈ P)) as [|HnP]; [done|].
    assert (n ∈ []) as Hn; [|by apply elem_of_nil in Hn].
    apply (ks_queue _ _ _ _ Hks). exists d. split_and!; [done|done|].
    intros x Hx. apply elem_of_list_to_set.
    destruct (Hrank n d x Hd Hx) as [Hsome Hlt]. apply IH; [lia|done]. }
  intros n. by apply (Hall (S (rank n))); lia.
Qed.

Lemma kahnState_topoGreedy P nodes :
  kahnState D P nodes [] → acyclicDeps D → topoGreedy D P.
Proof.
  intros Hks Hacyclic. split_and!.
  - apply (ks_nodup _ _ _ _ Hks).
  - intros n. split; [apply (ks_processed _ _ _ _ Hks)|].
    by apply (kahnState_complete P nodes).
  - apply (ks_consistent _ _ _ _ Hks).
  - apply (ks_greedy _ _ _ _ Hks).
Qed.

Lemma kahnState_orderOf P nodes queue (i : nat) n :
  kahnState D P nodes queue → P !! i = Some n →
  orderOf nodes n = Z.of_nat i.
Proof.
  intros Hks Hi.
  destruct (ks_processed _ _ _ _ Hks n) as [d Hd];
    [by eapply list_elem_of_lookup_2|].
  destruct (ks_nodes_Some _ _ _ _ Hks n d Hd) as (m & Hm & _ & _ & Hord).
  unfold orderOf. rewrite Hm. simpl. by apply Hord.
Qed.
End kahn.

Section topo_unique.
Context (D : gmap string (gset string)).

Lemma topoGreedy_take P1 P2 k :
  topoGreedy D P1 → topoGreedy D P2 → take k P1 = take k P2.
Proof.
  intros (Hnd1 & Hdom1 & Hcons1 & Hgreedy1) (Hnd2 & Hdom2 & Hcons2 & Hgreedy2).
  assert (length P1 = length P2) as Hlen.
  { apply Permutation_length, NoDup_Permutation; [done..|].
    intros x. by rewrite Hdom1, Hdom2. }
  assert (∀ (P : list string) (k : nat) (n : string),
            NoDup P → P !! k = Some n → n ∉ take k P) as Hfresh.
  { intros P i n Hnd Hi (j & Hj & Hlt)%elem_of_take.
    pose proof (NoDup_lookup _ _ _ _ Hnd Hi Hj). lia. }
  induction k as [|k IH]; [done|].
  destruct (decide (k < length P1)%nat) as [Hlt|Hge].
  - destruct (lookup_lt_is_Some_2 P1 k Hlt) as [n1 Hn1].
    destruct (lookup_lt_is_Some_2 P2 k) as [n2 Hn2]; [lia|].
    rewrite (take_S_r _ _ _ Hn1), (take_S_r _ _ _ Hn2), IH.
    do 2 f_equal.
    destruct (proj1 (Hdom1 n1)) as [d1 Hd1]; [by eapply list_elem_of_lookup_2|].
    destruct (proj1 (Hdom2 n2)) as [d2 Hd2]; [by eapply list_elem_of_lookup_2|].
    apply (anti_symm strLe).
    + apply (Hgreedy1 k n1 n2 d2 Hn1 Hd2).
      * rewrite IH. by apply Hfresh.
      * rewrite IH. by apply (Hcons2 k n2).
    + apply (Hgreedy2 k n2 n1 d1 Hn2 Hd1).
      * rewrite <-IH. by apply Hfresh.
      * rewrite <-IH. by apply (Hcons1 k n1).
  - rewrite !take_ge in IH |- * by lia. done.
Qed.

(** There is one such list. *)
Lemma topoGreedy_unique P1 P2 : topoGreedy D P1 → topoGreedy D P2 → P1 = P2.
Proof.
  intros H1 H2.
  pose proof (topoGreedy_take P1 P2 (length P1 `max` length P2) H1 H2) as Heq.
  by rewrite !take_ge in Heq by lia.
Qed.
End topo_unique.

Section fmap_inj.
Context {A B : Type} (f : A → B).

Lemma NoDup_fmap_inj_on (l : list A) x y :
  NoDup (f <$> l) → x ∈ l → y ∈ l → f x = f y → x = y.
Proof.
  intros Hnd [i Hi]%list_elem_of_lookup [j Hj]%list_elem_of_lookup Heq.
  assert (i = j) as ->; [|congruence].
  apply (NoDup_lookup _ _ _ (f x) Hnd).
  - by rewrite list_lookup_fmap, Hi.
  - by rewrite list_lookup_fmap, Hj, Heq.
Qed.

Lemma fmap_inj_on (l1 l2 : list A) :
  (∀ x y, x ∈ l1 → y ∈ l2 → f x = f y → x = y) →
  f <$> l1 = f <$> l2 → l1 = l2.
Proof.
  revert l2. induction l1 as [|x l1 IH]; intros [|y l2] Hinj Heq;
    simplify_eq/=; [done|].
  f_equal.
  - apply Hinj; [left|left|done].
  - apply IH; [|done]. intros x' y' ? ?. apply Hinj; by right.
Qed.
End fmap_inj.

Section sort_tasks.
Context (rangeNodes : nat → list string → list string).
Context (Hrange : rangesOver rangeNodes).
Implicit Types (jt : list jobTask.t) (t u : jobTask.t).

Lemma kahnState_init jt :
  NoDup (taskNames jt) →
  kahnState (depsMap jt) [] (buildTmpGraph jt).1
    (sortStrings (buildTmpGraph jt).2).
Proof.
  intros Hnd. constructor.
  - constructor.
  - intros n Hn. by apply elem_of_nil in Hn.
  - intros n Hd. rewrite buildTmpGraph_nodes by done. by rewrite Hd.
  - intros n d Hd. exists (tmpNode.mk n d 0).
    rewrite buildTmpGraph_nodes by done. rewrite Hd.
    split_and!; [done|done| |done].
    simpl. by rewrite difference_empty_L.
  - apply sortStrings_sorted.
  - apply sortStrings_NoDup. rewrite buildTmpGraph_queue.
    apply NoDup_fmap_2_strong.
    + intros x y [_ Hx]%list_elem_of_filter [_ Hy]%list_elem_of_filter.
      by apply (NoDup_fmap_inj_on jobTask.Name jt).
    + apply NoDup_filter. by eapply NoDup_fmap_1.
  - intros n. rewrite sortStrings_elem_of, buildTmpGraph_queue.
    unfold taskNames at 1. rewrite list_elem_of_fmap. split.
    + intros (t & -> & [Hsz Ht]%list_elem_of_filter). exists (depsOf t).
      split_and!.
      * apply depsMap_lookup; eauto.
      * apply not_elem_of_nil.
      * apply size_empty_iff in Hsz. rewrite Hsz. apply empty_subseteq.
    + intros (d & Hd & _ & Hsub).
      apply depsMap_lookup in Hd as (t & Ht & <- & <-); [|done].
      exists t. split; [done|]. apply list_elem_of_filter. split; [|done].
      apply size_empty_iff. rewrite list_to_set_nil in Hsub.
      apply equiv_empty. exact Hsub.
  - intros k n d Hk. done.
  - intros k n m d Hk. done.
Qed.

Lemma taskNames_sortSlice nodes jt :
  taskNames (sortSlice (taskLess nodes) jt) ≡ₚ taskNames jt.
Proof. unfold taskNames. apply fmap_Permutation, sortSlice_Permutation. Qed.

(** The names of the sorted tasks are the list of the loop. *)
Lemma sortTasksByDependencies_topoGreedy jt :
  NoDup (taskNames jt) → acyclicTasks jt →
  topoGreedy (depsMap jt)
    (taskNames (sortTasksByDependencies rangeNodes jt)).
Proof.
  intros Hnd Hacyclic.
  apply acyclicTasks_deps in Hacyclic; [|done].
  destruct (kahnLoop_state rangeNodes Hrange (depsMap jt) (2 * length jt)
              [] _ _ (kahnState_init jt Hnd)) as [P HP].
  { rewrite depsMap_size by done. simpl. lia. }
  change (kahnState (depsMap jt) P (tmpNodesOf rangeNodes jt) []) in HP.
  pose proof (kahnState_topoGreedy _ _ _ HP Hacyclic) as Htopo.
  assert (taskNames (sortTasksByDependencies rangeNodes jt) = P) as ->;
    [|done].
  destruct Htopo as (HndP & HdomP & _ & _).
  set (nodes := tmpNodesOf rangeNodes jt) in *.
  unfold sortTasksByDependencies. fold nodes.
  apply (StronglySorted_unique_strong
           (λ a b, orderOf nodes a ≤ orderOf nodes b)).
  - intros x1 x2 Hx1 [i2 Hi2]%list_elem_of_lookup Hle1 Hle2.
    assert (x1 ∈ P) as [i1 Hi1]%list_elem_of_lookup.
    { apply HdomP, depsMap_is_Some. by rewrite <-(taskNames_sortSlice nodes). }
    rewrite (kahnState_orderOf _ _ _ _ _ _ HP Hi1),
      (kahnState_orderOf _ _ _ _ _ _ HP Hi2) in Hle1, Hle2.
    assert (i1 = i2) as -> by lia. congruence.
  - eapply StronglySorted_fmap; [|apply sortSlice_sorted].
    intros a b Hab. apply notAfter_taskLess in Hab. lia.
  - apply StronglySorted_lookup_2. intros i j x y Hij Hx Hy.
    rewrite (kahnState_orderOf _ _ _ _ _ _ HP Hx),
      (kahnState_orderOf _ _ _ _ _ _ HP Hy). lia.
  - apply NoDup_Permutation.
    + by rewrite taskNames_sortSlice.
    + done.
    + intros x. by rewrite taskNames_sortSlice, HdomP, depsMap_is_Some.
Qed.
End sort_tasks.

Section sorted_tasks.
Implicit Types (jt : list jobTask.t) (t u : jobTask.t).

Lemma acyclicTasks_Permutation jt jt' :
  jt ≡ₚ jt' → acyclicTasks jt → acyclicTasks jt'.
Proof.
  intros Hp [rank Hrank]. exists rank. intros t d Ht Hd.
  rewrite <-Hp in Ht. destruct (Hrank t d Ht Hd) as [Hin Hlt].
  split; [|done]. unfold taskNames in *. by rewrite <-Hp.
Qed.

Lemma sorted_task_deps rangeNodes jt t :
  NoDup (taskNames jt) →
  t ∈ sortTasksByDependencies rangeNodes jt →
  depsMap jt !! jobTask.Name t = Some (depsOf t).
Proof.
  intros Hnd Ht. apply depsMap_lookup; [done|]. exists t.
  split; [|done]. unfold sortTasksByDependencies in Ht.
  by rewrite sortSlice_Permutation in Ht.
Qed.

Lemma sortTasksByDependencies_Permutation rangeNodes jt :
  sortTasksByDependencies rangeNodes jt ≡ₚ jt.
Proof. apply sortSlice_Permutation. Qed.

(** The names of the result are fixed by the set of the tasks. *)
Lemma sortTasksByDependencies_names rangeNodes1 rangeNodes2 jt jt' :
  rangesOver rangeNodes1 →
  rangesOver rangeNodes2 →
  NoDup (taskNames jt) →
  acyclicTasks jt →
  jt ≡ₚ jt' →
  taskNames (sortTasksByDependencies rangeNodes1 jt)
  = taskNames (sortTasksByDependencies rangeNodes2 jt').
Proof.
  intros Hrange1 Hrange2 Hnd Hacyclic Hp.
  assert (NoDup (taskNames jt')) as Hnd'.
  { unfold taskNames in *. by rewrite <-Hp. }
  pose proof (sortTasksByDependencies_topoGreedy rangeNodes1 Hrange1 jt Hnd
                Hacyclic) as H1.
  pose proof (sortTasksByDependencies_topoGreedy rangeNodes2 Hrange2 jt' Hnd'
                (acyclicTasks_Permutation _ _ Hp Hacyclic)) as H2.
  rewrite <-(depsMap_Permutation jt jt' Hnd Hp) in H2.
  exact (topoGreedy_unique _ _ _ H1 H2).
Qed.

(** X1.  When the tasks have different names and their dependencies form
    an acyclic graph, [sortTasksByDependencies] puts every task after the
    tasks it depends on, in whatever order Go ranges over [tmpNodes]. *)
Theorem sortTasksByDependencies_dependencies_first rangeNodes jt i t d :
  rangesOver rangeNodes →
  NoDup (taskNames jt) →
  acyclicTasks jt →
  sortTasksByDependencies rangeNodes jt !! i = Some t →
  d ∈ definition.DependsOn (jobTask.TaskDef t) →
  ∃ j u, (j < i)%nat ∧
         sortTasksByDependencies rangeNodes jt !! j = Some u ∧
         jobTask.Name u = d.
Proof.
  intros Hrange Hnd Hacyclic Hi Hd.
  destruct (sortTasksByDependencies_topoGreedy rangeNodes Hrange jt Hnd
              Hacyclic) as (_ & _ & Hcons & _).
  assert (d ∈ take i (taskNames (sortTasksByDependencies rangeNodes jt)))
    as (j & Hj & Hlt)%elem_of_take.
  { apply (elem_of_listed _ (depsOf t)).
    - unfold depsOf. by apply elem_of_list_to_set.
    - apply (Hcons i (jobTask.Name t)).
      + apply list_lookup_fmap_Some. exists t. split; [done|exact Hi].
      + apply (sorted_task_deps rangeNodes); [done|].
        by eapply list_elem_of_lookup_2. }
  unfold taskNames in Hj.
  apply list_lookup_fmap_Some in Hj as (u & -> & Hu). eauto.
Qed.

(** X2.  When the tasks have different names and their dependencies form
    an acyclic graph, the task [sortTasksByDependencies] puts at a place
    is the one with the least name among the tasks not placed before it
    whose dependencies are all placed before it. *)
Theorem sortTasksByDependencies_least_name_first rangeNodes jt i t u :
  rangesOver rangeNodes →
  NoDup (taskNames jt) →
  acyclicTasks jt →
  sortTasksByDependencies rangeNodes jt !! i = Some t →
  u ∈ jt →
  u ∉ take i (sortTasksByDependencies rangeNodes jt) →
  (∀ d, d ∈ definition.DependsOn (jobTask.TaskDef u) →
        d ∈ taskNames (take i (sortTasksByDependencies rangeNodes jt))) →
  strLe (jobTask.Name t) (jobTask.Name u).
Proof.
  intros Hrange Hnd Hacyclic Hi Hu Hnot Hdeps.
  destruct (sortTasksByDependencies_topoGreedy rangeNodes Hrange jt Hnd
              Hacyclic) as (_ & _ & _ & Hgreedy).
  set (sorted := sortTasksByDependencies rangeNodes jt) in *.
  assert (take i (taskNames sorted) = taskNames (take i sorted)) as Htake.
  { unfold taskNames. by rewrite fmap_take. }
  apply (Hgreedy i (jobTask.Name t) (jobTask.Name u) (depsOf u)).
  - apply list_lookup_fmap_Some. exists t. split; [done|exact Hi].
  - apply depsMap_lookup; eauto.
  - rewrite Htake. unfold taskNames.
    intros (u' & Heq & Hu')%list_elem_of_fmap. apply Hnot.
    assert (u = u') as ->; [|done].
    apply (NoDup_fmap_inj_on jobTask.Name jt); [done|done| |done].
    apply subseteq_take in Hu'. unfold sorted in Hu'.
    by rewrite sortTasksByDependencies_Permutation in Hu'.
  - rewrite Htake. intros d Hd. apply elem_of_list_to_set.
    apply Hdeps. unfold depsOf in Hd. by apply elem_of_list_to_set in Hd.
Qed.

(** X3.  When the tasks have different names and their dependencies form
    an acyclic graph, the result of [sortTasksByDependencies] depends
    neither on the order in which Go ranges over [tmpNodes] nor on the
    order in which the tasks are given. *)
Theorem sortTasksByDependencies_order_independent
    rangeNodes1 rangeNodes2 jt jt' :
  rangesOver rangeNodes1 →
  rangesOver rangeNodes2 →
  NoDup (taskNames jt) →
  acyclicTasks jt →
  jt ≡ₚ jt' →
  sortTasksByDependencies rangeNodes1 jt
  = sortTasksByDependencies rangeNodes2 jt'.
Proof.
  intros Hrange1 Hrange2 Hnd Hacyclic Hp.
  apply (fmap_inj_on jobTask.Name).
  - intros x y Hx Hy.
    rewrite sortTasksByDependencies_Permutation in Hx.
    rewrite sortTasksByDependencies_Permutation, <-Hp in Hy.
    by apply (NoDup_fmap_inj_on jobTask.Name jt).
  - by apply sortTasksByDependencies_names.
Qed.
End sorted_tasks.

(** *** The tasks of a new job *)

Section build_job_tasks.
Context (tasks : gmap string definition.TaskDef).
Context (rangeTasks : list (string * definition.TaskDef) →
                      list (string * definition.TaskDef)).
Context (Htasks : rangesOverTasks rangeTasks).

Lemma newJobTasks_names (l : list (string * definition.TaskDef)) :
  taskNames (newJobTask <$> l) = l.*1.
Proof. unfold taskNames. rewrite <-list_fmap_compose. done. Qed.

Lemma newJobTasks_Permutation :
  newJobTask <$> rangeTasks (map_to_list tasks)
  ≡ₚ newJobTask <$> map_to_list tasks.
Proof. by rewrite (Htasks _). Qed.

Lemma newJobTasks_NoDup :
  NoDup (taskNames (newJobTask <$> map_to_list tasks)).
Proof. rewrite newJobTasks_names. apply NoDup_fst_map_to_list. Qed.

Lemma newJobTasks_acyclic :
  acyclicTaskMap tasks →
  acyclicTasks (newJobTask <$> map_to_list tasks).
Proof.
  intros [rank Hrank]. exists rank. intros t d Ht Hd.
  apply list_elem_of_fmap in Ht as ([name taskDef] & -> & Hin).
  apply elem_of_map_to_list in Hin. simpl in *.
  destruct (Hrank name taskDef d Hin Hd) as [[taskDef' Hd'] Hlt].
  split; [|done]. rewrite newJobTasks_names.
  apply list_elem_of_fmap. exists (d, taskDef'). split; [done|].
  by apply elem_of_map_to_list.
Qed.

(** X4.  [buildJobTasks] returns one task for each entry of the task map
    of the definition, and nothing else, also when the dependencies form
    a cycle or name a task that does not exist: the task has the name and
    the definition of the entry, the status "waiting" and no start, end,
    exit code or error. *)
Theorem buildJobTasks_one_task_per_entry rangeNodes :
  rangesOverTasks rangeTasks →
  NoDup (taskNames (buildJobTasks rangeTasks rangeNodes tasks)) ∧
  length (buildJobTasks rangeTasks rangeNodes tasks) = size tasks ∧
  ∀ t, t ∈ buildJobTasks rangeTasks rangeNodes tasks ↔
       ∃ name taskDef,
         tasks !! name = Some taskDef ∧
         t = jobTask.mk taskDef name "waiting" None None false 0 false None.
Proof.
  intros _.
  assert (buildJobTasks rangeTasks rangeNodes tasks
          ≡ₚ newJobTask <$> map_to_list tasks) as Hp.
  { unfold buildJobTasks.
    rewrite sortTasksByDependencies_Permutation.
    apply newJobTasks_Permutation. }
  split_and!.
  - unfold taskNames. rewrite Hp. apply newJobTasks_NoDup.
  - rewrite Hp, length_fmap. by rewrite length_map_to_list.
  - intros t. rewrite Hp, list_elem_of_fmap. split.
    + intros ([name taskDef] & -> & Hin%elem_of_map_to_list). eauto.
    + intros (name & taskDef & Hin & ->). exists (name, taskDef).
      split; [done|]. by apply elem_of_map_to_list.
Qed.

(** X5.  When the dependencies of the tasks of a definition form an
    acyclic graph, the task list [buildJobTasks] gives a new job depends
    neither on the order in which Go ranges over the task map nor on the
    order in which it ranges over [tmpNodes]. *)
Theorem buildJobTasks_order_independent
    rangeTasks' rangeNodes rangeNodes' :
  rangesOverTasks rangeTasks →
  rangesOverTasks rangeTasks' →
  rangesOver rangeNodes →
  rangesOver rangeNodes' →
  acyclicTaskMap tasks →
  buildJobTasks rangeTasks rangeNodes tasks
  = buildJobTasks rangeTasks' rangeNodes' tasks.
Proof.
  intros _ Htasks' Hnodes Hnodes' Hacyclic. unfold buildJobTasks.
  assert (newJobTask <$> rangeTasks (map_to_list tasks)
          ≡ₚ newJobTask <$> rangeTasks' (map_to_list tasks)) as Hp.
  { by rewrite (Htasks _), (Htasks' _). }
  assert (NoDup (taskNames (newJobTask <$> rangeTasks (map_to_list tasks))))
    as Hnd.
  { unfold taskNames. rewrite newJobTasks_Permutation.
    apply newJobTasks_NoDup. }
  apply (fmap_inj_on jobTask.Name).
  - intros x y Hx Hy.
    rewrite sortTasksByDependencies_Permutation in Hx.
    rewrite sortTasksByDependencies_Permutation, <-Hp in Hy.
    by eapply (NoDup_fmap_inj_on jobTask.Name).
  - apply sortTasksByDependencies_names; [done|done|done| |done].
    eapply acyclicTasks_Permutation;
      [symmetry; apply newJobTasks_Permutation|].
    by apply newJobTasks_acyclic.
Qed.
End build_job_tasks.

(** *** The order of tasks, on four tasks *)

Lemma rangeBack_rangesOver : rangesOver (λ _, rangeBack).
Proof. intros i ks. apply reverse_Permutation. Qed.

Lemma rangeForth_rangesOver : rangesOver (λ _, rangeForth).
Proof. by intros i ks. Qed.

Lemma rangeBack_rangesOverTasks : rangesOverTasks rangeBack.
Proof. intros l. apply reverse_Permutation. Qed.

Lemma rangeForth_rangesOverTasks : rangesOverTasks rangeForth.
Proof. by intros l. Qed.

Lemma demoTaskMap_acyclic : acyclicTaskMap demoTaskMap.
Proof.
  exists demoRank. intros name taskDef d Hname Hd.
  apply elem_of_map_to_list in Hname.
  let l := eval vm_compute in (map_to_list demoTaskMap) in
  change (map_to_list demoTaskMap) with l in Hname.
  repeat (apply elem_of_cons in Hname as [Hname|Hname]);
    try (by apply elem_of_nil in Hname); simplify_eq; simpl in Hd;
    repeat (apply elem_of_cons in Hd as [->|Hd]);
    try (by apply elem_of_nil in Hd);
    (split; [eexists; by vm_compute|vm_compute; lia]).
Qed.

Lemma demoJobTasks_NoDup : NoDup (taskNames demoJobTasks).
Proof. apply (newJobTasks_NoDup demoTaskMap). Qed.

Lemma demoJobTasks_acyclic : acyclicTasks demoJobTasks.
Proof. apply newJobTasks_acyclic, demoTaskMap_acyclic. Qed.

(** X1 on the four tasks: [a], on which [c] depends, stands before the
    third place, where [c] stands. *)
Lemma sortTasksByDependencies_dependencies_first_demo :
  ∃ j u, (j < 2)%nat ∧
         sortTasksByDependencies (λ _, rangeBack) demoJobTasks !! j = Some u ∧
         jobTask.Name u = "a".
Proof.
  apply (sortTasksByDependencies_dependencies_first (λ _, rangeBack)
           demoJobTasks 2
           (newJobTask ("c", definition.mkTaskDef ["make c"] ["a"; "b"] false))
           "a").
  - exact rangeBack_rangesOver.
  - exact demoJobTasks_NoDup.
  - exact demoJobTasks_acyclic.
  - by vm_compute.
  - simpl. demo_elem_of.
Defined.

(** X2 on the four tasks: once [b] is placed, [a] and [d] can be placed,
    and [a] is: its name is the lesser one. *)
Lemma sortTasksByDependencies_least_name_first_demo :
  sortTasksByDependencies (λ _, rangeBack) demoJobTasks !! 1%nat
  = Some (newJobTask ("a", definition.mkTaskDef ["make a"] ["b"] false)) ∧
  strLe "a" "d".
Proof.
  split; [by vm_compute|].
  apply (sortTasksByDependencies_least_name_first (λ _, rangeBack)
           demoJobTasks 1
           (newJobTask ("a", definition.mkTaskDef ["make a"] ["b"] false))
           (newJobTask ("d", definition.mkTaskDef ["make d"] [] false))).
  - exact rangeBack_rangesOver.
  - exact demoJobTasks_NoDup.
  - exact demoJobTasks_acyclic.
  - by vm_compute.
  - vm_compute. demo_elem_of.
  - vm_compute. intros Hin.
    repeat (apply elem_of_cons in Hin as [Hin|Hin]); try done.
    by apply elem_of_nil in Hin.
  - simpl. intros d Hd. by apply elem_of_nil in Hd.
Defined.

(** X3 on the four tasks: ranging forth or back, over the tasks as given
    or in the opposite order, gives the same list. *)
Lemma sortTasksByDependencies_order_independent_demo :
  sortTasksByDependencies (λ _, rangeForth) demoJobTasks
  = sortTasksByDependencies (λ _, rangeBack) (reverse demoJobTasks).
Proof.
  apply sortTasksByDependencies_order_independent.
  - exact rangeForth_rangesOver.
  - exact rangeBack_rangesOver.
  - exact demoJobTasks_NoDup.
  - exact demoJobTasks_acyclic.
  - symmetry. apply reverse_Permutation.
Defined.

(** X4 on the four tasks: four tasks are built. *)
Lemma buildJobTasks_one_task_per_entry_demo :
  length (buildJobTasks rangeBack (λ _, rangeBack) demoTaskMap) = 4%nat.
Proof.
  destruct (buildJobTasks_one_task_per_entry demoTaskMap rangeBack
              rangeBack_rangesOverTasks (λ _, rangeBack)
              rangeBack_rangesOverTasks) as (_ & Hlen & _).
  exact Hlen.
Defined.

(** X5 on the four tasks. *)
Lemma buildJobTasks_order_independent_demo :
  buildJobTasks rangeForth (λ _, rangeForth) demoTaskMap
  = buildJobTasks rangeBack (λ _, rangeBack) demoTaskMap.
Proof.
  apply buildJobTasks_order_independent.
  - exact rangeForth_rangesOverTasks.
  - exact rangeForth_rangesOverTasks.
  - exact rangeBack_rangesOverTasks.
  - exact rangeForth_rangesOver.
  - exact rangeBack_rangesOver.
  - exact demoTaskMap_acyclic.
Defined.

(** *** What the operations keep *)

Section register.
Context (w : World).
Implicit Types (r : pipelineRunner.t) (pipeline : string) (job : nat).

Lemma laterJob_refl j : laterJob j j.
Proof. by repeat split. Qed.

Lemma laterJob_trans j1 j2 j3 : laterJob j1 j2 → laterJob j2 j3 → laterJob j1 j3.
Proof.
  intros (?&?&?&?&?&?&?&?) (?&?&?&?&?&?&?&?).
  repeat split; try congruence; auto.
Qed.

Lemma keepsRegister_refl r : keepsRegister r r.
Proof.
  split_and!; [done| |done|done].
  intros job j Hj. exists j. split; [done|apply laterJob_refl].
Qed.

Lemma keepsRegister_trans r1 r2 r3 :
  keepsRegister r1 r2 → keepsRegister r2 r3 → keepsRegister r1 r3.
Proof.
  intros (Hd12 & Hh12 & Hi12 & Hp12) (Hd23 & Hh23 & Hi23 & Hp23).
  split_and!.
  - congruence.
  - intros job j Hj.
    destruct (Hh12 job j Hj) as (j2 & Hj2 & Hl2).
    destruct (Hh23 job j2 Hj2) as (j3 & Hj3 & Hl3).
    exists j3. split; [done|by eapply laterJob_trans].
  - auto.
  - intros p. etrans; [apply Hp12|apply Hp23].
Qed.

(** A runner that differs in its heap only, by writes that take nothing
    back. *)
Lemma keepsRegister_updateJob f job0 r :
  (∀ j, laterJob j (f j)) → keepsRegister r (updateJob f job0 r).
Proof.
  intros Hf. split_and!; [done| |done|done].
  intros job j Hj. simpl.
  destruct (decide (job0 = job)) as [->|Hne].
  - exists (f j). rewrite list_lookup_alter_eq, Hj. by split.
  - exists j. rewrite list_lookup_alter_ne by done.
    split; [done|apply laterJob_refl].
Qed.

Lemma keepsRegister_same r r' :
  defs r' = defs r → heap r' = heap r → jobsByID r' = jobsByID r →
  jobsByPipeline r' = jobsByPipeline r → keepsRegister r r'.
Proof.
  intros Hd Hh Hi Hp. split_and!; [done| | |].
  - intros job j Hj. exists j. rewrite Hh. split; [done|apply laterJob_refl].
  - intros id. by rewrite Hi.
  - intros p. unfold jobsOf. by rewrite Hp.
Qed.

Lemma keepsRegister_launchJob job r : keepsRegister r (launchJob w job r).
Proof.
  eapply keepsRegister_trans;
    [apply (keepsRegister_updateJob
              (pipelineJob.withStart (Some (timeNow w (clock r)))) job);
     by repeat split|].
  by apply keepsRegister_same.
Qed.

Lemma keepsRegister_failJob err job r : keepsRegister r (failJob err job r).
Proof. apply keepsRegister_updateJob. intros j. by repeat split. Qed.

Lemma startJob_waitListLoop_keepsRegister fuel :
  (∀ r job r', startJob w fuel r job = Some r' → keepsRegister r r') ∧
  (∀ r pipeline waitList r',
      waitListLoop w fuel r pipeline waitList = Some r' →
      keepsRegister r r').
Proof.
  induction fuel as [|fuel [IHstart IHloop]]; [by split|]. split.
  - intros r job r' Hrun. simpl in Hrun.
    destruct (heap r !! job) as [j|]; [|done].
    destruct (buildPipelineGraph w _ _) as [graph|err].
    + simplify_eq.
      eapply keepsRegister_trans; [apply keepsRegister_launchJob|].
      by apply keepsRegister_same.
    + destruct (waitListLoop _ _ _ _ _) as [r2|] eqn:Hloop; [|done].
      simplify_eq/=. apply IHloop in Hloop.
      eapply keepsRegister_trans;
        [|eapply keepsRegister_trans; [exact Hloop|]].
      * apply keepsRegister_failJob.
      * by apply keepsRegister_same.
  - intros r pipeline waitList r' Hrun. simpl in Hrun.
    destruct waitList as [|queuedJob waitList'];
      [simplify_eq; by apply keepsRegister_same|].
    case_decide; [|simplify_eq; by apply keepsRegister_same].
    destruct (startJob _ _ _ _) as [r1|] eqn:Hstart; [|done].
    simpl in Hrun. eapply keepsRegister_trans; eauto.
Qed.

Lemma keepsRegister_registerJob j r :
  keepsRegister r (registerJob j r).2.
Proof.
  split_and!; [done| | |].
  - intros job j0 Hj0. exists j0. simpl.
    rewrite lookup_app_l by by eapply lookup_lt_Some.
    split; [done|apply laterJob_refl].
  - intros id Hid. simpl.
    destruct (decide (pipelineJob.ID j = id)) as [->|Hne].
    + rewrite lookup_insert_eq. eauto.
    + by rewrite lookup_insert_ne.
  - intros p. rewrite jobsOf_registerJob. case_decide; [|done].
    by apply prefix_app_r.
Qed.

Lemma keepsRegister_admitted r pipeline opts id pipelineDef :
  keepsRegister r (admitted w r pipeline opts id pipelineDef).
Proof.
  unfold admitted.
  eapply keepsRegister_trans; [|apply keepsRegister_registerJob].
  by apply keepsRegister_same.
Qed.

Lemma ScheduleAsync_keepsRegister fuel r pipeline opts newV4 r' res :
  ScheduleAsync w fuel r pipeline opts newV4 = Some (r', res) →
  keepsRegister r r'.
Proof.
  intros Hrun.
  destruct (defs r !! pipeline) as [pipelineDef|] eqn:Hdef.
  2:{ unfold ScheduleAsync in Hrun. rewrite Hdef in Hrun. simplify_eq.
      apply keepsRegister_refl. }
  destruct newV4 as [id|err].
  2:{ unfold ScheduleAsync in Hrun. rewrite Hdef in Hrun.
      destruct (resolveScheduleAction r pipeline); simplify_eq;
        apply keepsRegister_refl. }
  rewrite (ScheduleAsync_defined w fuel r pipeline opts id pipelineDef Hdef)
    in Hrun.
  cbv zeta in Hrun.
  pose proof (keepsRegister_admitted r pipeline opts id pipelineDef) as Hadm.
  set (r1 := admitted w r pipeline opts id pipelineDef) in *.
  destruct (resolveScheduleAction r pipeline).
  - destruct (startJob w fuel r1 (length (heap r))) as [r2|] eqn:Hstart;
      [|done].
    simpl in Hrun. injection Hrun as <- <-.
    eapply keepsRegister_trans; [exact Hadm|].
    eapply keepsRegister_trans;
      [apply (proj1 (startJob_waitListLoop_keepsRegister fuel) _ _ _ Hstart)|].
    by apply keepsRegister_same.
  - injection Hrun as <- <-.
    eapply keepsRegister_trans; [exact Hadm|]. by apply keepsRegister_same.
  - destruct (last (waitListOf r pipeline)) as [previousJob|]; [|done].
    injection Hrun as <- <-.
    eapply keepsRegister_trans; [exact Hadm|].
    eapply keepsRegister_trans;
      [apply (keepsRegister_updateJob (pipelineJob.withCanceled true)
                previousJob); by repeat split|].
    by apply keepsRegister_same.
  - injection Hrun as <- <-. apply keepsRegister_refl.
  - injection Hrun as <- <-. apply keepsRegister_refl.
Qed.

Lemma jobCompleted_keepsRegister fuel r id err r' :
  jobCompleted w fuel r id err = Some r' → keepsRegister r r'.
Proof.
  intros Hrun. unfold jobCompleted in Hrun.
  destruct (jobsByID r !! id) as [job|]; [|simplify_eq; apply keepsRegister_refl].
  destruct (heap r !! job) as [j|]; [|done]. simpl in Hrun.
  destruct (startJobsOnWaitList _ _ _ _) as [r3|] eqn:Hdrain; [|done].
  simpl in Hrun. simplify_eq.
  eapply keepsRegister_trans; [|eapply keepsRegister_trans].
  - apply (keepsRegister_updateJob
             (λ j0, pipelineJob.withLastError err
                      (pipelineJob.withEnd (Some (timeNow w (clock r)))
                         (pipelineJob.withCompleted true j0))) job
             (readClock w r).2).
    intros j0. by repeat split.
  - exact (proj2 (startJob_waitListLoop_keepsRegister fuel) _ _ _ _ Hdrain).
  - by apply keepsRegister_same.
Qed.
End register.

Section register_theorems.
Context (w : World).
Implicit Types (r : pipelineRunner.t) (pipeline : string) (job : nat).

(** X6.  No operation of the runner drops a job or takes back what
    happened to it: after a call of [ScheduleAsync], [jobCompleted] or
    [startJobsOnWaitList] every job is still at its address with its id,
    pipeline, creation time, user and tasks, still started, completed or
    canceled if it was; every id [findJob] found it still finds; and the
    list of jobs of every pipeline has only grown at its end. *)
Theorem opStep_keeps_jobs r r' :
  opStep w r r' →
  defs r' = defs r ∧
  (∀ job j, heap r !! job = Some j →
            ∃ j', heap r' !! job = Some j' ∧ laterJob j j') ∧
  (∀ id, is_Some (findJob r id) → is_Some (findJob r' id)) ∧
  (∀ pipeline, jobsOf r pipeline `prefix_of` jobsOf r' pipeline).
Proof.
  intros Hstep.
  assert (keepsRegister r r') as Hkeeps; [|exact Hkeeps].
  inversion Hstep as [fuel r0 pipeline opts newV4 r0' res Hrun
                     |fuel r0 id err r0' Hrun
                     |fuel r0 pipeline r0' Hrun]; subst.
  - by eapply ScheduleAsync_keepsRegister.
  - by eapply jobCompleted_keepsRegister.
  - exact (proj2 (startJob_waitListLoop_keepsRegister w fuel) _ _ _ _ Hrun).
Qed.

Lemma startJob_waitListLoop_maps fuel :
  (∀ r job r', startJob w fuel r job = Some r' →
     jobsByID r' = jobsByID r ∧ jobsByPipeline r' = jobsByPipeline r) ∧
  (∀ r pipeline waitList r',
     waitListLoop w fuel r pipeline waitList = Some r' →
     jobsByID r' = jobsByID r ∧ jobsByPipeline r' = jobsByPipeline r).
Proof.
  induction fuel as [|fuel [IHstart IHloop]]; [by split|]. split.
  - intros r job r' Hrun. simpl in Hrun.
    destruct (heap r !! job) as [j|]; [|done].
    destruct (buildPipelineGraph w _ _) as [graph|err]; [by simplify_eq|].
    destruct (waitListLoop _ _ _ _ _) as [r2|] eqn:Hloop; [|done].
    simplify_eq/=. by apply IHloop in Hloop.
  - intros r pipeline waitList r' Hrun. simpl in Hrun.
    destruct waitList as [|queuedJob waitList']; [by simplify_eq|].
    case_decide; [|by simplify_eq].
    destruct (startJob _ _ _ _) as [r1|] eqn:Hstart; [|done].
    simpl in Hrun. apply IHstart in Hstart as [Hi1 Hp1].
    apply IHloop in Hrun as [Hi2 Hp2]. split; congruence.
Qed.

(** X7.  The job [ScheduleAsync] returns is registered: it lies at the
    first free address, [findJob] finds it under the id the generator
    gave, it is the last job of its pipeline, it carries the pipeline, the
    user of the options, the time of the call and the tasks
    [buildJobTasks] makes of the definition, it is not completed, and a
    save was requested. *)
Theorem ScheduleAsync_registers_job fuel r pipeline opts id r' job :
  ScheduleAsync w fuel r pipeline opts (inl id) = Some (r', inl job) →
  job = length (heap r) ∧
  findJob r' id = Some job ∧
  last (jobsOf r' pipeline) = Some job ∧
  persistRequests r' = true ∧
  ∃ pipelineDef j,
    defs r !! pipeline = Some pipelineDef ∧
    heap r' !! job = Some j ∧
    pipelineJob.ID j = id ∧
    pipelineJob.Pipeline j = pipeline ∧
    pipelineJob.Created j = timeNow w (clock r) ∧
    pipelineJob.User j = User opts ∧
    pipelineJob.Tasks j
      = buildJobTasks (rangeTasks w) (rangeNodes w)
          (definition.Tasks pipelineDef) ∧
    pipelineJob.Completed j = false ∧
    pipelineJob.End_ j = None.
Proof.
  intros Hrun.
  destruct (defs r !! pipeline) as [pipelineDef|] eqn:Hdef.
  2:{ unfold ScheduleAsync in Hrun. rewrite Hdef in Hrun. simplify_eq. }
  rewrite (ScheduleAsync_defined w fuel r pipeline opts id pipelineDef Hdef)
    in Hrun.
  cbv zeta in Hrun.
  set (new := newJob w id pipeline (timeNow w (clock r)) opts pipelineDef).
  set (r1 := admitted w r pipeline opts id pipelineDef) in *.
  assert (heap r1 !! length (heap r) = Some new) as Hnew.
  { unfold r1, admitted. simpl. by rewrite lookup_app_r, Nat.sub_diag. }
  assert (jobsByID r1 !! id = Some (length (heap r))) as Hid.
  { unfold r1, admitted. simpl. by rewrite lookup_insert_eq. }
  assert (last (jobsOf r1 pipeline) = Some (length (heap r))) as Hlast.
  { unfold r1, admitted. rewrite jobsOf_registerJob. simpl.
    rewrite decide_True by done. by rewrite last_snoc. }
  assert (∀ r2,
    jobsByID r2 = jobsByID r1 → jobsByPipeline r2 = jobsByPipeline r1 →
    (∃ j, heap r2 !! length (heap r) = Some j ∧ keptBy new j) →
    length (heap r) = length (heap r) ∧
    findJob (requestPersist r2) id = Some (length (heap r)) ∧
    last (jobsOf (requestPersist r2) pipeline) = Some (length (heap r)) ∧
    persistRequests (requestPersist r2) = true ∧
    ∃ pipelineDef0 j,
      Some pipelineDef = Some pipelineDef0 ∧
      heap (requestPersist r2) !! length (heap r) = Some j ∧
      pipelineJob.ID j = id ∧
      pipelineJob.Pipeline j = pipeline ∧
      pipelineJob.Created j = timeNow w (clock r) ∧
      pipelineJob.User j = User opts ∧
      pipelineJob.Tasks j
        = buildJobTasks (rangeTasks w) (rangeNodes w)
            (definition.Tasks pipelineDef0) ∧
      pipelineJob.Completed j = false ∧
      pipelineJob.End_ j = None) as Hfinish.
  { intros r2 Hi Hp (j & Hj & Hid' & Hpl & Hco & Hcr & Hen & Hus & Hta & _).
    split_and!; [done| | |done|].
    - unfold findJob. simpl. by rewrite Hi.
    - unfold jobsOf in *. simpl. by rewrite Hp.
    - exists pipelineDef, j. simpl. split_and!; try done.
      all: by first [rewrite Hid'|rewrite Hpl|rewrite Hco|rewrite Hcr
                    |rewrite Hen|rewrite Hus|rewrite Hta]. }
  destruct (resolveScheduleAction r pipeline).
  - destruct (startJob w fuel r1 (length (heap r))) as [r2|] eqn:Hstart;
      [|done].
    simpl in Hrun. injection Hrun as <- <-.
    destruct (proj1 (startJob_waitListLoop_maps fuel) _ _ _ Hstart)
      as [Hi Hp].
    apply Hfinish; [done|done|].
    exact (proj1 (startJob_waitListLoop_keepsJobs w fuel) _ _ _ Hstart
             _ _ Hnew).
  - injection Hrun as <- <-. apply Hfinish; [done|done|].
    exists new. split; [exact Hnew|apply keptBy_refl].
  - destruct (last (waitListOf r pipeline)) as [previousJob|]; [|done].
    injection Hrun as <- <-. apply Hfinish; [done|done|].
    apply (keepsJobs_updateJob (pipelineJob.withCanceled true) previousJob r1);
      [|exact Hnew].
    intros j. by repeat split.
  - by injection Hrun.
  - by injection Hrun.
Qed.
End register_theorems.

(** *** What a caller of the runner is told *)

Section told.
Context (w : World).
Implicit Types (r : pipelineRunner.t) (pipeline : string) (job : nat).

(** X8.  [isSchedulable] tells what [ScheduleAsync] will do for a defined
    pipeline: when it is false, every call is turned down with
    [errNoQueue] or [errQueueFull] and leaves the runner as it is; when it
    is true and the generator gives an id, no call is turned down, and
    when every graph can be built the call returns the new job. *)
Theorem isSchedulable_tells_admission r pipeline pipelineDef opts :
  defs r !! pipeline = Some pipelineDef →
  (isSchedulable r pipeline = false →
   ∀ fuel newV4,
     ScheduleAsync w fuel r pipeline opts newV4 = Some (r, inr errNoQueue) ∨
     ScheduleAsync w fuel r pipeline opts newV4 = Some (r, inr errQueueFull)) ∧
  (isSchedulable r pipeline = true →
   (∀ fuel id r' res,
      ScheduleAsync w fuel r pipeline opts (inl id) = Some (r', res) →
      res = inl (length (heap r))) ∧
   (graphsBuild w →
    ∀ fuel id, ∃ r',
      ScheduleAsync w (S fuel) r pipeline opts (inl id)
      = Some (r', inl (length (heap r))))).
Proof.
  intros Hdef. unfold isSchedulable. split.
  - intros Hno fuel newV4. unfold ScheduleAsync. rewrite Hdef.
    destruct (resolveScheduleAction r pipeline); try done; auto.
  - intros Hyes. split.
    + intros fuel id r' res.
      rewrite (ScheduleAsync_defined w fuel r pipeline opts id pipelineDef
                 Hdef). cbv zeta.
      destruct (resolveScheduleAction r pipeline); try done.
      * destruct (startJob _ _ _ _); [|done]. simpl. by intros [= <- <-].
      * by intros [= <- <-].
      * destruct (last _); [|done]. by intros [= <- <-].
    + intros Hgraphs fuel id.
      rewrite (ScheduleAsync_defined w (S fuel) r pipeline opts id
                 pipelineDef Hdef). cbv zeta.
      destruct (resolveScheduleAction r pipeline) eqn:Hact; try done.
      * rewrite (startJob_returns w Hgraphs).
        -- simpl. eauto.
        -- unfold admitted. simpl. rewrite lookup_app_r by done.
           rewrite Nat.sub_diag. eauto.
      * eauto.
      * apply resolveScheduleAction_replace in Hact as (_ & Hne & _).
        destruct (waitListOf r pipeline) as [|job0 rest] using rev_ind;
          [done|].
        rewrite last_snoc. eauto.
Qed.

Lemma runningJobsCount_failJob err job r pipeline :
  runningJobsCount (failJob err job r) pipeline ≤ runningJobsCount r pipeline.
Proof.
  rewrite !runningJobsCount_runningIn. apply inj_le.
  unfold failJob, updateJob. simpl. apply runningIn_alter_stop.
  intros j. unfold pipelineJob.isRunning. simpl.
  rewrite andb_false_r. done.
Qed.

(** X9.  When the graph of a job taken from the wait list cannot be
    built, [startJobsOnWaitList] does not come back: [startJob] marks the
    job canceled and calls [startJobsOnWaitList] again, which finds the
    same job at the head of the same wait list. *)
Theorem startJobsOnWaitList_never_returns r pipeline job rest j err :
  waitListOf r pipeline = job :: rest →
  heap r !! job = Some j →
  pipelineJob.Pipeline j = pipeline →
  buildPipelineGraph w (pipelineJob.ID j) (pipelineJob.Tasks j) = inr err →
  resolveScheduleAction r pipeline = scheduleActionStart →
  ∀ fuel, startJobsOnWaitList w fuel r pipeline = None.
Proof.
  intros Hwait Hj Hpipeline Hgraph Hact fuel.
  revert r j Hwait Hj Hpipeline Hgraph Hact.
  induction fuel as [fuel IH] using lt_wf_ind.
  intros r j Hwait Hj Hpipeline Hgraph Hact.
  unfold startJobsOnWaitList. rewrite Hwait.
  destruct fuel as [|fuel]; [done|]. simpl.
  rewrite decide_True by done.
  destruct fuel as [|fuel]; [done|]. simpl.
  rewrite Hj, Hgraph, Hpipeline.
  set (r1 := failJob err job r).
  change (waitListLoop w fuel r1 pipeline (waitListOf r1 pipeline))
    with (startJobsOnWaitList w fuel r1 pipeline).
  rewrite (IH fuel ltac:(lia) r1
             (pipelineJob.withCanceled true
                (pipelineJob.withLastError (Some err) j))); try done.
  - unfold r1, failJob, updateJob. simpl. by rewrite list_lookup_alter_eq, Hj.
  - apply resolveScheduleAction_start.
    apply resolveScheduleAction_start in Hact.
    pose proof (runningJobsCount_failJob err job r pipeline). 
    change (pipelineDefOf r1 pipeline) with (pipelineDefOf r pipeline). 
    unfold r1. lia.
Qed.

Lemma startJob_unfold fuel r job :
  startJob w (S fuel) r job =
  match heap r !! job with
  | None => None
  | Some j =>
      match buildPipelineGraph w (pipelineJob.ID j) (pipelineJob.Tasks j) with
      | inr err =>
          r2 ← waitListLoop w fuel (failJob err job r) (pipelineJob.Pipeline j)
                 (waitListOf (failJob err job r) (pipelineJob.Pipeline j));
          Some (requestPersist r2)
      | inl graph => Some (requestPersist (launchJob w job r))
      end
  end.
Proof. done. Qed.

Lemma waitListLoop_nil fuel r pipeline :
  waitListLoop w (S fuel) r pipeline [] = Some (setWaitList pipeline [] r).
Proof. done. Qed.

(** X10.  When the graph of a new job cannot be built, [ScheduleAsync]
    still returns the job and no error: the job is registered, canceled,
    carries the error of [buildPipelineGraph] as its last error, and has
    not started.  (Stated for a pipeline with nothing on its wait list.) *)
Theorem ScheduleAsync_graph_failure r pipeline pipelineDef opts id err fuel :
  defs r !! pipeline = Some pipelineDef →
  resolveScheduleAction r pipeline = scheduleActionStart →
  waitListOf r pipeline = [] →
  buildPipelineGraph w id
    (buildJobTasks (rangeTasks w) (rangeNodes w)
       (definition.Tasks pipelineDef)) = inr err →
  ∃ r' j,
    ScheduleAsync w (S (S fuel)) r pipeline opts (inl id)
    = Some (r', inl (length (heap r))) ∧
    findJob r' id = Some (length (heap r)) ∧
    heap r' !! length (heap r) = Some j ∧
    pipelineJob.Canceled j = true ∧
    pipelineJob.LastError j = Some err ∧
    pipelineJob.Start j = None ∧
    pipelineJob.isRunning j = false ∧
    spawned r' = spawned r.
Proof.
  intros Hdef Hact Hwait Hgraph.
  rewrite (ScheduleAsync_defined w (S (S fuel)) r pipeline opts id
             pipelineDef Hdef). cbv zeta.
  rewrite Hact.
  set (new := newJob w id pipeline (timeNow w (clock r)) opts pipelineDef).
  set (r1 := admitted w r pipeline opts id pipelineDef).
  assert (heap r1 !! length (heap r) = Some new) as Hnew.
  { unfold r1, admitted. simpl. by rewrite lookup_app_r, Nat.sub_diag. }
  assert (startJob w (S (S fuel)) r1 (length (heap r))
          = Some (requestPersist
                    (setWaitList pipeline []
                       (failJob err (length (heap r)) r1)))) as ->.
  { rewrite startJob_unfold, Hnew.
    change (pipelineJob.ID new) with id.
    change (pipelineJob.Tasks new)
      with (buildJobTasks (rangeTasks w) (rangeNodes w)
              (definition.Tasks pipelineDef)).
    rewrite Hgraph.
    change (pipelineJob.Pipeline new) with pipeline.
    change (waitListOf (failJob err (length (heap r)) r1) pipeline)
      with (waitListOf r pipeline).
    by rewrite Hwait, waitListLoop_nil. }
  simpl. eexists _, _. split_and!; [reflexivity| | |..].
  - unfold findJob. simpl. by rewrite lookup_insert_eq.
  - simpl. rewrite list_lookup_alter_eq.
    rewrite lookup_app_r by done. by rewrite Nat.sub_diag.
  - done.
  - done.
  - done.
  - done.
  - done.
Qed.

End told.

(** *** Changes of tasks and stages *)

Section changes.
Implicit Types (r : pipelineRunner.t) (pipeline : string) (job : nat)
  (jt : list jobTask.t).

Lemma byName_Some jt name i :
  byName jt name = Some i →
  ∃ t, jt !! i = Some t ∧ jobTask.Name t = name ∧
       ∀ k u, (k < i)%nat → jt !! k = Some u → jobTask.Name u ≠ name.
Proof.
  revert i. induction jt as [|t jt IH]; intros i Hi; [done|].
  simpl in Hi. case_decide as Hname.
  - simplify_eq. exists t. split_and!; [done|done|]. intros k u Hk. lia.
  - destruct (byName jt name) as [i'|] eqn:Hi'; [|done].
    simpl in Hi. simplify_eq.
    destruct (IH i' eq_refl) as (t' & Ht' & Hn' & Hfirst).
    exists t'. split_and!; [done|done|].
    intros [|k] u Hk Hu; simpl in Hu; [by simplify_eq|].
    apply (Hfirst k); [lia|done].
Qed.

Lemma byName_None jt name :
  byName jt name = None → name ∉ taskNames jt.
Proof.
  induction jt as [|t jt IH]; intros Hnone; [apply not_elem_of_nil|].
  simpl in Hnone. case_decide as Hname; [done|].
  destruct (byName jt name) eqn:Hi; [done|].
  unfold taskNames. simpl. apply not_elem_of_cons. split; [done|].
  by apply IH.
Qed.

Lemma alter_insert {A} (f : A → A) (l : list A) i x :
  l !! i = Some x → alter f i l = <[i := f x]> l.
Proof.
  intros Hx. apply list_eq. intros k. destruct (decide (i = k)) as [->|Hne].
  - rewrite list_lookup_alter_eq, Hx. simpl.
    rewrite list_lookup_insert_eq; [done|]. by eapply lookup_lt_Some.
  - by rewrite list_lookup_alter_ne, list_lookup_insert_ne.
Qed.

(** X12.  [handleTaskChange] changes nothing, and requests no save, when
    no job has the id or the job has no task with the name of the task.
    Otherwise it writes to the first task of the job with that name, and
    to nothing else: the task keeps its name, definition and status,
    takes the flags, exit code and error of the task of the task runner,
    and takes its start and end only when these are not the zero time.
    A save is requested. *)
Theorem handleTaskChange_writes_one_task r jobID (t : Task.t) r' :
  handleTaskChange r jobID t = Some r' →
  match findJob r jobID with
  | None => r' = r
  | Some job =>
      ∃ j, heap r !! job = Some j ∧
      match byName (pipelineJob.Tasks j) (Task.Name t) with
      | None => (Task.Name t ∉ taskNames (pipelineJob.Tasks j)) ∧ r' = r
      | Some i =>
          ∃ old,
            pipelineJob.Tasks j !! i = Some old ∧
            jobTask.Name old = Task.Name t ∧
            (∀ k u, (k < i)%nat → pipelineJob.Tasks j !! k = Some u →
                    jobTask.Name u ≠ Task.Name t) ∧
            r' = requestPersist
                   (withHeap
                      (<[job := pipelineJob.withTasks
                                  (<[i := taskChanged t old]>
                                     (pipelineJob.Tasks j)) j]> (heap r)) r) ∧
            jobTask.Name (taskChanged t old) = jobTask.Name old ∧
            jobTask.TaskDef (taskChanged t old) = jobTask.TaskDef old ∧
            jobTask.Status (taskChanged t old) = jobTask.Status old ∧
            jobTask.Start (taskChanged t old)
              = (if decide (Task.Start t = zeroTime) then jobTask.Start old
                 else Some (Task.Start t)) ∧
            jobTask.End_ (taskChanged t old)
              = (if decide (Task.End_ t = zeroTime) then jobTask.End_ old
                 else Some (Task.End_ t)) ∧
            jobTask.Skipped (taskChanged t old) = Task.Skipped t ∧
            jobTask.ExitCode (taskChanged t old) = Task.ExitCode t ∧
            jobTask.Errored (taskChanged t old) = Task.Errored t ∧
            jobTask.Error (taskChanged t old) = Task.Error t
      end
  end.
Proof.
  unfold handleTaskChange, findJob. intros Hrun.
  destruct (jobsByID r !! jobID) as [job|]; [|by simplify_eq].
  destruct (heap r !! job) as [j|] eqn:Hj; [|done]. simpl in Hrun.
  exists j. split; [done|].
  destruct (byName (pipelineJob.Tasks j) (Task.Name t)) as [i|] eqn:Hi.
  - destruct (byName_Some _ _ _ Hi) as (old & Hjt & Hname & Hfirst).
    exists old. simplify_eq.
    split_and!; try done.
    + unfold updateTask, updateJob.
      rewrite (alter_insert _ _ _ _ Hj). simpl.
      by rewrite (alter_insert _ _ _ _ Hjt).
    + simpl. unfold IsZero. by destruct (decide (Task.Start t = zeroTime));
        [rewrite bool_decide_eq_true_2|rewrite bool_decide_eq_false_2].
    + simpl. unfold IsZero. by destruct (decide (Task.End_ t = zeroTime));
        [rewrite bool_decide_eq_true_2|rewrite bool_decide_eq_false_2].
  - simplify_eq. split; [by apply byName_None|done].
Qed.

(** X13.  [handleStageChange] changes nothing, and requests no save, when
    no job has the id or the job has no task with the name of the stage.
    Otherwise it sets the status of the first task of the job with that
    name to the text [toStatus] gives for the status of the stage, writes
    nothing else, and requests a save. *)
Theorem handleStageChange_writes_status r jobID name status r' :
  handleStageChange r jobID name status = Some r' →
  match findJob r jobID with
  | None => r' = r
  | Some job =>
      ∃ j, heap r !! job = Some j ∧
      match byName (pipelineJob.Tasks j) name with
      | None => (name ∉ taskNames (pipelineJob.Tasks j)) ∧ r' = r
      | Some i =>
          ∃ old,
            pipelineJob.Tasks j !! i = Some old ∧
            jobTask.Name old = name ∧
            (∀ k u, (k < i)%nat → pipelineJob.Tasks j !! k = Some u →
                    jobTask.Name u ≠ name) ∧
            r' = requestPersist
                   (withHeap
                      (<[job := pipelineJob.withTasks
                                  (<[i := jobTask.withStatus
                                            (toStatus status) old]>
                                     (pipelineJob.Tasks j)) j]> (heap r)) r)
      end
  end.
Proof.
  unfold handleStageChange, findJob. intros Hrun.
  destruct (jobsByID r !! jobID) as [job|]; [|by simplify_eq].
  destruct (heap r !! job) as [j|] eqn:Hj; [|done]. simpl in Hrun.
  exists j. split; [done|].
  destruct (byName (pipelineJob.Tasks j) name) as [i|] eqn:Hi.
  - destruct (byName_Some _ _ _ Hi) as (old & Hold & Hname & Hfirst).
    exists old. simplify_eq. split_and!; try done.
    unfold updateTask, updateJob.
    rewrite (alter_insert _ _ _ _ Hj). simpl.
    by rewrite (alter_insert _ _ _ _ Hold).
  - simplify_eq. split; [by apply byName_None|done].
Qed.

Lemma updateTask_running f job i r pipeline :
  runningJobsCount (updateTask f job i r) pipeline
  = runningJobsCount r pipeline.
Proof.
  rewrite !runningJobsCount_runningIn. f_equal.
  unfold updateTask, updateJob. simpl. apply runningIn_alter_same.
  intros j _. done.
Qed.

Lemma updateTask_admission f job i r pipeline :
  resolveScheduleAction (requestPersist (updateTask f job i r)) pipeline
  = resolveScheduleAction r pipeline.
Proof.
  rewrite !resolveScheduleAction_rule.
  change (runningJobsCount (requestPersist (updateTask f job i r)) pipeline)
    with (runningJobsCount (updateTask f job i r) pipeline).
  by rewrite updateTask_running.
Qed.

Lemma updateTask_bounded f job i r :
  boundedRunner r → boundedRunner (requestPersist (updateTask f job i r)).
Proof.
  intros [Hbk Hbound]. apply boundedRunner_requestPersist. split.
  - by apply bookkeeping_updateJob.
  - intros p. rewrite updateTask_running. apply Hbound.
Qed.

Lemma updateTask_fields f job i r job' :
  pipelineJob.withTasks [] <$> heap (updateTask f job i r) !! job'
  = pipelineJob.withTasks [] <$> heap r !! job'.
Proof.
  unfold updateTask, updateJob. simpl.
  destruct (decide (job = job')) as [->|Hne].
  - rewrite list_lookup_alter_eq. by destruct (heap r !! job').
  - by rewrite list_lookup_alter_ne.
Qed.

(** X14.  The changes of tasks and stages reported to the runner do not
    bear on admission: after [handleTaskChange] or [handleStageChange]
    the definitions, the three maps and every field of every job but its
    tasks are what they were, so every pipeline has the same number of
    running jobs and resolves the same action, and a runner within the
    concurrency bound stays within it. *)
Theorem changes_keep_admission r jobID (t : Task.t) name status r' :
  handleTaskChange r jobID t = Some r' ∨
  handleStageChange r jobID name status = Some r' →
  defs r' = defs r ∧
  jobsByID r' = jobsByID r ∧
  jobsByPipeline r' = jobsByPipeline r ∧
  waitListByPipeline r' = waitListByPipeline r ∧
  (∀ job, pipelineJob.withTasks [] <$> heap r' !! job
          = pipelineJob.withTasks [] <$> heap r !! job) ∧
  (∀ pipeline,
     runningJobsCount r' pipeline = runningJobsCount r pipeline ∧
     resolveScheduleAction r' pipeline = resolveScheduleAction r pipeline) ∧
  (boundedRunner r → boundedRunner r').
Proof.
  assert (∀ f job i,
    let r1 := requestPersist (updateTask f job i r) in
    defs r1 = defs r ∧ jobsByID r1 = jobsByID r ∧
    jobsByPipeline r1 = jobsByPipeline r ∧
    waitListByPipeline r1 = waitListByPipeline r ∧
    (∀ job', pipelineJob.withTasks [] <$> heap r1 !! job'
             = pipelineJob.withTasks [] <$> heap r !! job') ∧
    (∀ pipeline,
       runningJobsCount r1 pipeline = runningJobsCount r pipeline ∧
       resolveScheduleAction r1 pipeline = resolveScheduleAction r pipeline) ∧
    (boundedRunner r → boundedRunner r1)) as Hwrite.
  { intros f job i. split_and!; try done.
    - apply updateTask_fields.
    - intros p. split; [apply updateTask_running|apply updateTask_admission].
    - apply updateTask_bounded. }
  unfold handleTaskChange, handleStageChange.
  destruct (jobsByID r !! jobID) as [job|];
    [|by intros [?|?]; simplify_eq].
  destruct (heap r !! job) as [j|]; [|by intros [?|?]]. simpl.
  intros [Hrun|Hrun].
  - destruct (byName _ _) as [i|]; simplify_eq; [apply Hwrite|done].
  - destruct (byName _ _) as [i|]; simplify_eq; [apply Hwrite|done].
Qed.
End changes.

(** *** The lists of pipelines and of jobs *)

Section listing.
Implicit Types (r : pipelineRunner.t) (pipeline : string) (job : nat).

Lemma existsb_filter {A} (f : A → bool) (l : list A) :
  existsb f l = true ↔ (0 < length (filter (λ x, f x = true) l))%nat.
Proof.
  induction l as [|x l IH]; simpl; [lia|].
  destruct (f x) eqn:Hx; simpl.
  - rewrite filter_cons_True by done. simpl. split; [lia|done].
  - rewrite filter_cons_False by by rewrite Hx. exact IH.
Qed.

Lemma isRunning_runningJobsCount r pipeline :
  isRunning r pipeline = true ↔ 0 < runningJobsCount r pipeline.
Proof.
  unfold isRunning, runningJobsCount. rewrite existsb_filter. lia.
Qed.

Lemma strLe_ne_ltb (a b : string) : strLe a b → a ≠ b → String.ltb a b = true.
Proof.
  rewrite strLe_compare, ltb_compare. intros Hle Hne.
  destruct (String.compare a b) eqn:Hc; [|done|done].
  by apply String.compare_eq_iff in Hc.
Qed.

Lemma StronglySorted_weaken {A} (R1 R2 : relation A) (l : list A) :
  (∀ x y, R1 x y → R2 x y) → StronglySorted R1 l → StronglySorted R2 l.
Proof.
  intros Himp. induction 1 as [|x l Hl IH Hx]; constructor; [done|].
  eapply Forall_impl; [exact Hx|]. auto.
Qed.

Lemma StronglySorted_NoDup_strict {A} (R : relation A) (l : list A) :
  StronglySorted R l → NoDup l → StronglySorted (λ a b, R a b ∧ a ≠ b) l.
Proof.
  induction 1 as [|x l Hl IH Hx]; intros Hnd; [constructor|].
  apply NoDup_cons in Hnd as [Hnotin Hnd]. constructor; [by apply IH|].
  rewrite Forall_forall in Hx |- *. intros y Hy. split; [by apply Hx|].
  by intros ->.
Qed.

Lemma notAfter_pipelineLess a b :
  notAfter pipelineLess a b ↔
  strLe (pipelineResult.Pipeline a) (pipelineResult.Pipeline b).
Proof. unfold notAfter, pipelineLess. by rewrite strLe_ltb. Qed.

Local Instance notAfter_pipelineLess_total : Total (notAfter pipelineLess).
Proof. intros a b. rewrite !notAfter_pipelineLess. apply total, _. Qed.

Local Instance notAfter_pipelineLess_trans :
  Transitive (notAfter pipelineLess).
Proof. intros a b c. rewrite !notAfter_pipelineLess. apply transitivity. Qed.

Lemma ListPipelines_Permutation rangePipelines r :
  rangesOverKeys rangePipelines →
  ListPipelines rangePipelines r
  ≡ₚ pipelineToResult r <$> elements (dom (defs r)).
Proof.
  intros Hrange. unfold ListPipelines, sortSlice.
  by rewrite merge_sort_Permutation, (Hrange _).
Qed.

Lemma ListPipelines_names rangePipelines r :
  rangesOverKeys rangePipelines →
  pipelineResult.Pipeline <$> ListPipelines rangePipelines r
  ≡ₚ elements (dom (defs r)).
Proof.
  intros Hrange. rewrite (ListPipelines_Permutation _ _ Hrange).
  rewrite <-list_fmap_compose. by rewrite list_fmap_id.
Qed.

(** X15.  [ListPipelines] returns one entry for each defined pipeline, in
    the strictly ascending order of the names, whatever the order in which
    Go ranges over the definitions; an entry says whether the pipeline is
    schedulable, as [isSchedulable] has it, and is marked running exactly
    when [runningJobsCount] counts a job of the pipeline. *)
Theorem ListPipelines_sorted_and_complete rangePipelines rangePipelines' r :
  rangesOverKeys rangePipelines →
  rangesOverKeys rangePipelines' →
  ListPipelines rangePipelines r = ListPipelines rangePipelines' r ∧
  StronglySorted (λ a b, String.ltb a b = true)
    (pipelineResult.Pipeline <$> ListPipelines rangePipelines r) ∧
  (∀ pipeline,
     pipeline ∈ pipelineResult.Pipeline <$> ListPipelines rangePipelines r ↔
     is_Some (defs r !! pipeline)) ∧
  (∀ res, res ∈ ListPipelines rangePipelines r →
     pipelineResult.Schedulable res
       = isSchedulable r (pipelineResult.Pipeline res) ∧
     (pipelineResult.Running res = true ↔
      0 < runningJobsCount r (pipelineResult.Pipeline res))).
Proof.
  intros Hrange Hrange'.
  assert (∀ range, rangesOverKeys range →
    ∀ res, res ∈ ListPipelines range r →
           res = pipelineToResult r (pipelineResult.Pipeline res)) as Hres.
  { intros range Hr res Hin. rewrite (ListPipelines_Permutation _ _ Hr) in Hin.
    by apply list_elem_of_fmap in Hin as (p & -> & _). }
  assert (∀ range,
    StronglySorted (notAfter pipelineLess) (ListPipelines range r)) as Hsorted.
  { intros range. apply StronglySorted_merge_sort; apply _. }
  split_and!.
  - apply (StronglySorted_unique_strong (notAfter pipelineLess));
      [|apply Hsorted..|].
    + intros x1 x2 Hx1 Hx2 H12 H21.
      rewrite (Hres _ Hrange x1 Hx1), (Hres _ Hrange' x2 Hx2). f_equal.
      apply notAfter_pipelineLess in H12, H21. by apply (anti_symm strLe).
    + by rewrite !ListPipelines_Permutation.
  - eapply StronglySorted_weaken;
      [|apply (StronglySorted_NoDup_strict strLe)].
    + intros a b [Hle Hne]. by apply strLe_ne_ltb.
    + eapply StronglySorted_fmap; [|apply Hsorted].
      intros a b. by rewrite notAfter_pipelineLess.
    + rewrite (ListPipelines_names _ _ Hrange). apply NoDup_elements.
  - intros p. rewrite (ListPipelines_names _ _ Hrange).
    by rewrite elem_of_elements, elem_of_dom.
  - intros res Hin. rewrite (Hres _ Hrange res Hin). simpl.
    split; [done|apply isRunning_runningJobsCount].
Qed.

Lemma jobToResult_fold (acc : list taskResult.t * bool) (l : list jobTask.t) :
  foldl (λ acc t, (acc.1 ++ [taskToResult t], acc.2 || jobTask.Errored t))
        acc l
  = (acc.1 ++ (taskToResult <$> l), acc.2 || existsb jobTask.Errored l).
Proof.
  revert acc. induction l as [|t l IH]; intros [res e]; simpl.
  - by rewrite app_nil_r, orb_false_r.
  - rewrite IH. simpl. by rewrite <-app_assoc, orb_assoc.
Qed.

Lemma jobToResult_eq j :
  jobToResult j =
  pipelineJobResult.mk (pipelineJob.ID j) (pipelineJob.Pipeline j)
    (taskToResult <$> pipelineJob.Tasks j)
    (pipelineJob.Completed j) (pipelineJob.Canceled j)
    (existsb jobTask.Errored (pipelineJob.Tasks j))
    (pipelineJob.Created j) (pipelineJob.Start j) (pipelineJob.End_ j)
    (pipelineJob.User j) (errToStrPtr (pipelineJob.LastError j)).
Proof. unfold jobToResult. by rewrite jobToResult_fold. Qed.

(** X16.  [jobToResult] lists the tasks of the job in their order and
    reports the job as errored exactly when one of its tasks is marked
    errored; the last error of the job plays no part in this. *)
Theorem jobToResult_errored j :
  pipelineJobResult.Tasks (jobToResult j)
  = taskToResult <$> pipelineJob.Tasks j ∧
  (pipelineJobResult.Errored (jobToResult j) = true ↔
   ∃ t, t ∈ pipelineJob.Tasks j ∧ jobTask.Errored t = true).
Proof.
  rewrite jobToResult_eq. simpl. split; [done|].
  rewrite existsb_exists. split.
  - intros (t & Hin & Ht). exists t. by rewrite list_elem_of_In.
  - intros (t & Hin & Ht). exists t. by rewrite <-list_elem_of_In.
Qed.



End listing.

(** *** Sorting with an order that is total on the elements at hand *)

Section merge_sort_ext.
Context {A : Type} (R1 R2 : relation A).
Context `{!∀ x y, Decision (R1 x y)} `{!∀ x y, Decision (R2 x y)}.

Lemma list_merge_ext (l1 l2 : list A) :
  (∀ x y, x ∈ l1 → y ∈ l2 → (R1 x y ↔ R2 x y)) →
  list_merge R1 l1 l2 = list_merge R2 l1 l2.
Proof.
  revert l2. induction l1 as [|x1 l1 IH1]; intros l2;
    induction l2 as [|x2 l2 IH2]; intros Hext; [done..|].
  rewrite !list_merge_cons.
  assert (R1 x1 x2 ↔ R2 x1 x2) as Hx by (apply Hext; left).
  destruct (decide (R1 x1 x2)) as [H1|H1], (decide (R2 x1 x2)) as [H2|H2];
    try tauto.
  - f_equal. apply IH1. intros x y Hin1 Hin2. apply Hext; [by right|done].
  - f_equal. apply IH2. intros x y Hin1 Hin2. apply Hext; [done|by right].
Qed.

Lemma merge_list_to_stack_ext (st : list (option (list A))) (l : list A) :
  NoDup (l ++ merge_stack_flatten st) →
  (∀ x y, x ∈ l ++ merge_stack_flatten st →
          y ∈ l ++ merge_stack_flatten st → x ≠ y → (R1 x y ↔ R2 x y)) →
  merge_list_to_stack R1 st l = merge_list_to_stack R2 st l.
Proof.
  revert l. induction st as [|[l'|] st IH]; intros l Hnd Hext;
    simpl in *; [done| |done].
  assert (list_merge R1 l' l = list_merge R2 l' l) as ->.
  { apply list_merge_ext. intros x y Hx Hy.
    apply NoDup_app in Hnd as (_ & Hdisj & _).
    apply Hext; [set_unfold; tauto..|].
    intros ->. apply (Hdisj y Hy). set_unfold. tauto. }
  f_equal. apply IH.
  - rewrite merge_Permutation.
    rewrite <-app_assoc, (Permutation_app_swap_app l' l). done.
  - intros x y. rewrite !merge_Permutation.
    rewrite <-!app_assoc, !(Permutation_app_swap_app l' l). apply Hext.
Qed.

Lemma merge_stack_ext (st : list (option (list A))) :
  NoDup (merge_stack_flatten st) →
  (∀ x y, x ∈ merge_stack_flatten st → y ∈ merge_stack_flatten st →
          x ≠ y → (R1 x y ↔ R2 x y)) →
  merge_stack R1 st = merge_stack R2 st.
Proof.
  induction st as [|[l|] st IH]; intros Hnd Hext; simpl in *; [done| |auto].
  apply NoDup_app in Hnd as (_ & Hdisj & Hnd).
  rewrite IH; [|done|].
  2:{ intros x y Hx Hy. apply Hext; set_unfold; tauto. }
  apply list_merge_ext. intros x y Hx Hy.
  rewrite merge_stack_Permutation in Hy.
  apply Hext; [set_unfold; tauto..|].
  intros ->. by apply (Hdisj y Hx).
Qed.

Lemma merge_sort_aux_ext (st : list (option (list A))) (l : list A) :
  NoDup (merge_stack_flatten st ++ l) →
  (∀ x y, x ∈ merge_stack_flatten st ++ l →
          y ∈ merge_stack_flatten st ++ l → x ≠ y → (R1 x y ↔ R2 x y)) →
  merge_sort_aux R1 st l = merge_sort_aux R2 st l.
Proof.
  revert st. induction l as [|x l IH]; intros st Hnd Hext; simpl.
  - rewrite app_nil_r in Hnd. apply merge_stack_ext; [done|].
    intros x y Hx Hy. apply Hext; set_unfold; tauto.
  - rewrite (merge_list_to_stack_ext st [x]).
    + apply IH.
      * rewrite merge_list_to_stack_Permutation. simpl.
        by rewrite Permutation_middle.
      * intros y z. rewrite !merge_list_to_stack_Permutation. simpl.
        rewrite !Permutation_middle. apply Hext.
    + simpl. apply NoDup_app in Hnd as (Hst & Hdisj & _).
      apply NoDup_cons. split; [|done].
      intros Hin. apply (Hdisj x Hin). left.
    + intros y z Hy Hz. apply Hext; set_unfold; tauto.
Qed.

(** Two orders that agree on the different elements of a list without
    duplicates sort it alike. *)
Lemma merge_sort_ext (l : list A) :
  NoDup l →
  (∀ x y, x ∈ l → y ∈ l → x ≠ y → (R1 x y ↔ R2 x y)) →
  merge_sort R1 l = merge_sort R2 l.
Proof. intros Hnd Hext. by apply merge_sort_aux_ext. Qed.
End merge_sort_ext.



Section list_jobs.
Implicit Types (r : pipelineRunner.t) (job : nat).

Lemma mapM_cons_Some {A B} (f : A → option B) x (l : list A) k :
  mapM f (x :: l) = Some k ↔
  ∃ y k0, f x = Some y ∧ mapM f l = Some k0 ∧ k = y :: k0.
Proof.
  rewrite !mapM_Some. split.
  - intros Hall. apply Forall2_cons_inv_l in Hall as (y & k0 & Hy & Hk0 & ->).
    exists y, k0. by rewrite mapM_Some.
  - intros (y & k0 & Hy & Hk0 & ->). constructor; [done|].
    by apply mapM_Some.
Qed.

Lemma mapM_Permutation {A B} (f : A → option B) (l l' : list A) k :
  l ≡ₚ l' → mapM f l = Some k → ∃ k', mapM f l' = Some k' ∧ k ≡ₚ k'.
Proof.
  intros Hp. revert k.
  induction Hp as [|x l l' Hp IH|x y l|l1 l2 l3 Hp1 IH1 Hp2 IH2]; intros k.
  - intros Hk. by exists k.
  - intros (y & k0 & Hy & Hk0 & ->)%mapM_cons_Some.
    destruct (IH k0 Hk0) as (k' & Hk' & Hpk).
    exists (y :: k'). split; [|by constructor].
    apply mapM_cons_Some. eauto.
  - intros (b & k1 & Hb & (a & k0 & Ha & Hk0 & ->)%mapM_cons_Some & ->)
      %mapM_cons_Some.
    exists (a :: b :: k0). split; [|by constructor].
    apply mapM_cons_Some. exists a, (b :: k0). split_and!; [done| |done].
    apply mapM_cons_Some. eauto.
  - intros Hk. destruct (IH1 k Hk) as (k2 & Hk2 & Hp2').
    destruct (IH2 k2 Hk2) as (k3 & Hk3 & Hp3).
    exists k3. split; [done|by etrans].
Qed.

Lemma StronglySorted_fmap_inv {A B} (f : A → B) (R : relation B) (l : list A) :
  StronglySorted R (f <$> l) → StronglySorted (λ a b, R (f a) (f b)) l.
Proof.
  induction l as [|x l IH]; intros Hs; [constructor|].
  rewrite fmap_cons in Hs. apply StronglySorted_inv in Hs as [Hs Hx].
  constructor; [by apply IH|]. by rewrite Forall_fmap in Hx.
Qed.

Lemma StronglySorted_NoDup_in {A} (R : relation A) (l : list A) :
  StronglySorted R l → NoDup l →
  StronglySorted (λ a b, R a b ∧ a ∈ l ∧ b ∈ l ∧ a ≠ b) l.
Proof.
  intros Hs Hnd. apply StronglySorted_lookup_2. intros i k x y Hik Hx Hy.
  split_and!.
  - by eapply (StronglySorted_lookup_1 R l i k).
  - by eapply list_elem_of_lookup_2.
  - by eapply list_elem_of_lookup_2.
  - intros ->. pose proof (NoDup_lookup _ _ _ _ Hnd Hx Hy). lia.
Qed.

Lemma notAfter_jobNewer a b : notAfter jobNewer a b ↔ createdAfter a b.
Proof.
  unfold notAfter, jobNewer, createdAfter.
  rewrite negb_false_iff. apply Z.ltb_lt.
Qed.

Local Instance notOlder_total : Total notOlder.
Proof. intros a b. unfold notOlder. lia. Qed.

Local Instance notOlder_trans : Transitive notOlder.
Proof. intros a b c. unfold notOlder. lia. Qed.

Section results.
Context (r : pipelineRunner.t).
Context (Hvalid : jobsByIDValid r) (Hapart : createdApart r).

Lemma listed_result (kv : UUID * nat) x :
  kv ∈ map_to_list (jobsByID r) →
  jobToResult <$> heap r !! kv.2 = Some x →
  ∃ j, jobsByID r !! kv.1 = Some kv.2 ∧ heap r !! kv.2 = Some j ∧
       x = jobToResult j.
Proof.
  destruct kv as [id job]. intros Hin%elem_of_map_to_list Hx. simpl in *.
  destruct (heap r !! job) as [j|]; simplify_eq/=. eauto.
Qed.

Lemma results_exist :
  is_Some (mapM (λ kv : UUID * nat, jobToResult <$> heap r !! kv.2)
             (map_to_list (jobsByID r))).
Proof.
  apply mapM_is_Some_2, Forall_forall. intros [id job] Hin. simpl.
  apply elem_of_map_to_list in Hin. apply Hvalid in Hin as [j ->].
  by eexists.
Qed.

Lemma results_created_NoDup res0 :
  mapM (λ kv : UUID * nat, jobToResult <$> heap r !! kv.2)
    (map_to_list (jobsByID r)) = Some res0 →
  NoDup (pipelineJobResult.Created <$> res0).
Proof.
  intros Hres%mapM_Some_1. apply NoDup_alt. intros i k c Hi Hk.
  apply list_lookup_fmap_Some in Hi as (x1 & -> & Hi).
  apply list_lookup_fmap_Some in Hk as (x2 & Hc & Hk).
  destruct (Forall2_lookup_r _ _ _ _ _ Hres Hi) as (kv1 & Hkv1 & Hx1).
  destruct (Forall2_lookup_r _ _ _ _ _ Hres Hk) as (kv2 & Hkv2 & Hx2).
  destruct (listed_result kv1 x1) as (j1 & Hid1 & Hj1 & ->);
    [by eapply list_elem_of_lookup_2|done|].
  destruct (listed_result kv2 x2) as (j2 & Hid2 & Hj2 & ->);
    [by eapply list_elem_of_lookup_2|done|].
  destruct (decide (kv1.1 = kv2.1)) as [Heq|Hne].
  - apply (NoDup_lookup _ _ _ kv1.1 (NoDup_fst_map_to_list (jobsByID r))).
    + by rewrite list_lookup_fmap, Hkv1.
    + by rewrite list_lookup_fmap, Hkv2, Heq.
  - destruct (Hapart _ _ _ _ _ _ Hid1 Hid2 Hne Hj1 Hj2).
    rewrite !jobToResult_eq in Hc. simpl in Hc. done.
Qed.

Lemma sorted_results res0 :
  NoDup (pipelineJobResult.Created <$> res0) →
  sortSlice jobNewer res0 = merge_sort notOlder res0.
Proof.
  intros Hnd. unfold sortSlice. apply merge_sort_ext.
  - by eapply NoDup_fmap_1.
  - intros x y Hx Hy Hne. rewrite notAfter_jobNewer.
    unfold createdAfter, notOlder.
    assert (pipelineJobResult.Created x ≠ pipelineJobResult.Created y).
    { intros Heq. apply Hne.
      by apply (NoDup_fmap_inj_on pipelineJobResult.Created res0). }
    lia.
Qed.
End results.

(** X18.  When every entry of [jobsByID] points to a job and no two jobs
    were created at the same time, [ListJobs] returns one result for each
    registered job, as [jobToResult] makes it, the job created last
    first, whatever the order in which Go ranges over [jobsByID]. *)
Theorem ListJobs_newest_first w w' r :
  rangesOverJobs (rangeJobs w) →
  rangesOverJobs (rangeJobs w') →
  jobsByIDValid r →
  createdApart r →
  ∃ res,
    ListJobs w r = Some res ∧
    ListJobs w' r = Some res ∧
    StronglySorted createdAfter res ∧
    length res = size (jobsByID r) ∧
    ∀ x, x ∈ res ↔
         ∃ id job j, jobsByID r !! id = Some job ∧ heap r !! job = Some j ∧
                     x = jobToResult j.
Proof.
  intros Hrange Hrange' Hvalid Hapart.
  destruct (results_exist r Hvalid) as [res0 Hres0].
  pose proof (results_created_NoDup r Hapart res0 Hres0) as Hnd.
  assert (∀ range, rangesOverJobs range →
    ∃ res1, mapM (λ kv : UUID * nat, jobToResult <$> heap r !! kv.2)
              (range (map_to_list (jobsByID r))) = Some res1 ∧
            res0 ≡ₚ res1) as Hany.
  { intros range Hr. eapply mapM_Permutation; [|exact Hres0].
    symmetry. apply Hr. }
  destruct (Hany _ Hrange) as (res1 & Hres1 & Hp1).
  destruct (Hany _ Hrange') as (res2 & Hres2 & Hp2).
  assert (∀ res', res0 ≡ₚ res' →
    sortSlice jobNewer res' = merge_sort notOlder res0) as Hsort.
  { intros res' Hp. rewrite sorted_results by by rewrite <-Hp.
    apply (StronglySorted_unique_strong notOlder).
    - intros x y Hx Hy Hxy Hyx.
      rewrite merge_sort_Permutation, <-Hp in Hx.
      rewrite merge_sort_Permutation in Hy.
      apply (NoDup_fmap_inj_on pipelineJobResult.Created res0);
        [done..|]. unfold notOlder in *. lia.
    - apply StronglySorted_merge_sort; apply _.
    - apply StronglySorted_merge_sort; apply _.
    - by rewrite !merge_sort_Permutation. }
  exists (merge_sort notOlder res0). split_and!.
  - unfold ListJobs. rewrite Hres1. simpl. by rewrite (Hsort _ Hp1).
  - unfold ListJobs. rewrite Hres2. simpl. by rewrite (Hsort _ Hp2).
  - assert (NoDup (merge_sort notOlder res0)) as Hnd'.
    { rewrite merge_sort_Permutation. by eapply NoDup_fmap_1. }
    eapply StronglySorted_weaken;
      [|apply (StronglySorted_NoDup_in notOlder);
        [apply StronglySorted_merge_sort; apply _|exact Hnd']].
    intros x y (Hle & Hx & Hy & Hne). unfold createdAfter, notOlder in *.
    rewrite merge_sort_Permutation in Hx, Hy.
    assert (pipelineJobResult.Created x ≠ pipelineJobResult.Created y).
    { intros Heq. apply Hne.
      by apply (NoDup_fmap_inj_on pipelineJobResult.Created res0). }
    lia.
  - rewrite merge_sort_Permutation.
    apply mapM_Some_1, Forall2_length in Hres0. rewrite <-Hres0.
    apply length_map_to_list.
  - intros x. rewrite merge_sort_Permutation. split.
    + intros [i Hi]%list_elem_of_lookup.
      apply mapM_Some_1 in Hres0.
      destruct (Forall2_lookup_r _ _ _ _ _ Hres0 Hi) as (kv & Hkv & Hx).
      destruct (listed_result r kv x) as (j & Hid & Hj & ->);
        [by eapply list_elem_of_lookup_2|done|].
      by exists kv.1, kv.2, j.
    + intros (id & job & j & Hid & Hj & ->).
      apply elem_of_map_to_list, list_elem_of_lookup in Hid as [i Hi].
      apply mapM_Some_1 in Hres0.
      destruct (Forall2_lookup_l _ _ _ _ _ Hres0 Hi) as (y & Hy & Hf).
      simpl in Hf. rewrite Hj in Hf. simplify_eq/=.
      by eapply list_elem_of_lookup_2.
Qed.
End list_jobs.

(** *** The operations at work on the examples *)

Lemma demoS2_jobCompleted :
  jobCompleted demoWorld 4 demoS2 1%N None = Some demoS2one.
Proof. by vm_compute. Qed.

Lemma demoS2two_ScheduleAsync :
  ScheduleAsync demoWorld 4 demoS2two "p" demoOpts (inl 3%N)
  = Some (demoS2, inl 2%nat).
Proof. by vm_compute. Qed.

(** X6 on scenario S2: when the first job completes, the jobs of [p] are
    still listed, in their order. *)
Lemma opStep_keeps_jobs_S2 :
  jobsOf demoS2 "p" `prefix_of` jobsOf demoS2one "p".
Proof.
  destruct (opStep_keeps_jobs demoWorld demoS2 demoS2one) as (_ & _ & _ & Hp);
    [|apply Hp].
  exact (opJobCompleted demoWorld 4 demoS2 1%N None demoS2one
           demoS2_jobCompleted).
Defined.

(** X7 on scenario S2: the third job is found under its id. *)
Lemma ScheduleAsync_registers_job_S2 :
  findJob demoS2 3%N = Some 2%nat ∧ last (jobsOf demoS2 "p") = Some 2%nat.
Proof.
  destruct (ScheduleAsync_registers_job demoWorld 4 demoS2two "p" demoOpts
              3%N demoS2 2%nat demoS2two_ScheduleAsync)
    as (_ & Hfind & Hlast & _).
  split; [exact Hfind|exact Hlast].
Defined.

(** X8 on scenario S2: [p] is not schedulable, and the fourth request is
    turned down. *)
Lemma isSchedulable_tells_admission_S2 :
  isSchedulable demoS2 "p" = false ∧
  (ScheduleAsync demoWorld 4 demoS2 "p" demoOpts (inl 4%N)
   = Some (demoS2, inr errNoQueue) ∨
   ScheduleAsync demoWorld 4 demoS2 "p" demoOpts (inl 4%N)
   = Some (demoS2, inr errQueueFull)).
Proof.
  assert (isSchedulable demoS2 "p" = false) as Hno by by vm_compute.
  split; [exact Hno|].
  destruct (isSchedulable_tells_admission demoWorld demoS2 "p" demoDefP
              demoOpts) as [Hturned _]; [by vm_compute|].
  exact (Hturned Hno 4%nat (inl 4%N)).
Defined.

(** X9 where no graph can be built: the job that waits is never got
    past. *)
Lemma startJobsOnWaitList_never_returns_demo :
  startJobsOnWaitList demoFailWorld 1000 demoWaiting "p" = None.
Proof.
  apply (startJobsOnWaitList_never_returns demoFailWorld demoWaiting "p"
           0%nat [] demoWaitingJob demoGraphError); by vm_compute.
Defined.

(** X10 where no graph can be built: the first request for [p] is
    answered with a job that is canceled. *)
Lemma ScheduleAsync_graph_failure_demo :
  ∃ r' j,
    ScheduleAsync demoFailWorld 2 (newPipelineRunner demoDefs) "p" demoOpts
      (inl 1%N) = Some (r', inl 0%nat) ∧
    heap r' !! 0%nat = Some j ∧
    pipelineJob.Canceled j = true ∧
    pipelineJob.LastError j = Some demoGraphError.
Proof.
  destruct (ScheduleAsync_graph_failure demoFailWorld
              (newPipelineRunner demoDefs) "p" demoDefP demoOpts 1%N
              demoGraphError 0)
    as (r' & j & Hrun & _ & Hj & Hcanceled & Herr & _);
    [by vm_compute..|].
  exists r', j. split_and!; [exact Hrun|exact Hj|exact Hcanceled|exact Herr].
Defined.


Lemma demoS2_handleTaskChange :
  handleTaskChange demoS2 1%N demoChangedTask = Some demoS2changed.
Proof. by vm_compute. Qed.

Lemma demoS2_handleStageChange :
  handleStageChange demoS2 1%N "a" StatusRunning = Some demoS2staged.
Proof. by vm_compute. Qed.

(** X12 on scenario S2: the report on task [a] of the first job is
    written to the job, and a save is requested. *)
Lemma handleTaskChange_writes_one_task_S2 :
  ∃ j, heap demoS2 !! 0%nat = Some j ∧
       byName (pipelineJob.Tasks j) "a" = Some 0%nat ∧
       persistRequests demoS2changed = true.
Proof.
  pose proof (handleTaskChange_writes_one_task demoS2 1%N demoChangedTask
                demoS2changed demoS2_handleTaskChange) as Hwrite.
  change (findJob demoS2 1%N) with (Some 0%nat) in Hwrite.
  destruct Hwrite as (j & Hj & Hwrite). exists j. split; [exact Hj|].
  assert (byName (pipelineJob.Tasks j) "a" = Some 0%nat) as Hi.
  { vm_compute in Hj. injection Hj as <-. vm_compute. reflexivity. }
  split; [exact Hi|].
  change (Task.Name demoChangedTask) with "a" in Hwrite.
  rewrite Hi in Hwrite.
  destruct Hwrite as (old & _ & _ & _ & -> & _). reflexivity.
Defined.

(** X13 on scenario S2: the stage [a] of the first job is reported
    running. *)
Lemma handleStageChange_writes_status_S2 :
  ∃ j, heap demoS2 !! 0%nat = Some j ∧
       byName (pipelineJob.Tasks j) "a" = Some 0%nat ∧
       persistRequests demoS2staged = true.
Proof.
  pose proof (handleStageChange_writes_status demoS2 1%N "a" StatusRunning
                demoS2staged demoS2_handleStageChange) as Hwrite.
  change (findJob demoS2 1%N) with (Some 0%nat) in Hwrite.
  destruct Hwrite as (j & Hj & Hwrite). exists j. split; [exact Hj|].
  assert (byName (pipelineJob.Tasks j) "a" = Some 0%nat) as Hi.
  { vm_compute in Hj. injection Hj as <-. vm_compute. reflexivity. }
  split; [exact Hi|].
  rewrite Hi in Hwrite.
  destruct Hwrite as (old & _ & _ & _ & ->). reflexivity.
Defined.

(** X14 on scenario S2: after the report on task [a], [p] still resolves
    the action it resolved. *)
Lemma changes_keep_admission_S2 :
  resolveScheduleAction demoS2changed "p" = resolveScheduleAction demoS2 "p".
Proof.
  destruct (changes_keep_admission demoS2 1%N demoChangedTask "a"
              StatusRunning demoS2changed (or_introl demoS2_handleTaskChange))
    as (_ & _ & _ & _ & _ & Hsame & _).
  apply Hsame.
Defined.

Lemma rangeForth_rangesOverKeys : rangesOverKeys rangeForth.
Proof. by intros ks. Qed.

Lemma rangeBack_rangesOverKeys : rangesOverKeys rangeBack.
Proof. intros ks. apply reverse_Permutation. Qed.

(** X15 on scenario S2: the pipelines come in the same order, ranging
    forth or back. *)
Lemma ListPipelines_sorted_and_complete_S2 :
  ListPipelines rangeForth demoS2 = ListPipelines rangeBack demoS2.
Proof.
  destruct (ListPipelines_sorted_and_complete rangeForth rangeBack demoS2
              rangeForth_rangesOverKeys rangeBack_rangesOverKeys)
    as (Hsame & _).
  exact Hsame.
Defined.


Lemma demoWorld_rangesOverJobs : rangesOverJobs (rangeJobs demoWorld).
Proof. by intros l. Qed.

Lemma demoS2_entries id job :
  jobsByID demoS2 !! id = Some job →
  (id, job) ∈ [(1%N, 0%nat); (2%N, 1%nat); (3%N, 2%nat)].
Proof.
  intros Hid%elem_of_map_to_list.
  let l := eval vm_compute in (map_to_list (jobsByID demoS2)) in
  change (map_to_list (jobsByID demoS2)) with l in Hid.
  repeat (apply elem_of_cons in Hid as [Hid|Hid]);
    try (by apply elem_of_nil in Hid); simplify_eq; demo_elem_of.
Qed.

Lemma demoS2_jobsByIDValid : jobsByIDValid demoS2.
Proof.
  intros id job Hid%demoS2_entries.
  repeat (apply elem_of_cons in Hid as [Hid|Hid]);
    try (by apply elem_of_nil in Hid); simplify_eq;
    vm_compute; eexists; reflexivity.
Qed.

Lemma demoS2_created :
  pipelineJob.Created <$> heap demoS2 = [0; 2; 3].
Proof. by vm_compute. Qed.

Lemma demoS2_createdApart : createdApart demoS2.
Proof.
  intros id1 id2 job1 job2 j1 j2 Hid1%demoS2_entries Hid2%demoS2_entries
    Hne Hj1 Hj2 Heq.
  assert (∀ job j, heap demoS2 !! job = Some j →
                   [0; 2; 3] !! job = Some (pipelineJob.Created j)) as Hc.
  { intros job j Hj. by rewrite <-demoS2_created, list_lookup_fmap, Hj. }
  apply Hc in Hj1, Hj2. clear Hc. rewrite <-Heq in Hj2. clear Heq.
  revert Hj1 Hj2. generalize (pipelineJob.Created j1). intros c Hj1 Hj2.
  clear j1 j2.
  repeat (apply elem_of_cons in Hid1 as [Hid1|Hid1]);
    try (by apply elem_of_nil in Hid1);
    repeat (apply elem_of_cons in Hid2 as [Hid2|Hid2]);
    try (by apply elem_of_nil in Hid2);
    injection Hid1 as -> ->; injection Hid2 as -> ->;
    simpl in Hj1, Hj2; congruence.
Qed.

(** X18 on scenario S2: three jobs are listed. *)
Lemma ListJobs_newest_first_S2 :
  ∃ res, ListJobs demoWorld demoS2 = Some res ∧ length res = 3%nat.
Proof.
  destruct (ListJobs_newest_first demoWorld demoWorld demoS2
              demoWorld_rangesOverJobs demoWorld_rangesOverJobs
              demoS2_jobsByIDValid demoS2_createdApart)
    as (res & Hres & _ & _ & Hlen & _).
  exists res. split; [exact Hres|]. rewrite Hlen. by vm_compute.
Defined.

(** *** The bound on the wait lists *)

Section queue_bound.
Context (w : World).
Implicit Types (r : pipelineRunner.t) (pipeline : string) (job : nat).

(** [startJob] and the drain loop only take jobs off the wait lists. *)
Lemma startJob_waitListLoop_suffix fuel :
  (∀ r job r', startJob w fuel r job = Some r' →
     ∀ q, waitListOf r' q `suffix_of` waitListOf r q) ∧
  (∀ r pipeline waitList r',
     waitListLoop w fuel r pipeline waitList = Some r' →
     (∀ q, q ≠ pipeline → waitListOf r' q `suffix_of` waitListOf r q) ∧
     waitListOf r' pipeline `suffix_of` waitList).
Proof.
  induction fuel as [|fuel [IHstart IHloop]]; [by split|]. split.
  - intros r job r' Hrun q. simpl in Hrun.
    destruct (heap r !! job) as [j|]; [|done].
    destruct (buildPipelineGraph w _ _) as [graph|err]; [by simplify_eq|].
    destruct (waitListLoop _ _ _ _ _) as [r2|] eqn:Hloop; [|done].
    simplify_eq/=. apply IHloop in Hloop as [Hother Hsame].
    destruct (decide (q = pipelineJob.Pipeline j)) as [->|Hne].
    + exact Hsame.
    + by apply Hother.
  - intros r pipeline waitList r' Hrun.
    assert (∀ l,
      (∀ q, q ≠ pipeline →
            waitListOf (setWaitList pipeline l r) q `suffix_of` waitListOf r q) ∧
      waitListOf (setWaitList pipeline l r) pipeline `suffix_of` l) as Hset.
    { intros l. split.
      - intros q Hne. rewrite waitListOf_setWaitList.
        by rewrite decide_False.
      - rewrite waitListOf_setWaitList. by rewrite decide_True. }
    simpl in Hrun.
    destruct waitList as [|queuedJob waitList'];
      [simplify_eq; apply Hset|].
    case_decide; [|simplify_eq; apply Hset].
    destruct (startJob _ _ _ _) as [r1|] eqn:Hstart; [|done].
    simpl in Hrun. pose proof (IHstart _ _ _ Hstart) as H1.
    apply IHloop in Hrun as [Hother Hsame]. split.
    + intros q Hne. etrans; [by apply Hother|apply H1].
    + by apply suffix_cons_r.
Qed.

Lemma resolveScheduleAction_queue_room r pipeline q :
  resolveScheduleAction r pipeline = scheduleActionQueue →
  definition.QueueLimit (pipelineDefOf r pipeline) = Some q →
  Z.of_nat (length (waitListOf r pipeline)) < q.
Proof.
  unfold resolveScheduleAction. intros Hact Hq. rewrite Hq in Hact.
  destruct (_ >=? _); [|done].
  destruct (decide _); [done|].
  destruct (_ && _); [done|].
  destruct (Z.geb_spec (Z.of_nat (length (waitListOf r pipeline))) q);
    [done|lia].
Qed.

Lemma queueBound_shrink r r' :
  defs r' = defs r →
  (∀ q, waitListOf r' q `suffix_of` waitListOf r q) →
  queueBound r → queueBound r'.
Proof.
  intros Hdefs Hsuffix Hbound p q Hq.
  assert (pipelineDefOf r' p = pipelineDefOf r p) as Hdef
    by (unfold pipelineDefOf; by rewrite Hdefs).
  rewrite Hdef in Hq. specialize (Hbound p q Hq).
  pose proof (suffix_length _ _ (Hsuffix p)). lia.
Qed.

Lemma queueBound_set r0 r pipeline waitList :
  defs r0 = defs r →
  (∀ q, q ≠ pipeline → waitListOf r0 q = waitListOf r q) →
  (∀ q, definition.QueueLimit (pipelineDefOf r pipeline) = Some q →
        Z.of_nat (length waitList) ≤ Z.max 0 q) →
  queueBound r →
  queueBound (requestPersist (setWaitList pipeline waitList r0)).
Proof.
  intros Hdefs Hother Hnew Hbound p q Hq.
  assert (pipelineDefOf (requestPersist (setWaitList pipeline waitList r0)) p
          = pipelineDefOf r p) as Hdef
    by (unfold pipelineDefOf; simpl; by rewrite Hdefs).
  rewrite Hdef in Hq.
  change (waitListOf (requestPersist (setWaitList pipeline waitList r0)) p)
    with (waitListOf (setWaitList pipeline waitList r0) p).
  rewrite waitListOf_setWaitList. case_decide as Hp.
  - subst p. by apply Hnew.
  - rewrite Hother by done. by apply Hbound.
Qed.

Lemma ScheduleAsync_queueBound fuel r pipeline opts newV4 r' res :
  queueBound r →
  ScheduleAsync w fuel r pipeline opts newV4 = Some (r', res) →
  queueBound r'.
Proof.
  intros Hbound Hrun.
  destruct (defs r !! pipeline) as [pipelineDef|] eqn:Hdef.
  2:{ unfold ScheduleAsync in Hrun. rewrite Hdef in Hrun. by simplify_eq. }
  destruct newV4 as [id|err].
  2:{ unfold ScheduleAsync in Hrun. rewrite Hdef in Hrun.
      destruct (resolveScheduleAction r pipeline); by simplify_eq. }
  rewrite (ScheduleAsync_defined w fuel r pipeline opts id pipelineDef Hdef)
    in Hrun.
  cbv zeta in Hrun.
  set (r1 := admitted w r pipeline opts id pipelineDef) in *.
  destruct (resolveScheduleAction r pipeline) eqn:Hact.
  - destruct (startJob w fuel r1 (length (heap r))) as [r2|] eqn:Hstart;
      [|done].
    simpl in Hrun. injection Hrun as <- <-.
    apply (queueBound_shrink r (requestPersist r2)); [| |done].
    + destruct (proj1 (startJob_waitListLoop_keepsRegister w fuel)
                  _ _ _ Hstart) as [Hd _]. exact Hd.
    + exact (proj1 (startJob_waitListLoop_suffix fuel) _ _ _ Hstart).
  - injection Hrun as <- <-. apply (queueBound_set r1 r); [done|done| |done].
    intros q Hq. rewrite length_app. simpl.
    pose proof (resolveScheduleAction_queue_room r pipeline q Hact Hq). lia.
  - destruct (last (waitListOf r pipeline)) as [previousJob|]; [|done].
    injection Hrun as <- <-.
    apply (queueBound_set
             (updateJob (pipelineJob.withCanceled true) previousJob r1) r);
      [done|done| |done].
    intros q Hq. rewrite length_insert. by apply Hbound.
  - by injection Hrun as <- <-.
  - by injection Hrun as <- <-.
Qed.

Lemma startJobsOnWaitList_queueBound fuel r pipeline r' :
  queueBound r →
  startJobsOnWaitList w fuel r pipeline = Some r' →
  queueBound r'.
Proof.
  intros Hbound Hrun. unfold startJobsOnWaitList in Hrun.
  apply (queueBound_shrink r r'); [| |done].
  - destruct (proj2 (startJob_waitListLoop_keepsRegister w fuel)
                _ _ _ _ Hrun) as [Hd _]. exact Hd.
  - intros q.
    destruct (proj2 (startJob_waitListLoop_suffix fuel) _ _ _ _ Hrun)
      as [Hother Hsame].
    destruct (decide (q = pipeline)) as [->|Hne]; [done|by apply Hother].
Qed.

Lemma jobCompleted_queueBound fuel r id err r' :
  queueBound r →
  jobCompleted w fuel r id err = Some r' →
  queueBound r'.
Proof.
  intros Hbound Hrun. unfold jobCompleted in Hrun.
  destruct (jobsByID r !! id) as [job|]; [|by simplify_eq].
  destruct (heap r !! job) as [j|]; [|done]. simpl in Hrun.
  destruct (startJobsOnWaitList _ _ _ _) as [r3|] eqn:Hdrain; [|done].
  simpl in Hrun. simplify_eq.
  apply startJobsOnWaitList_queueBound in Hdrain; [done|].
  exact Hbound.
Qed.

(** X19.  In every state the runner reaches from the empty runner by
    calls of [ScheduleAsync], [jobCompleted] and [startJobsOnWaitList], a
    pipeline whose definition has a queue limit has at most that many
    jobs on its wait list (none when the limit is zero or less). *)
Theorem wait_list_within_queue_limit defs r pipeline pipelineDef q :
  opReachable w defs r →
  defs !! pipeline = Some pipelineDef →
  definition.QueueLimit pipelineDef = Some q →
  Z.of_nat (length (waitListOf r pipeline)) ≤ Z.max 0 q.
Proof.
  intros Hreach Hdef Hq.
  assert (queueBound r ∧ pipelineRunner.defs r = defs) as [Hbound Hdefs].
  { induction Hreach as [|r r' _ [IH Hd] Hstep].
    - split; [|done]. intros p q0 _. unfold waitListOf. simpl.
      rewrite lookup_empty. simpl. lia.
    - split.
      + inversion Hstep; subst.
        * by eapply ScheduleAsync_queueBound.
        * by eapply jobCompleted_queueBound.
        * by eapply startJobsOnWaitList_queueBound.
      + rewrite <-Hd. inversion Hstep; subst.
        * by eapply ScheduleAsync_keepsRegister.
        * by eapply jobCompleted_keepsRegister.
        * by eapply (proj2 (startJob_waitListLoop_keepsRegister w _)). }
  apply Hbound. unfold pipelineDefOf. rewrite Hdefs, Hdef. done.
Qed.
End queue_bound.

(** *** The life of a job *)

Section life_cycle.
Context (w : World) (Hgraphs : graphsBuild w).
Implicit Types (r : pipelineRunner.t) (pipeline : string) (job : nat).

Lemma lifeCycle_frame r r' :
  heap r' = heap r → spawned r' = spawned r → lifeCycle r → lifeCycle r'.
Proof. intros Hh Hs Hlife job j. rewrite Hh, Hs. apply Hlife. Qed.

Lemma lifeCycle_launchJob r job j :
  heap r !! job = Some j →
  pipelineJob.Start j = None →
  pipelineJob.Completed j = false →
  pipelineJob.Canceled j = false →
  lifeCycle r → lifeCycle (requestPersist (launchJob w job r)).
Proof.
  intros Hj Hstart Hcompleted Hcanceled Hlife job' j' Hj'. simpl in *.
  destruct (decide (job = job')) as [->|Hne].
  - rewrite list_lookup_alter_eq, Hj in Hj'. simpl in Hj'. simplify_eq.
    destruct (Hlife job' j Hj) as (_ & Hend & _ & _). simpl.
    split_and!; [|done|done|by rewrite Hcanceled].
    split; [intros _; apply elem_of_app; right; left|done].
  - rewrite list_lookup_alter_ne in Hj' by done.
    destruct (Hlife job' j' Hj') as (Hsp & Hend & Hc & Hx).
    split_and!; [|done..].
    rewrite Hsp, elem_of_app, list_elem_of_singleton. 
    split; [by left|]. by intros [?|?].
Qed.

Lemma lifeCycle_launchAll started : ∀ r,
  NoDup started →
  (∀ job, job ∈ started →
     ∃ j, heap r !! job = Some j ∧ pipelineJob.Start j = None ∧
          pipelineJob.Completed j = false ∧ pipelineJob.Canceled j = false) →
  lifeCycle r → lifeCycle (launchAll w started r).
Proof.
  induction started as [|job started IH]; intros r Hnd Hwait Hlife; [done|].
  apply NoDup_cons in Hnd as [Hnotin Hnd].
  destruct (Hwait job) as (j & Hj & Hs & Hco & Hca); [left|].
  rewrite launchAll_cons. apply IH; [done| |by eapply lifeCycle_launchJob].
  intros job' Hin. destruct (Hwait job') as (j' & Hj' & ?); [by right|].
  exists j'. split; [|done]. simpl.
  rewrite list_lookup_alter_ne; [done|]. by intros ->.
Qed.

Lemma lifeCycle_registerJob j r :
  (∀ job, job ∈ spawned r → is_Some (heap r !! job)) →
  pipelineJob.Start j = None → pipelineJob.End_ j = None →
  pipelineJob.Completed j = false → pipelineJob.Canceled j = false →
  lifeCycle r → lifeCycle (registerJob j r).2.
Proof.
  intros Hvalid Hs He Hco Hca Hlife job j' Hj'. simpl in *.
  apply lookup_app_Some in Hj' as [Hold|[Hge Hnew]].
  - by apply Hlife.
  - apply list_lookup_singleton_Some in Hnew as [Hjob <-].
    assert (job = length (heap r)) as -> by lia.
    rewrite Hs, He, Hco, Hca. split_and!; try done.
    split; [done|]. intros Hin%Hvalid%lookup_lt_is_Some. lia.
Qed.

Lemma lifeCycle_cancel r job j :
  heap r !! job = Some j →
  pipelineJob.Start j = None → pipelineJob.Completed j = false →
  lifeCycle r → lifeCycle (updateJob (pipelineJob.withCanceled true) job r).
Proof.
  intros Hj Hs Hco Hlife job' j' Hj'. simpl in *.
  destruct (decide (job = job')) as [->|Hne].
  - rewrite list_lookup_alter_eq, Hj in Hj'. simpl in Hj'. simplify_eq.
    destruct (Hlife job' j Hj) as (Hsp & Hend & Hc & _). simpl.
    by split_and!.
  - rewrite list_lookup_alter_ne in Hj' by done. by apply Hlife.
Qed.

Lemma lifeCycle_complete r job j now err :
  heap r !! job = Some j → job ∈ spawned r →
  lifeCycle r →
  lifeCycle
    (updateJob (λ j, pipelineJob.withLastError err
                       (pipelineJob.withEnd (Some now)
                          (pipelineJob.withCompleted true j))) job r).
Proof.
  intros Hj Hin Hlife job' j' Hj'. simpl in *.
  destruct (decide (job = job')) as [->|Hne].
  - rewrite list_lookup_alter_eq, Hj in Hj'. simpl in Hj'. simplify_eq.
    destruct (Hlife job' j Hj) as (Hsp & Hend & Hc & Hx). simpl.
    assert (pipelineJob.Start j ≠ None) as Hstarted by by apply Hsp.
    split_and!; [done|done|done|].
    intros Hca. by destruct (Hx Hca).
  - rewrite list_lookup_alter_ne in Hj' by done. by apply Hlife.
Qed.

Lemma lifeCycle_drain fuel r pipeline r' :
  runInvariant r → lifeCycle r →
  startJobsOnWaitList w fuel r pipeline = Some r' →
  lifeCycle r'.
Proof.
  intros Hinv Hlife Hrun. unfold startJobsOnWaitList in Hrun.
  apply (waitListLoop_drains w Hgraphs) in Hrun
    as (started & Hsplit & -> & _ & _).
  apply (lifeCycle_frame (launchAll w started r)); [done|done|].
  pose proof (ri_wait_nodup r Hinv pipeline) as Hnd.
  rewrite Hsplit in Hnd. apply NoDup_app in Hnd as (Hnd & _ & _).
  apply lifeCycle_launchAll; [done| |done].
  intros job Hin.
  destruct (ri_wait r Hinv pipeline job) as (j & Hj & Hs & Hco & Hca & _).
  { rewrite Hsplit. apply elem_of_app. by left. }
  by exists j.
Qed.

Lemma lifeCycle_ScheduleAsync fuel r pipeline opts newV4 r' res :
  runInvariant r → lifeCycle r →
  ScheduleAsync w fuel r pipeline opts newV4 = Some (r', res) →
  lifeCycle r'.
Proof.
  intros Hinv Hlife Hrun.
  destruct (defs r !! pipeline) as [pipelineDef|] eqn:Hdef.
  2:{ unfold ScheduleAsync in Hrun. rewrite Hdef in Hrun. by simplify_eq. }
  destruct newV4 as [id|err].
  2:{ unfold ScheduleAsync in Hrun. rewrite Hdef in Hrun.
      destruct (resolveScheduleAction r pipeline); by simplify_eq. }
  rewrite (ScheduleAsync_defined w fuel r pipeline opts id pipelineDef Hdef)
    in Hrun.
  cbv zeta in Hrun.
  set (new := newJob w id pipeline (timeNow w (clock r)) opts pipelineDef).
  assert (lifeCycle (admitted w r pipeline opts id pipelineDef)) as Hlife1.
  { unfold admitted.
    apply lifeCycle_registerJob;
      [apply (ri_spawned r Hinv)|done|done|done|done|].
    by apply (lifeCycle_frame r). }
  set (r1 := admitted w r pipeline opts id pipelineDef) in *.
  assert (heap r1 !! length (heap r) = Some new) as Hnew.
  { unfold r1, admitted. simpl. by rewrite lookup_app_r, Nat.sub_diag. }
  destruct (resolveScheduleAction r pipeline).
  - destruct (startJob w fuel r1 (length (heap r))) as [r2|] eqn:Hstart;
      [|done].
    simpl in Hrun. injection Hrun as <- <-.
    apply (startJob_graphsBuild w Hgraphs) in Hstart as [-> _].
    apply (lifeCycle_frame (requestPersist (launchJob w (length (heap r)) r1)));
      [done|done|].
    by apply (lifeCycle_launchJob r1 _ new).
  - injection Hrun as <- <-. by apply (lifeCycle_frame r1).
  - destruct (last (waitListOf r pipeline)) as [previousJob|] eqn:Hlast;
      [|done].
    injection Hrun as <- <-.
    apply (lifeCycle_frame
             (updateJob (pipelineJob.withCanceled true) previousJob r1));
      [done|done|].
    destruct (ri_wait r Hinv pipeline previousJob)
      as (j & Hj & Hs & Hco & _).
    { apply last_Some_snoc in Hlast as [l' ->].
      apply elem_of_app. right. left. }
    apply (lifeCycle_cancel r1 previousJob j); [|done|done|done].
    unfold r1, admitted. simpl. by apply lookup_app_l_Some.
  - by injection Hrun as <- <-.
  - by injection Hrun as <- <-.
Qed.

Lemma lifeCycle_jobCompleted fuel r job j err r' :
  runInvariant r → lifeCycle r →
  job ∈ spawned r → heap r !! job = Some j →
  jobCompleted w fuel r (pipelineJob.ID j) err = Some r' →
  lifeCycle r'.
Proof.
  intros Hinv Hlife Hspawned Hj Hrun. unfold jobCompleted in Hrun.
  rewrite (ri_byid r Hinv job j Hj), Hj in Hrun. simpl in Hrun.
  destruct (startJobsOnWaitList _ _ _ _) as [r3|] eqn:Hdrain; [|done].
  simpl in Hrun. simplify_eq.
  apply (lifeCycle_frame r3); [done|done|].
  eapply lifeCycle_drain; [|  |exact Hdrain].
  - by apply (runInvariant_complete w).
  - apply (lifeCycle_complete (readClock w r).2 job j); [done|done|].
    by apply (lifeCycle_frame r).
Qed.

(** X20.  In a run from the empty runner in which every graph can be
    built, a job has a start time exactly when [startJob] launched its
    activity, an end time exactly when it is completed, is completed only
    if it has started, and is canceled only if it has not started and is
    not completed: no job is canceled while it runs, and no canceled job
    is ever started. *)
Theorem job_life_cycle defs r job j :
  concurrencyDeclared defs →
  runReachable w defs r →
  heap r !! job = Some j →
  (pipelineJob.Start j ≠ None ↔ job ∈ spawned r) ∧
  (pipelineJob.Completed j = true ↔ pipelineJob.End_ j ≠ None) ∧
  (pipelineJob.Completed j = true → pipelineJob.Start j ≠ None) ∧
  (pipelineJob.Canceled j = true →
   pipelineJob.Start j = None ∧ pipelineJob.Completed j = false).
Proof.
  intros Hdefs Hreach. revert job j.
  change (lifeCycle r).
  induction Hreach as [|r r' Hreach IH Hstep]; [done|].
  destruct (runReachable_invariant w Hgraphs defs r Hdefs Hreach)
    as (Hinv & _ & _).
  inversion Hstep; subst.
  - by eapply lifeCycle_ScheduleAsync.
  - by eapply lifeCycle_jobCompleted.
Qed.
End life_cycle.

(** X19 on scenario S2: the two jobs waiting on [p] are within its queue
    limit of two. *)
Lemma wait_list_within_queue_limit_S2 :
  Z.of_nat (length (waitListOf demoS2 "p")) ≤ Z.max 0 2.
Proof.
  apply (wait_list_within_queue_limit demoWorld demoDefs demoS2 "p"
           demoDefP 2).
  - exact (runReachable_opReachable _ _ _ demoS2_runReachable).
  - reflexivity.
  - reflexivity.
Defined.

(** X20 on scenario S2, for the job admitted first. *)
Lemma job_life_cycle_S2 :
  ∃ j, heap demoS2 !! 0%nat = Some j ∧
    (pipelineJob.Start j ≠ None ↔ 0%nat ∈ spawned demoS2) ∧
    (pipelineJob.Completed j = true ↔ pipelineJob.End_ j ≠ None) ∧
    (pipelineJob.Completed j = true → pipelineJob.Start j ≠ None) ∧
    (pipelineJob.Canceled j = true →
     pipelineJob.Start j = None ∧ pipelineJob.Completed j = false).
Proof.
  destruct (heap demoS2 !! 0%nat) as [j|] eqn:Hj.
  - exists j. split; [reflexivity|].
    exact (job_life_cycle demoWorld demoWorld_graphsBuild demoDefs demoS2
             0%nat j demoDefs_concurrencyDeclared demoS2_runReachable Hj).
  - vm_compute in Hj. discriminate Hj.
Defined.

(** *** What [Run] executes, and when it marks the task *)

Section run_commands.
Context (x : RunWorld).
Implicit Types (t : Task.t) (job ran : list string) (prev : string).

Lemma executeLoop_AllowFailure t prev ran job :
  Task.AllowFailure (executeLoop x t prev ran job).1.1 = Task.AllowFailure t.
Proof.
  revert t prev ran. induction job as [|cmd job IH]; intros t prev ran.
  - done.
  - simpl. destruct (Execute x cmd prev) as [out [e|]]; [|apply IH].
    destruct (errExitStatus e) as [status|]; [|done].
    cbn [Task.AllowFailure Task.withExitCode].
    destruct (Task.AllowFailure t) eqn:Hallow; [|by simpl].
    by rewrite IH.
Qed.




End run_commands.

(** *** Saving and loading the register of jobs *)

Section restart.
Context (w : World).
Implicit Types (r : pipelineRunner.t) (pipeline : string) (job : nat).
Implicit Types (pJob : persistedJob.t) (jobs : list persistedJob.t).







Lemma loadJobs_snoc r jobs pJob :
  loadJobs r (jobs ++ [pJob]) = loadJob (loadJobs r jobs) pJob.
Proof. unfold loadJobs. by rewrite foldl_app. Qed.








End restart.

(** *** Saving and loading the wait lists *)

Section restart_wait_lists.
Context (w : World) (Hgraphs : graphsBuild w).
Implicit Types (r : pipelineRunner.t) (pipeline : string) (job : nat).
Implicit Types (ids : list UUID) (entries : list (string * list UUID)).







Lemma spawned_loadJobs r jobs : spawned (loadJobs r jobs) = spawned r.
Proof.
  induction jobs as [|pJob jobs IH] using rev_ind; [done|].
  by rewrite loadJobs_snoc.
Qed.

End restart_wait_lists.

(** *** The files of the output store *)

Section output_store.
Implicit Types (s a b e acc : string) (es : list string).

Lemma append_cons c a b : String c a +:+ b = String c (a +:+ b).
Proof. done. Qed.

Lemma append_nil_r a : a +:+ "" = a.
Proof. induction a as [|c a IH]; [done|]. by rewrite append_cons, IH. Qed.

Lemma append_assoc a b s : (a +:+ b) +:+ s = a +:+ b +:+ s.
Proof. induction a as [|c a IH]; [done|]. by rewrite !append_cons, IH. Qed.

Lemma rev_app_append a b : String.rev_app a b = String.rev a +:+ b.
Proof.
  unfold String.rev. revert b. induction a as [|c a IH]; intros b; [done|].
  simpl. rewrite (IH (String c b)), (IH (String c "")).
  by rewrite append_assoc.
Qed.

Lemma noSlash_append a b :
  noSlash (a +:+ b) = noSlash a && noSlash b.
Proof.
  induction a as [|c a IH]; [done|].
  rewrite append_cons. simpl. by case_decide.
Qed.

(** A string without a slash is one element. *)
Lemma splitSlash_noSlash acc s :
  noSlash s = true → splitSlash acc s = [String.rev acc +:+ s].
Proof.
  revert acc. induction s as [|c s IH]; intros acc Hs.
  - simpl. by rewrite append_nil_r.
  - simpl in *. case_decide; [done|]. rewrite (IH _ Hs).
    unfold String.rev at 1. simpl. rewrite rev_app_append.
    by rewrite append_assoc.
Qed.

(** The elements of two strings joined by a slash. *)
Lemma splitSlash_append acc a b :
  splitSlash acc (a +:+ "/" +:+ b) = splitSlash acc a ++ splitSlash "" b.
Proof.
  revert acc. induction a as [|c a IH]; intros acc.
  - done.
  - rewrite append_cons. simpl. case_decide; [|apply IH].
    by rewrite IH.
Qed.

Lemma joinSlash_snoc es e :
  es ≠ [] → joinSlash (es ++ [e]) = joinSlash es +:+ "/" +:+ e.
Proof.
  induction es as [|x es IH]; intros Hne; [done|].
  destruct es as [|y es]; [done|].
  change (x +:+ "/" +:+ joinSlash ((y :: es) ++ [e])
          = (x +:+ "/" +:+ joinSlash (y :: es)) +:+ "/" +:+ e).
  rewrite IH by done. by rewrite !append_assoc.
Qed.

Lemma joinSlash_rooted es e :
  es ≠ [] → Forall (λ x, x ≠ "") es →
  isRooted (joinSlash (es ++ [e])) = isRooted (joinSlash es).
Proof.
  intros Hne Hall. rewrite joinSlash_snoc by done.
  destruct es as [|x es]; [done|].
  apply Forall_cons in Hall as [Hx _].
  destruct x as [|c x]; [done|].
  by destruct es.
Qed.

(** [path.Clean] keeps a plain name that ends the path. *)
Lemma cleanElems_snoc rooted kept elems e :
  plainName e →
  cleanElems rooted kept (elems ++ [e])
  = cleanElems rooted kept elems ++ [e].
Proof.
  intros (Hempty & Hdot & Hdots & _).
  revert kept. induction elems as [|x elems IH]; intros kept.
  - simpl. rewrite decide_False by (intros [?|?]; done).
    rewrite decide_False by done. by rewrite reverse_cons.
  - simpl. case_decide; [apply IH|].
    case_decide; [|apply IH].
    destruct kept as [|top kept]; [destruct rooted; apply IH|].
    case_decide; apply IH.
Qed.

Lemma cleaned_snoc es e :
  es ≠ [] → Forall (λ x, x ≠ "") es → plainName e →
  cleaned (joinSlash (es ++ [e])) = cleaned (joinSlash es) ++ [e].
Proof.
  intros Hne Hall He. unfold cleaned.
  rewrite joinSlash_rooted by done.
  rewrite joinSlash_snoc, splitSlash_append by done.
  rewrite (splitSlash_noSlash "" e) by apply He.
  change (String.rev "" +:+ e) with e.
  by apply cleanElems_snoc.
Qed.

Lemma append_cons_nonempty a c b : a +:+ String c b ≠ "".
Proof. by destruct a. Qed.

Lemma joinSlash_snoc_nonempty es e : e ≠ "" → joinSlash (es ++ [e]) ≠ "".
Proof.
  intros He. destruct es as [|x es]; [done|].
  rewrite joinSlash_snoc by done. apply append_cons_nonempty.
Qed.

Lemma length_append a b :
  String.length (a +:+ b) = (String.length a + String.length b)%nat.
Proof.
  induction a as [|c a IH]; [done|]. rewrite append_cons. simpl. by rewrite IH.
Qed.

(** The name of a log file is a plain name. *)
Lemma logFile_plainName taskName outputName :
  noSlash taskName = true → noSlash outputName = true →
  plainName (taskName +:+ "-" +:+ outputName +:+ ".log").
Proof.
  intros Htask Houtput.
  assert (5 ≤ String.length (taskName +:+ "-" +:+ outputName +:+ ".log"))%nat
    as Hlen.
  { rewrite !length_append. simpl. lia. }
  split_and!.
  - intros Heq. rewrite Heq in Hlen. simpl in Hlen. lia.
  - intros Heq. rewrite Heq in Hlen. simpl in Hlen. lia.
  - intros Heq. rewrite Heq in Hlen. simpl in Hlen. lia.
  - rewrite !noSlash_append, Htask, Houtput. done.
Qed.

Lemma plainName_rooted e : plainName e → isRooted e = false.
Proof.
  intros (Hempty & _ & _ & Hslash). destruct e as [|c e]; [done|].
  simpl in *. case_decide; [done|]. by apply bool_decide_eq_false.
Qed.

(** The elements [path.Clean] keeps of a path that ends with a plain
    name end with that name. *)
Lemma cleaned_ends es e :
  Forall (λ x, x ≠ "") es → plainName e →
  ∃ elems, cleaned (joinSlash (es ++ [e])) = elems ++ [e].
Proof.
  intros Hall He. destruct (decide (es = [])) as [->|Hne].
  - exists []. unfold cleaned. simpl.
    rewrite (splitSlash_noSlash "" e) by apply He.
    change (String.rev "" +:+ e) with e.
    by rewrite (cleanElems_snoc _ [] [] e He).
  - exists (cleaned (joinSlash es)). by apply cleaned_snoc.
Qed.

Lemma filter_nonempty_snoc es e :
  e ≠ "" →
  filter (λ x, x ≠ "") (es ++ [e]) = filter (λ x, x ≠ "") es ++ [e].
Proof. intros He. by rewrite filter_app, filter_cons_True. Qed.

Lemma pathJoin_ends es e :
  e ≠ "" →
  pathJoin (es ++ [e]) = pathClean (joinSlash (filter (λ x, x ≠ "") es ++ [e])).
Proof.
  intros He. unfold pathJoin. rewrite filter_nonempty_snoc by done.
  destruct (filter (λ x, x ≠ "") es ++ [e]) eqn:Happ; [|done].
  by destruct (filter (λ x, x ≠ "") es).
Qed.

Lemma pathClean_ends s elems e :
  cleaned s = elems ++ [e] → e ≠ "" →
  pathClean s
  = (if isRooted s then "/" else "") +:+ joinSlash (elems ++ [e]).
Proof.
  intros Hc He. unfold pathClean. fold (cleaned s). rewrite Hc.
  rewrite decide_False; [done|].
  pose proof (joinSlash_snoc_nonempty elems e He) as Hne.
  destruct (joinSlash (elems ++ [e])) as [|c x]; [done|].
  by destruct (isRooted s).
Qed.

(** [path.Join] of a path that ends with two plain names is [path.Join]
    of the path without the last name, a slash, and the last name. *)
Lemma pathJoin_plain_snoc es x e :
  plainName x → plainName e →
  pathJoin ((es ++ [x]) ++ [e]) = pathJoin (es ++ [x]) +:+ "/" +:+ e.
Proof.
  intros Hx He.
  assert (x ≠ "") as Hx0 by apply Hx.
  assert (e ≠ "") as He0 by apply He.
  rewrite (pathJoin_ends (es ++ [x]) e), (pathJoin_ends es x) by done.
  rewrite filter_nonempty_snoc by done.
  set (l := filter (λ y, y ≠ "") es).
  assert (Forall (λ y, y ≠ "") l) as Hall.
  { apply Forall_forall. intros y Hy. by apply list_elem_of_filter in Hy as [? _]. }
  assert (Forall (λ y, y ≠ "") (l ++ [x])) as Hall'.
  { apply Forall_app. split; [done|]. by apply Forall_singleton. }
  destruct (cleaned_ends l x Hall Hx) as [elems Helems].
  assert (l ++ [x] ≠ []) as Hne by (by destruct l).
  rewrite (pathClean_ends _ elems x Helems Hx0).
  rewrite (pathClean_ends (joinSlash ((l ++ [x]) ++ [e])) (elems ++ [x]) e);
    [|by rewrite cleaned_snoc, Helems|done].
  rewrite joinSlash_rooted by done.
  rewrite (joinSlash_snoc (elems ++ [x]) e)
    by (by destruct elems).
  by rewrite append_assoc.
Qed.

(** X25.  For a job id that is a plain name (not empty, not [.] or [..],
    without a slash) and names of task and output without a slash,
    whatever the base path of the store: [Writer] asks for the directory
    named after the job directly under the directory [NewOutputStore]
    asked for, and creates the file [{task}-{output}.log] directly in
    that directory; [Reader] opens that same file. *)
Theorem Writer_creates_file_in_job_directory st jobID taskName outputName :
  plainName jobID →
  noSlash taskName = true →
  noSlash outputName = true →
  let logs := pathJoin [OutputStore.basePath st; "logs"] in
  let dir := logs +:+ "/" +:+ jobID in
  let file := dir +:+ "/" +:+ taskName +:+ "-" +:+ outputName +:+ ".log" in
  (NewOutputStore (OutputStore.basePath st) None).1 = [MkdirAll logs] ∧
  Writer st jobID taskName outputName = [MkdirAll dir; Create file] ∧
  Reader st jobID taskName outputName = [Open file].
Proof.
  intros Hjob Htask Houtput logs dir file.
  assert (plainName "logs") as Hlogs by (by split_and!).
  pose proof (logFile_plainName taskName outputName Htask Houtput) as Hfile.
  set (base := OutputStore.basePath st) in *.
  assert (pathJoin [base; "logs"; jobID] = dir) as Hdir.
  { exact (pathJoin_plain_snoc [base] "logs" jobID Hlogs Hjob). }
  assert (buildPath st jobID taskName outputName = file) as Hpath.
  { unfold buildPath. fold base. unfold file. rewrite <-Hdir.
    exact (pathJoin_plain_snoc [base; "logs"] jobID _ Hjob Hfile). }
  split_and!.
  - done.
  - unfold Writer. fold base. by rewrite Hdir, Hpath.
  - unfold Reader. by rewrite Hpath.
Qed.
End output_store.





(** X25 on the output of task [a] of job [42]. *)
Lemma Writer_creates_file_in_job_directory_demo :
  (NewOutputStore "/var/prunner" None).1 = [MkdirAll "/var/prunner/logs"] ∧
  Writer demoOutputStore "42" "a" "stdout"
  = [MkdirAll "/var/prunner/logs/42";
     Create "/var/prunner/logs/42/a-stdout.log"] ∧
  Reader demoOutputStore "42" "a" "stdout"
  = [Open "/var/prunner/logs/42/a-stdout.log"].
Proof.
  refine (Writer_creates_file_in_job_directory demoOutputStore "42" "a"
            "stdout" _ eq_refl eq_refl).
  unfold plainName. split_and!; [discriminate..|reflexivity].
Defined.
